(** * graphs-intro: a shallow embedding of the graph scripts

    Each script of the repository defines its own [Graph] class (an
    adjacency matrix plus, from ex02 on, a dictionary of neighbour sets) and
    one algorithm over it.  This file embeds the constructors and the
    algorithms as Rocq functions and proves the properties the specification
    states about them.

    Python data is modelled as follows.
    - [int] is [Z] (Python integers are unbounded).
    - a [list] is a [list]; indexing follows Python: a negative index counts
      from the end, anything outside [-len, len) raises [IndexError].
    - a [dict] keyed by integers is a [gmap Z _]; looking up a missing key
      raises [KeyError].
    - a [set] of integers is a [gset Z].  The order in which Python iterates
      over a set is not specified by the language, so every loop over a set
      goes through the class [SetIteration], which supplies one enumeration
      per set; the theorems hold for every such enumeration.
    - a [heapq] priority queue is the list of its items; [heappop] removes a
      least item for the lexicographic order on tuples.
    - an exception is a value of [exn]; a function that may raise returns a
      [res].  A [while] loop is a recursion on a fuel argument, [None] meaning
      that the fuel ran out; the theorems show that the fuel the entry points
      pass is enough. *)

From stdpp Require Import gmap list.
From Stdlib Require Import ZArith QArith Lia.

Local Open Scope Z_scope.

(** ** Python runtime model *)

Inductive exn := TypeError | ValueError | KeyError | IndexError.

Inductive res (A : Type) :=
| Ok (a : A)
| Raise (e : exn).
Arguments Ok {A} a.
Arguments Raise {A} e.

Global Instance res_ret : MRet res := λ A a, Ok a.
Global Instance res_bind : MBind res := λ A B f m,
  match m with
  | Ok a => f a
  | Raise e => Raise e
  end.

Global Instance exn_eq_dec : EqDecision exn.
Proof. solve_decision. Defined.

(** A field of an input record: the constructors check [type(v) is int]. *)
Inductive pyval :=
| PInt (z : Z)
| PFloat (q : Q)
| PNone.

(** [maxsize] of [sys], imported as [inf] by the weighted scripts. *)
Definition inf : Z := 9223372036854775807.

(** [range(n)] *)
Definition range (n : Z) : list Z := seqZ 0 n.

(** Position designated by the Python index [i] in a list of length [len]. *)
Definition py_index (len : nat) (i : Z) : option nat :=
  if bool_decide (0 ≤ i < Z.of_nat len) then Some (Z.to_nat i)
  else if bool_decide (- Z.of_nat len ≤ i < 0) then Some (Z.to_nat (Z.of_nat len + i))
  else None.

(** [l[i]] *)
Definition getitem {A} (l : list A) (i : Z) : res A :=
  match py_index (length l) i with
  | Some k => match l !! k with Some x => Ok x | None => Raise IndexError end
  | None => Raise IndexError
  end.

(** [l[i] = v] *)
Definition setitem {A} (l : list A) (i : Z) (v : A) : res (list A) :=
  match py_index (length l) i with
  | Some k => Ok (<[k:=v]> l)
  | None => Raise IndexError
  end.

(** [M[i][j] = v] on a list of rows *)
Definition setitem2 (M : list (list Z)) (i j v : Z) : res (list (list Z)) :=
  row ← getitem M i;
  row' ← setitem row j v;
  setitem M i row'.

(** [M[i][j]] *)
Definition getitem2 (M : list (list Z)) (i j : Z) : res Z :=
  row ← getitem M i; getitem row j.

(** [d[k]] on a dictionary *)
Definition dict_get {V} (d : gmap Z V) (k : Z) : res V :=
  match d !! k with
  | Some v => Ok v
  | None => Raise KeyError
  end.

(** [d[k].add(x)] on a dictionary of sets *)
Definition dict_add (d : gmap Z (gset Z)) (k x : Z) : res (gmap Z (gset Z)) :=
  s ← dict_get d k; Ok (<[k := {[x]} ∪ s]> d).

(** [[[v for _ in range(N)] for _ in range(N)]] *)
Definition fresh_matrix (N v : Z) : list (list Z) :=
  replicate (Z.to_nat N) (replicate (Z.to_nat N) v).

(** [{i: set([]) for i in range(N)}] *)
Definition fresh_neighbors (N : Z) : gmap Z (gset Z) :=
  list_to_map ((λ i, (i, ∅)) <$> range N).

(** Iteration order of a Python set. *)
Class SetIteration := {
  iter : gset Z → list Z;
  iter_perm : ∀ s, iter s ≡ₚ elements s
}.

(** The enumeration of stdpp is one such order. *)
Definition elements_iteration : SetIteration :=
  {| iter := elements; iter_perm := λ s, reflexivity (elements s) |}.

(** One [for x in xs: body] loop whose body may raise. *)
Fixpoint for_each {A S} (body : S → A → res S) (xs : list A) (st : S) : res S :=
  match xs with
  | [] => Ok st
  | x :: xs' => st' ← body st x; for_each body xs' st'
  end.

(** ** Priority queue of [(cost, node)] tuples *)

(** Tuple comparison [a <= b]. *)
Definition tuple_le (a b : Z * Z) : bool :=
  bool_decide (a.1 < b.1) || (bool_decide (a.1 = b.1) && bool_decide (a.2 ≤ b.2)).

(** Least item of [x :: h]. *)
Fixpoint heap_min (x : Z * Z) (h : list (Z * Z)) : Z * Z :=
  match h with
  | [] => x
  | y :: h' => if tuple_le x y then heap_min x h' else heap_min y h'
  end.

(** Removal of the first occurrence of an item. *)
Fixpoint remove_first (x : Z * Z) (h : list (Z * Z)) : list (Z * Z) :=
  match h with
  | [] => []
  | y :: h' => if decide (x = y) then h' else y :: remove_first x h'
  end.

Definition heappush (h : list (Z * Z)) (x : Z * Z) : list (Z * Z) := x :: h.

Definition heappop (h : list (Z * Z)) : res ((Z * Z) * list (Z * Z)) :=
  match h with
  | [] => Raise IndexError
  | x :: h' => let m := heap_min x h' in Ok (m, remove_first m h)
  end.

(** ** The graph object of ex02 to proj02 *)

Record Graph := {
  N : Z;
  matrix : list (list Z);
  neighbors : gmap Z (gset Z)
}.

(** ** Matrix cells and consistency of the two adjacency stores *)

(** Entry [(i, j)] of the matrix for non-negative positions. *)
Definition cell (M : list (list Z)) (i j : Z) : option Z :=
  if bool_decide (0 ≤ i ∧ 0 ≤ j)
  then M !! Z.to_nat i ≫= λ row, row !! Z.to_nat j
  else None.

(** The matrix holds an edge at [(i, j)]: an entry other than [absent]
    (zero for the unweighted scripts, [inf] for the weighted ones). *)
Definition present (absent : Z) (M : list (list Z)) (i j : Z) : Prop :=
  ∃ x, cell M i j = Some x ∧ x ≠ absent.

(** [j] is in the neighbour set of [i]. *)
Definition arc (nb : gmap Z (gset Z)) (u v : Z) : Prop :=
  ∃ s, nb !! u = Some s ∧ v ∈ s.

Definition square (n : Z) (M : list (list Z)) : Prop :=
  length M = Z.to_nat n ∧ Forall (λ row, length row = Z.to_nat n) M.

(** The neighbour sets have one entry per node and list exactly the
    matrix-present columns. *)
Definition consistent (absent n : Z) (M : list (list Z)) (nb : gmap Z (gset Z)) : Prop :=
  square n M ∧
  (∀ i, is_Some (nb !! i) ↔ 0 ≤ i < n) ∧
  (∀ i s, nb !! i = Some s → ∀ j, j ∈ s ↔ 0 ≤ j < n ∧ present absent M i j).

(** The same, on the pair the constructor loops carry. *)
Definition consistent_state (absent n : Z) (st : list (list Z) * gmap Z (gset Z)) : Prop :=
  consistent absent n st.1 st.2.

(** Nodes and neighbour sets stay within [0, N). *)
Definition wf_graph (g : Graph) : Prop :=
  (∀ i, is_Some (neighbors g !! i) ↔ 0 ≤ i < N g) ∧
  (∀ u v, arc (neighbors g) u v → 0 ≤ v < N g).

(** ** Paths *)

(** [p] is a sequence of nodes from [root] to [target] whose consecutive
    nodes are related by [E]. *)
Definition is_path (E : Z → Z → Prop) (root target : Z) (p : list Z) : Prop :=
  head p = Some root ∧ last p = Some target ∧
  ∀ k u v, p !! k = Some u → p !! S k = Some v → E u v.

(** Sum of the weights of the consecutive pairs of [p]. *)
Fixpoint path_cost (wt : Z → Z → Z) (p : list Z) : Z :=
  match p with
  | u :: (v :: _) as rest => wt u v + path_cost wt rest
  | _ => 0
  end.

(** Paths grown at the end, as the searches grow them. *)
Inductive grown (E : Z → Z → Prop) (root : Z) : list Z → Z → Prop :=
| grown_root : grown E root [root] root
| grown_snoc p u v : grown E root p u → E u v → grown E root (p ++ [v]) v.

(** Weight of the matrix entry [(u, v)]. *)
Definition weight (g : Graph) (u v : Z) : Z := default 0 (cell (matrix g) u v).

(** ** Fuel of the loops *)

(** Number of neighbour entries of the nodes of [l] not yet in [history]. *)
Definition pending (g : Graph) (history : gset Z) (l : list Z) : nat :=
  sum_list ((λ i, if decide (i ∈ history) then 0%nat
                  else size (default ∅ (neighbors g !! i))) <$> l).

(** Bound on the number of items a search without a visited check handles
    when [k] nodes are left: the item itself and at most [k] successors with
    one node less. *)
Fixpoint budget (k : nat) : nat :=
  match k with
  | O => 1
  | S k' => S (k * budget k')
  end.

(** ** Input records *)

(** A 1-based node identifier of a graph with [N] nodes. *)
Definition node_id (N a : Z) : bool := bool_decide (1 ≤ a ≤ N).

(** An unweighted record is two integers, both node identifiers. *)
Definition valid_edge (N : Z) (e : list pyval) : bool :=
  match e with
  | [PInt a; PInt b] => node_id N a && node_id N b
  | _ => false
  end.

(** What the unweighted constructors guard against: a record that is not
    two integers, or an identifier above [N]. *)
Definition refused_edge (N : Z) (e : list pyval) : bool :=
  match e with
  | [PInt a; PInt b] => bool_decide (N < a ∨ N < b)
  | _ => true
  end.

(** A weighted record is three integers, the first two node identifiers. *)
Definition valid_arc (N : Z) (e : list pyval) : bool :=
  match e with
  | [PInt a; PInt b; PInt _] => node_id N a && node_id N b
  | _ => false
  end.

Definition refused_arc (N : Z) (e : list pyval) : bool :=
  match e with
  | [PInt a; PInt b; PInt _] => bool_decide (N < a ∨ N < b)
  | _ => true
  end.

(** The weight of a weighted record is not the [inf] marker. *)
Definition finite_arc (e : list pyval) : bool :=
  match e with
  | [_; _; PInt w] => bool_decide (w ≠ inf)
  | _ => true
  end.

(** The weight of a weighted record is not negative. *)
Definition nonneg_arc (e : list pyval) : bool :=
  match e with
  | [_; _; PInt w] => bool_decide (0 ≤ w)
  | _ => true
  end.

(** The weight of a weighted record is one. *)
Definition unit_arc (e : list pyval) : bool :=
  match e with
  | [_; _; PInt w] => bool_decide (w = 1)
  | _ => true
  end.

(** The first two fields of a weighted record. *)
Definition ends (e : list pyval) : list pyval := take 2 e.

(** [TypeError] and [ValueError] are the invalid-argument failures. *)
Definition invalid_argument (e : exn) : Prop := e = TypeError ∨ e = ValueError.

(** The input lists the arc from [u] to [v] (0-based). *)
Definition recorded2 (edges : list (list pyval)) (u v : Z) : Prop :=
  [PInt (u + 1); PInt (v + 1)] ∈ edges.

Definition recorded3 (arcs : list (list pyval)) (u v : Z) : Prop :=
  ∃ w, [PInt (u + 1); PInt (v + 1); PInt w] ∈ arcs.

(** State of the undirected constructor after the records [pre]. *)
Definition undirected_state (n : Z) (pre : list (list pyval))
    (st : list (list Z) * gmap Z (gset Z)) : Prop :=
  square n st.1 ∧
  (∀ i, is_Some (st.2 !! i) ↔ 0 ≤ i < n) ∧
  (∀ u v, arc st.2 u v ↔ recorded2 pre u v ∨ recorded2 pre v u).

(** State of the weighted constructor after the records [pre]: an arc of
    the neighbour sets is a record, and its matrix entry is the weight of
    one of its records. *)
Definition weighted_state (n : Z) (pre : list (list pyval))
    (st : list (list Z) * gmap Z (gset Z)) : Prop :=
  square n st.1 ∧
  (∀ i, is_Some (st.2 !! i) ↔ 0 ≤ i < n) ∧
  (∀ u v, arc st.2 u v ↔ recorded3 pre u v) ∧
  (∀ u v, arc st.2 u v →
     ∃ x, cell st.1 u v = Some x ∧ [PInt (u + 1); PInt (v + 1); PInt x] ∈ pre).

(** ** ex02: undirected unweighted graph and breadth-first search *)

Module Ex02.

(** Body of the [for edge in edges] loop of [Graph.__init__]. *)
Definition register_edge (N : Z) (st : list (list Z) * gmap Z (gset Z))
    (edge : list pyval) : res (list (list Z) * gmap Z (gset Z)) :=
  match edge with
  | [PInt a; PInt b] =>
      let i := a - 1 in
      let j := b - 1 in
      if bool_decide (N ≤ i ∨ N ≤ j) then Raise ValueError
      else
        M ← setitem2 st.1 i j 1;
        M ← setitem2 M j i 1;
        nb ← dict_add st.2 i j;
        nb ← dict_add nb j i;
        Ok (M, nb)
  | _ => Raise TypeError
  end.

(** [Graph.__init__(N, edges)].  The test on [type(N)] and [type(edges)] is
    carried by the types of the arguments, and the one on [type(edge)] by the
    type of a record. *)
Definition init (N : Z) (edges : list (list pyval)) : res Graph :=
  st ← for_each (register_edge N) edges (fresh_matrix N 0, fresh_neighbors N);
  Ok {| N := N; matrix := st.1; neighbors := st.2 |}.

(** The [while to_analyze] loop of [Graph.bfs]. *)
Fixpoint bfs_loop `{SetIteration} (g : Graph) (target : Z) (fuel : nat)
    (to_analyze : list (list Z)) (history : gset Z) : option (res (list Z)) :=
  match to_analyze with
  | [] => Some (Ok [])
  | path :: to_analyze =>
      match fuel with
      | O => None
      | S fuel =>
          match last path with
          | None => Some (Raise IndexError)
          | Some curr =>
              if decide (curr ∈ history) then bfs_loop g target fuel to_analyze history
              else
                match dict_get (neighbors g) curr with
                | Raise e => Some (Raise e)
                | Ok s =>
                    let adjacencies := filter (λ node, node ∉ history) (iter s) in
                    if decide (target ∈ adjacencies) then Some (Ok (path ++ [target]))
                    else
                      bfs_loop g target fuel
                        (to_analyze ++ ((λ node, path ++ [node]) <$> adjacencies))
                        ({[curr]} ∪ history)
                end
          end
      end
  end.

(** Every iteration pops one path, and a path is queued once per neighbour
    entry of an analysed node. *)
Definition bfs_fuel (g : Graph) : nat := S (pending g ∅ (range (N g))).

(** [Graph.bfs(root, target)] *)
Definition bfs `{SetIteration} (g : Graph) (root target : Z) : option (res (list Z)) :=
  bfs_loop g target (bfs_fuel g) [[root]] ∅.

End Ex02.


(** The distance the script derives from a path: [len(graph.bfs(i, j)) - 1]. *)
Definition bfs_distance (p : list Z) : Z := Z.of_nat (length p) - 1.

(** *** Invariant of the breadth-first loop *)

(** The queue holds paths of one length followed by paths one node longer. *)
Definition levelled (Q : list (list Z)) : Prop :=
  ∃ l Q1 Q2, Q = Q1 ++ Q2 ∧ Forall (λ p, length p = l) Q1
             ∧ Forall (λ p, length p = S l) Q2.

Record bfs_inv (g : Graph) (root target : Z) (Q : list (list Z)) (H : gset Z) : Prop := {
  bfs_paths : ∀ p, p ∈ Q → ∃ u, grown (arc (neighbors g)) root p u ∧ u ≠ target;
  bfs_levels : levelled Q;
  bfs_root : root ∈ H ∨ [root] ∈ Q;
  bfs_closed : ∀ u p v, u ∈ H → grown (arc (neighbors g)) root p u →
      arc (neighbors g) u v →
      v ∈ H ∨ ∃ q, q ∈ Q ∧ last q = Some v ∧ (length q ≤ S (length p))%nat;
  bfs_target : ∀ u, u ∈ H → u ≠ target ∧ ¬ arc (neighbors g) u target
}.

(** The paths of the queue end at a node of the graph. *)
Definition ends_in_range (g : Graph) (Q : list (list Z)) : Prop :=
  ∀ p, p ∈ Q → ∃ u, last p = Some u ∧ 0 ≤ u < N g.

(** What the loop returns: nothing when the target cannot be reached, a
    shortest path otherwise. *)
Definition bfs_post (E : Z → Z → Prop) (root target : Z) (p : list Z) : Prop :=
  (p = [] ∧ ∀ w, ¬ grown E root w target) ∨
  (grown E root p target ∧ ∀ w, grown E root w target → (length p ≤ length w)%nat).

(** ** ex04: directed unweighted graph and cycle detection *)

Module Ex04.

(** Body of the [for edge in arcs] loop of [Graph.__init__]. *)
Definition register_arc (N : Z) (st : list (list Z) * gmap Z (gset Z))
    (edge : list pyval) : res (list (list Z) * gmap Z (gset Z)) :=
  match edge with
  | [PInt a; PInt b] =>
      let i := a - 1 in
      let j := b - 1 in
      if bool_decide (N ≤ i ∨ N ≤ j) then Raise ValueError
      else
        M ← setitem2 st.1 i j 1;
        nb ← dict_add st.2 i j;
        Ok (M, nb)
  | _ => Raise TypeError
  end.

(** [Graph.__init__(N, arcs)] *)
Definition init (N : Z) (arcs : list (list pyval)) : res Graph :=
  st ← for_each (register_arc N) arcs (fresh_matrix N 0, fresh_neighbors N);
  Ok {| N := N; matrix := st.1; neighbors := st.2 |}.

(** [to_analyze.pop()] *)
Definition pop {A} (l : list A) : res (A * list A) :=
  match last l with
  | Some x => Ok (x, removelast l)
  | None => Raise IndexError
  end.

(** The [for node in self.neighbors[curr]] loop: [None] when a node of the
    current path is met (the function returns [True]), the grown stack
    otherwise. *)
Fixpoint extend_paths (path : list Z) (nodes : list Z) (to_analyze : list (list Z))
    : option (list (list Z)) :=
  match nodes with
  | [] => Some to_analyze
  | node :: nodes =>
      if decide (node ∈ path) then None
      else extend_paths path nodes (to_analyze ++ [path ++ [node]])
  end.

(** The [while to_analyze] loop of [Graph.island_has_cycle]. *)
Fixpoint island_loop `{SetIteration} (g : Graph) (fuel : nat)
    (to_analyze : list (list Z)) (history : gset Z) : option (res (bool * list Z)) :=
  match to_analyze with
  | [] => Some (Ok (false, iter history))
  | _ =>
      match fuel with
      | O => None
      | S fuel =>
          match pop to_analyze with
          | Raise e => Some (Raise e)
          | Ok (path, to_analyze) =>
              match last path with
              | None => Some (Raise IndexError)
              | Some curr =>
                  let history := {[curr]} ∪ history in
                  match dict_get (neighbors g) curr with
                  | Raise e => Some (Raise e)
                  | Ok s =>
                      match extend_paths path (iter s) to_analyze with
                      | None => Some (Ok (true, iter history))
                      | Some to_analyze => island_loop g fuel to_analyze history
                      end
                  end
              end
          end
      end
  end.

(** The stack only holds paths without a repeated node. *)
Definition island_fuel (g : Graph) : nat := budget (Z.to_nat (N g)).

(** [Graph.island_has_cycle(root)] *)
Definition island_has_cycle `{SetIteration} (g : Graph) (root : Z)
    : option (res (bool * list Z)) :=
  island_loop g (island_fuel g) [[root]] ∅.

(** The [for node in range(self.N)] loop of [Graph.has_cycle]. *)
Fixpoint has_cycle_loop `{SetIteration} (g : Graph) (nodes : list Z) (visited : gset Z)
    : option (res bool) :=
  match nodes with
  | [] => Some (Ok false)
  | node :: nodes =>
      if decide (node ∈ visited) then has_cycle_loop g nodes visited
      else
        match island_has_cycle g node with
        | None => None
        | Some (Raise e) => Some (Raise e)
        | Some (Ok (true, _)) => Some (Ok true)
        | Some (Ok (false, connected)) =>
            has_cycle_loop g nodes (visited ∪ list_to_set connected)
        end
  end.

(** [Graph.has_cycle()] *)
Definition has_cycle `{SetIteration} (g : Graph) : option (res bool) :=
  has_cycle_loop g (range (N g)) ∅.

(** A closed directed walk with at least one arc. *)
Definition directed_cycle (g : Graph) : Prop :=
  ∃ x p, is_path (present 0 (matrix g)) x x p ∧ (2 ≤ length p)%nat.

End Ex04.

(** *** Invariant and measure of the cycle search *)

(** A path from [x] without a repeated node whose last node has an arc back
    into the path. *)
Definition cyclic_from (E : Z → Z → Prop) (x : Z) : Prop :=
  ∃ p u v, grown E x p u ∧ NoDup p ∧ E u v ∧ v ∈ p.

(** Fuel owed to the paths of the stack. *)
Definition path_measure (g : Graph) (S : list (list Z)) : nat :=
  sum_list ((λ p, budget (Z.to_nat (N g) - length p)) <$> S).

Record island_inv (g : Graph) (root : Z) (S : list (list Z)) (H : gset Z) : Prop := {
  island_paths : ∀ p, p ∈ S → ∃ u, grown (arc (neighbors g)) root p u ∧ NoDup p;
  island_history : ∀ v, v ∈ H → ∃ p, grown (arc (neighbors g)) root p v;
  island_complete : ∀ p u v, grown (arc (neighbors g)) root p u → NoDup p →
      arc (neighbors g) u v → v ∈ p → ∃ q, q ∈ S ∧ q `prefix_of` p
}.

(** ** ex05 and proj02: directed weighted graph *)

Module Weighted.

(** Body of the [for edge in arcs] loop of [Graph.__init__]; the two
    scripts have the same constructor. *)
Definition register_arc (N : Z) (st : list (list Z) * gmap Z (gset Z))
    (edge : list pyval) : res (list (list Z) * gmap Z (gset Z)) :=
  match edge with
  | [PInt a; PInt b; PInt w] =>
      let i := a - 1 in
      let j := b - 1 in
      if bool_decide (N ≤ i ∨ N ≤ j) then Raise ValueError
      else
        M ← setitem2 st.1 i j w;
        nb ← dict_add st.2 i j;
        Ok (M, nb)
  | _ => Raise TypeError
  end.

(** [Graph.__init__(N, arcs)] *)
Definition init (N : Z) (arcs : list (list pyval)) : res Graph :=
  st ← for_each (register_arc N) arcs (fresh_matrix N inf, fresh_neighbors N);
  Ok {| N := N; matrix := st.1; neighbors := st.2 |}.

(** The [for neighbor in self.neighbors[curr]] loop of both searches; a
    neighbour not in [history] is pushed at [priority w], where [w] is
    [self.matrix[curr][neighbor]]: Dijkstra adds the accumulated cost, Prim
    takes the weight as it is. *)
Definition push_neighbors (g : Graph) (curr : Z) (priority : Z → Z) (history : gset Z)
    (nodes : list Z) (to_analyze : list (Z * Z)) : res (list (Z * Z)) :=
  for_each (λ h neighbor,
    if decide (neighbor ∈ history) then Ok h
    else w ← getitem2 (matrix g) curr neighbor; Ok (heappush h (priority w, neighbor)))
    nodes to_analyze.

End Weighted.

Module Ex05.

(** The [while to_analyze] loop of [Graph.dijkstra]. *)
Fixpoint dijkstra_loop `{SetIteration} (g : Graph) (target : Z) (fuel : nat)
    (to_analyze : list (Z * Z)) (history : gset Z) : option (res Z) :=
  match to_analyze with
  | [] => Some (Ok inf)
  | _ =>
      match fuel with
      | O => None
      | S fuel =>
          match heappop to_analyze with
          | Raise e => Some (Raise e)
          | Ok ((cost, curr), to_analyze) =>
              if decide (curr = target) then Some (Ok cost)
              else
                let history := {[curr]} ∪ history in
                match dict_get (neighbors g) curr with
                | Raise e => Some (Raise e)
                | Ok s =>
                    match Weighted.push_neighbors g curr (λ w, w + cost) history (iter s) to_analyze with
                    | Raise e => Some (Raise e)
                    | Ok to_analyze => dijkstra_loop g target fuel to_analyze history
                    end
                end
          end
      end
  end.

(** A popped node is analysed again each time it is popped. *)
Definition dijkstra_fuel (g : Graph) : nat := budget (Z.to_nat (N g)).

(** [Graph.dijkstra(root, target)] *)
Definition dijkstra `{SetIteration} (g : Graph) (root target : Z) : option (res Z) :=
  if decide (root = target) then Some (Ok 0)
  else dijkstra_loop g target (dijkstra_fuel g) [(0, root)] ∅.

End Ex05.

Module Proj02.

(** The [while len(history) < self.N] loop of [Graph.prim]. *)
Fixpoint prim_loop `{SetIteration} (g : Graph) (fuel : nat)
    (to_analyze : list (Z * Z)) (history : gset Z) (acc_cost : Z) : option (res Z) :=
  if bool_decide (Z.of_nat (size history) < N g) then
    match fuel with
    | O => None
    | S fuel =>
        match heappop to_analyze with
        | Raise e => Some (Raise e)
        | Ok ((cost, curr), to_analyze) =>
            if decide (curr ∈ history) then prim_loop g fuel to_analyze history acc_cost
            else
              let acc_cost := acc_cost + cost in
              let history := {[curr]} ∪ history in
              match dict_get (neighbors g) curr with
              | Raise e => Some (Raise e)
              | Ok s =>
                  match Weighted.push_neighbors g curr (λ w, w) history (iter s) to_analyze with
                  | Raise e => Some (Raise e)
                  | Ok to_analyze => prim_loop g fuel to_analyze history acc_cost
                  end
              end
        end
    end
  else Some (Ok acc_cost).

Definition prim_fuel (g : Graph) : nat := S (S (pending g ∅ (range (N g)))).

(** [Graph.prim()] *)
Definition prim `{SetIteration} (g : Graph) : option (res Z) :=
  prim_loop g (prim_fuel g) [(0, 0)] ∅ 0.

(** The finalizations of a run, in order: the start node [0] at cost [0],
    then nodes attached by an arc from an earlier one at the weight of that
    arc. *)
Definition attaches (g : Graph) (fins : list (Z * Z)) : Prop :=
  ∀ k c v, fins !! k = Some (c, v) →
    (k = 0%nat ∧ c = 0 ∧ v = 0) ∨
    ∃ k' c' u, (k' < k)%nat ∧ fins !! k' = Some (c', u) ∧
               arc (neighbors g) u v ∧ c = weight g u v.

(** Sum of the popped costs of the finalizations. *)
Definition total_cost (fins : list (Z * Z)) : Z := foldr (λ x acc, x.1 + acc) 0 fins.

End Proj02.

(** *** Invariant and measure of the cost-ordered loops *)

(** Nodes of the graph not yet in [history]. *)
Definition unvisited (g : Graph) (H : gset Z) : nat :=
  size (list_to_set (range (N g)) ∖ H : gset Z).

(** Share of the fuel of Dijkstra's loop owed to one queued node. *)
Definition item_weight (g : Graph) (H : gset Z) (u : Z) : nat :=
  if decide (u ∈ H) then budget (unvisited g H) else budget (pred (unvisited g H)).

Definition heap_measure (g : Graph) (H : gset Z) (h : list (Z * Z)) : nat :=
  sum_list ((λ x, item_weight g H x.2) <$> h).

(** The queued nodes are nodes of the graph. *)
Definition nodes_in_range (g : Graph) (h : list (Z * Z)) : Prop :=
  ∀ x, x ∈ h → 0 ≤ x.2 < N g.

Record dijkstra_inv (g : Graph) (root target : Z) (h : list (Z * Z)) (H : gset Z) : Prop := {
  dj_entries : ∀ c u, (c, u) ∈ h →
      ∃ p, grown (arc (neighbors g)) root p u ∧ path_cost (weight g) p = c;
  dj_root : root ∈ H ∨ (0, root) ∈ h;
  dj_closed : ∀ u p v, u ∈ H → grown (arc (neighbors g)) root p u →
      arc (neighbors g) u v →
      v ∈ H ∨ ∃ c, (c, v) ∈ h ∧ c ≤ path_cost (weight g) p + weight g u v;
  dj_target : target ∉ H
}.

(** What Dijkstra's loop returns: [inf] when the target cannot be reached,
    the least cost of a path otherwise. *)
Definition dijkstra_post (E : Z → Z → Prop) (wt : Z → Z → Z) (root target r : Z) : Prop :=
  (r = inf ∧ ∀ w, ¬ grown E root w target) ∨
  (∃ p, grown E root p target ∧ path_cost wt p = r
        ∧ ∀ w, grown E root w target → r ≤ path_cost wt w).

(** *** Invariant of Prim's loop *)

Record prim_inv (g : Graph) (h : list (Z * Z)) (H : gset Z) (acc : Z)
    (fins : list (Z * Z)) : Prop := {
  prim_acc : acc = Proj02.total_cost fins;
  prim_hist : H = list_to_set fins.*2;
  prim_nodup : NoDup fins.*2;
  prim_trace : Proj02.attaches g fins;
  prim_entries : ∀ c v, (c, v) ∈ h →
      (fins = [] ∧ h = [(0, 0)]) ∨
      ∃ u, u ∈ H ∧ arc (neighbors g) u v ∧ c = weight g u v;
  prim_root : 0 ∈ H ∨ (0, 0) ∈ h;
  prim_closed : ∀ u v, u ∈ H → arc (neighbors g) u v → v ∈ H ∨ ∃ c, (c, v) ∈ h;
  prim_reach : ∀ v, v ∈ H → ∃ p, grown (arc (neighbors g)) 0 p v;
  prim_range : nodes_in_range g h
}.

(** What Prim's loop returns: the total cost of a run that finalizes every
    node once, all of them reachable from node 0, or the [IndexError] of
    popping the empty queue, some node not being reachable from node 0. *)
Definition prim_post (g : Graph) (r : res Z) : Prop :=
  (∃ fins, r = Ok (Proj02.total_cost fins) ∧ Proj02.attaches g fins ∧ NoDup fins.*2 ∧
           (∀ v, v ∈ fins.*2 ↔ 0 ≤ v < N g) ∧
           ∀ v, 0 ≤ v < N g → ∃ p, grown (arc (neighbors g)) 0 p v) ∨
  (r = Raise IndexError ∧ ∃ v, 0 ≤ v < N g ∧ ∀ p, ¬ grown (arc (neighbors g)) 0 p v).

(** ** ex01: Erdös-Renyi random graph *)

(** [x > y] on floats; the scripts only compare them. *)
Definition Qgt_bool (x y : Q) : bool := negb (Qle_bool x y).

(** [0 <= p <= 1] *)
Definition in_unit_interval (p : Q) : bool := Qle_bool 0 p && Qle_bool p 1.

(** Body of the two nested loops over [range(N)]:
    [M[i][j] = M[j][i] = int(random() > p) if i > j else M[i][j]].
    The state is the matrix and the number of draws taken from the random
    source so far; [random k] is the value of the [k]-th call of [random()]. *)
Definition draw_cell (p : Q) (random : nat → Q) (i j : Z) (st : list (list Z) * nat)
    : res (list (list Z) * nat) :=
  vk ← (if bool_decide (j < i)
        then Ok (if Qgt_bool (random st.2) p then 1 else 0, S st.2)
        else v ← getitem2 st.1 i j; Ok (v, st.2));
  M ← setitem2 st.1 i j vk.1;
  M ← setitem2 M j i vk.1;
  Ok (M, vk.2).

Definition erdos_renyi (N : Z) (p : Q) (random : nat → Q) : res (list (list Z)) :=
  st ← for_each (λ st i, for_each (λ st j, draw_cell p random i j st) (range N) st)
        (range N) (fresh_matrix N 0, 0%nat);
  Ok st.1.

Module Ex01.

Record Graph := {
  N : Z;
  p : Q;
  matrix : list (list Z)
}.

(** [Graph.__init__(N, p)] of [main.py] *)
Definition init (N : Z) (p : pyval) (random : nat → Q) : res Graph :=
  match p with
  | PFloat q =>
      if negb (in_unit_interval q) then Raise ValueError
      else M ← erdos_renyi N q random; Ok {| N := N; p := q; matrix := M |}
  | _ => Raise TypeError
  end.

(** Number of edges: the non-zero entries of the matrix. *)
Definition edge_count (g : Graph) : nat :=
  sum_list ((λ row, length (filter (λ x, x ≠ 0) row)) <$> matrix g).

(** Every pair of distinct nodes is joined and no node is joined to itself. *)
Definition complete (g : Graph) : Prop :=
  ∀ i j, 0 ≤ i < N g → 0 ≤ j < N g →
    cell (matrix g) i j = Some (if decide (i = j) then 0 else 1).

End Ex01.

(** ** ex01/ex2021: queries on the adjacency matrix *)

Module Ex2021.

Record Graph := {
  N : Z;
  p : pyval;
  matrix : list (list Z)
}.

(** [Graph.__init__(N, p=None, M=None)] *)
Definition init (N : Z) (p : pyval) (M : option (list (list Z))) (random : nat → Q)
    : res Graph :=
  match p with
  | PNone =>
      match M with
      | Some M =>
          if bool_decide (M = []) || bool_decide (Z.of_nat (length M) ≠ N)
             || existsb (λ row, bool_decide (Z.of_nat (length row) ≠ N)) M
          then Raise ValueError
          else Ok {| N := N; p := PNone; matrix := M |}
      | None => Raise ValueError
      end
  | PFloat q =>
      if negb (in_unit_interval q) then Raise ValueError
      else M ← erdos_renyi N q random; Ok {| N := N; p := p; matrix := M |}
  | PInt z =>
      if negb (bool_decide (0 ≤ z ≤ 1)) then Raise ValueError else Raise TypeError
  end.

(** [Graph.areAdjacent(i, j)]; the inner [None] is Python's. *)
Definition areAdjacent (g : Graph) (i j : Z) : res (option bool) :=
  if bool_decide (1 ≤ i ≤ N g ∧ 1 ≤ j ≤ N g) then
    a ← getitem2 (matrix g) (i - 1) (j - 1);
    if bool_decide (a ≠ 0) then Ok (Some true)
    else b ← getitem2 (matrix g) (j - 1) (i - 1); Ok (Some (bool_decide (b ≠ 0)))
  else Ok None.

End Ex2021.

(** ** The main programs and the remaining queries *)

(** [range(a, b)] *)
Definition range_from (a b : Z) : list Z := seqZ a (b - a).

(** One [for x in xs: body] loop whose body runs a search: the body may
    raise, or run out of fuel. *)
Fixpoint for_each_run {A St} (body : St → A → option (res St)) (xs : list A) (st : St)
    : option (res St) :=
  match xs with
  | [] => Some (Ok st)
  | x :: xs' =>
      match body st x with
      | Some (Ok st') => for_each_run body xs' st'
      | r => r
      end
  end.

Module Ex02_main.

(** The distance matrix of the main program of ex02:
    [distancies[i][j] = distancies[j][i] = len(graph.bfs(i, j)) - 1] for
    [i] in [range(N)] and [j] in [range(i + 1, N)]. *)
Definition distancies `{SetIteration} (g : Graph) : option (res (list (list Z))) :=
  for_each_run (λ D i,
    for_each_run (λ D j,
      match Ex02.bfs g i j with
      | Some (Ok p) =>
          Some (D ← setitem2 D i j (bfs_distance p); setitem2 D j i (bfs_distance p))
      | Some (Raise e) => Some (Raise e)
      | None => None
      end) (range_from (i + 1) (N g)) D)
    (range (N g)) (fresh_matrix (N g) 0).

End Ex02_main.

(** *** Records the directed constructors accept *)

(** Position a Python index in [[-n, n)] designates in a list of length [n]. *)
Definition wrap (n j : Z) : Z := if bool_decide (j < 0) then n + j else j.

(** The origin is a node identifier; the end may be any index of a row,
    the negative ones included. *)
Definition accepted_pair (N a b : Z) : bool := bool_decide (1 ≤ a ≤ N ∧ 1 - N ≤ b ≤ N).

Definition accepted_arc (N : Z) (e : list pyval) : bool :=
  match e with
  | [PInt a; PInt b; PInt _] => accepted_pair N a b
  | _ => false
  end.

Definition accepted_edge (N : Z) (e : list pyval) : bool :=
  match e with
  | [PInt a; PInt b] => accepted_pair N a b
  | _ => false
  end.

(** The record writes the cell [(u, v)] of the matrix. *)
Definition designates (N : Z) (e : list pyval) (u v : Z) : bool :=
  match e with
  | PInt a :: PInt b :: _ => bool_decide (a - 1 = u ∧ wrap N (b - 1) = v)
  | _ => false
  end.

(** Weight the records leave in the cell [(u, v)]: that of the last record
    that designates the cell, [inf] when none does. *)
Definition last_weight (N : Z) (arcs : list (list pyval)) (u v : Z) : Z :=
  foldl (λ acc e, match e with
                  | [_; _; PInt w] => if designates N e u v then w else acc
                  | _ => acc
                  end) inf arcs.

(** The two stores of a constructor between two records: an [N] by [N]
    matrix and one neighbour set per node. *)
Definition stores (n : Z) (st : list (list Z) * gmap Z (gset Z)) : Prop :=
  square n st.1 ∧ ∀ i, is_Some (st.2 !! i) ↔ 0 ≤ i < n.

Module Ex05_main.

(** The distance matrix of the main program of ex05:
    [distancies_matrix[i][j] = graph.dijkstra(i, j)] for [i] in
    [range(len(distancies_matrix))] and [j] in
    [range(len(distancies_matrix[0]))]. *)
Definition distancies_matrix `{SetIteration} (g : Graph) : option (res (list (list Z))) :=
  let D0 := fresh_matrix (N g) 0 in
  for_each_run (λ D i,
    match getitem D 0 with
    | Raise e => Some (Raise e)
    | Ok row0 =>
        for_each_run (λ D j,
          match Ex05.dijkstra g i j with
          | Some (Ok c) => Some (setitem2 D i j c)
          | Some (Raise e) => Some (Raise e)
          | None => None
          end) (range (Z.of_nat (length row0))) D
    end) (range (Z.of_nat (length D0))) D0.

End Ex05_main.

(** ** Reading a Pajek file *)

Module Pajek.

(** What [read_pajek] of ex03, ex04 and ex05 returns from the parsed
    records: [arcs.extend([tuple(reversed(arc)) for arc in arcs])] when the
    file announces [*Edges]. *)
Definition mirror_reversed (undirected : bool) (arcs : list (list pyval))
    : list (list pyval) :=
  if undirected then arcs ++ (reverse <$> arcs) else arcs.

(** The same step in proj01 and proj02, where the added record is the
    tuple of [reversed(arc[:2])] followed by [arc[2:]]. *)
Definition mirror_ends (undirected : bool) (arcs : list (list pyval))
    : list (list pyval) :=
  if undirected then arcs ++ ((λ arc, reverse (take 2 arc) ++ drop 2 arc) <$> arcs)
  else arcs.

End Pajek.

(** The weight of a weighted record is a node identifier. *)
Definition weight_is_node (N : Z) (e : list pyval) : bool :=
  match e with
  | [_; _; PInt w] => node_id N w
  | _ => true
  end.

(** ** ex03: depth-first traversal and islands *)

Module Ex03.

(** [Graph.__init__] of ex03 is that of ex04, line for line. *)
Definition init : Z → list (list pyval) → res Graph := Ex04.init.

(** The [while to_analyze] loop of [Graph.dft]. *)
Fixpoint dft_loop `{SetIteration} (g : Graph) (fuel : nat)
    (to_analyze : list Z) (history : gset Z) : option (res (list Z)) :=
  match to_analyze with
  | [] => Some (Ok (iter history))
  | _ =>
      match fuel with
      | O => None
      | S fuel =>
          match Ex04.pop to_analyze with
          | Raise e => Some (Raise e)
          | Ok (curr, to_analyze) =>
              if decide (curr ∈ history) then dft_loop g fuel to_analyze history
              else
                let history := {[curr]} ∪ history in
                match dict_get (neighbors g) curr with
                | Raise e => Some (Raise e)
                | Ok s =>
                    let adjacencies := filter (λ node, node ∉ history) (iter s) in
                    dft_loop g fuel (to_analyze ++ adjacencies) history
                end
          end
      end
  end.

(** Every iteration pops one node, and a node is pushed once per neighbour
    entry of an analysed node. *)
Definition dft_fuel (g : Graph) : nat := S (pending g ∅ (range (N g))).

(** [Graph.dft(root)] *)
Definition dft `{SetIteration} (g : Graph) (root : Z) : option (res (list Z)) :=
  dft_loop g (dft_fuel g) [root] ∅.

(** The [for node in range(n_nodes)] loop of the main program. *)
Fixpoint islands_loop `{SetIteration} (g : Graph) (nodes : list Z) (visited : gset Z)
    (islands : list Z) : option (res (list Z)) :=
  match nodes with
  | [] => Some (Ok islands)
  | node :: nodes =>
      if decide (node ∈ visited) then islands_loop g nodes visited islands
      else
        match dft g node with
        | None => None
        | Some (Raise e) => Some (Raise e)
        | Some (Ok connected) =>
            islands_loop g nodes (visited ∪ list_to_set connected)
              (islands ++ [Z.of_nat (length connected)])
        end
  end.

(** The list [islands] of the main program, before it is sorted. *)
Definition islands `{SetIteration} (g : Graph) (n_nodes : Z) : option (res (list Z)) :=
  islands_loop g (range n_nodes) ∅ [].

End Ex03.

(** [v] can be reached from [u] along arcs. *)
Definition reaches (g : Graph) (u v : Z) : Prop := ∃ p, grown (arc (neighbors g)) u p v.

Record dft_inv (g : Graph) (root : Z) (Q : list Z) (H : gset Z) : Prop := {
  dft_stack : ∀ v, v ∈ Q → reaches g root v;
  dft_history : ∀ v, v ∈ H → reaches g root v;
  dft_root : root ∈ H ∨ root ∈ Q;
  dft_closed : ∀ u v, u ∈ H → arc (neighbors g) u v → v ∈ H ∨ v ∈ Q
}.

(** The islands counted so far are whole and apart from one another. *)
Record islands_inv (g : Graph) (V : gset Z) (L : list Z) : Prop := {
  isl_sum : foldr Z.add 0 L = Z.of_nat (size V);
  isl_range : ∀ v, v ∈ V → 0 ≤ v < N g;
  isl_closed : ∀ u v, u ∈ V → reaches g u v → v ∈ V;
  isl_sizes : Forall (λ x, 1 ≤ x) L
}.

(** ** The random builder, draw by draw *)

(** Rank of the call of [random()] that decides the cell [(i, j)] below the
    diagonal: the rows are visited in order and row [i] takes [i] draws. *)
Definition draw_rank (i j : Z) : nat := Z.to_nat (i * (i - 1) / 2 + j).

(** [int(random() > p)] for the draw of rank [k]. *)
Definition coin (p : Q) (random : nat → Q) (k : nat) : Z :=
  if Qgt_bool (random k) p then 1 else 0.

(** ** ex01/ex2021: the other queries *)

From Stdlib Require Import Sorted.

Module Ex2021_queries.

(** [Graph.hasEdge()]: the first row with an entry above zero answers
    [True]. *)
Definition hasEdge (g : Ex2021.Graph) : bool :=
  existsb (λ row, existsb (λ x, bool_decide (0 < x)) row) (Ex2021.matrix g).

(** [Graph.getVertexDegree(vertexPosition)]; the inner [None] is Python's. *)
Definition getVertexDegree (g : Ex2021.Graph) (vertexPosition : Z) : res (option Z) :=
  if bool_decide (1 ≤ vertexPosition ≤ Ex2021.N g) then
    row ← getitem (Ex2021.matrix g) (vertexPosition - 1);
    Ok (Some (foldl (λ acc cur, acc + cur) 0 row))
  else Ok None.

(** The list [[vertex + 1 if isAdjacent else None for vertex, isAdjacent in
    enumerate(row)]], offset by [first]. *)
Definition marked (first : Z) (row : list Z) : list (option Z) :=
  imap (λ vertex isAdjacent,
          if bool_decide (isAdjacent ≠ 0) then Some (Z.of_nat vertex + first) else None) row.

(** [Graph.getAdjacentVertices(vertexPosition)] *)
Definition getAdjacentVertices (g : Ex2021.Graph) (vertexPosition : Z)
    : res (option (list Z)) :=
  if bool_decide (1 ≤ vertexPosition ≤ Ex2021.N g) then
    row ← getitem (Ex2021.matrix g) (vertexPosition - 1);
    Ok (Some (omap id (marked 1 row)))
  else Ok None.

End Ex2021_queries.

(** ** proj01: the node to take out *)

Module Proj01.

(** [Graph.__init__] of proj01 is that of ex04, line for line. *)
Definition init : Z → list (list pyval) → res Graph := Ex04.init.

(** [targets = set([3, 4, 5, 6, 7, 8, 9, 10])] *)
Definition targets : gset Z := list_to_set [3; 4; 5; 6; 7; 8; 9; 10].

(** The [for target in targets] loop of the main program: the printed
    target, or [None] when the loop ends without printing. *)
Fixpoint search `{SetIteration} (g : Graph) (ts : list Z) : res (option Z) :=
  match ts with
  | [] => Ok None
  | target :: ts =>
      nb ← dict_get (neighbors g) (target - 1);
      if bool_decide (1 < Z.of_nat (length (filter (λ n, n + 1 ∈ targets) (iter nb))))
      then Ok (Some target)
      else search g ts
  end.

Definition main `{SetIteration} (g : Graph) : res (option Z) := search g (iter targets).

(** Two different nodes of [targets] are neighbours of the target. *)
Definition crowded (g : Graph) (target : Z) : Prop :=
  ∃ u v, u ≠ v ∧ arc (neighbors g) (target - 1) u ∧ arc (neighbors g) (target - 1) v ∧
         u + 1 ∈ targets ∧ v + 1 ∈ targets.

End Proj01.

(** ** proj02: the tree Prim's loop grows *)

(** The edge list [T] joins [a] and [b], in one direction or the other. *)
Definition joins (T : list (Z * Z)) (a b : Z) : Prop := (a, b) ∈ T ∨ (b, a) ∈ T.

(** Sum of the weights of the edges of [T]. *)
Definition tree_weight (g : Graph) (T : list (Z * Z)) : Z :=
  foldr (λ e acc, weight g e.1 e.2 + acc) 0 T.

(** [T] connects every node to node 0 with arcs of the graph. *)
Definition connects (g : Graph) (T : list (Z * Z)) : Prop :=
  (∀ u v, (u, v) ∈ T → arc (neighbors g) u v) ∧
  (∀ v, 0 ≤ v < N g → ∃ p, grown (joins T) 0 p v).

(** A spanning tree: [N - 1] arcs that connect every node to node 0. *)
Definition spanning_tree (g : Graph) (T : list (Z * Z)) : Prop :=
  Z.of_nat (length T) = N g - 1 ∧ connects g T.

(** Each finalization takes a lightest arc among those that leave the set
    of the nodes finalized before it. *)
Definition greedy (g : Graph) (fins : list (Z * Z)) : Prop :=
  ∀ k c v, fins !! k = Some (c, v) →
    ∀ u' v', u' ∈ (take k fins).*2 → v' ∉ (take k fins).*2 →
      arc (neighbors g) u' v' → c ≤ weight g u' v'.

(** The queue holds, with its weight, every arc that leaves the set of the
    finalized nodes. *)
Definition exact_frontier (g : Graph) (h : list (Z * Z)) (H : gset Z) : Prop :=
  ∀ u v, u ∈ H → arc (neighbors g) u v → v ∈ H ∨ (weight g u v, v) ∈ h.

(** The edges by which the finalizations after the first attach their node:
    edge [k] attaches the node of finalization [k + 1] to a node finalized
    before it, at the popped cost. *)
Definition attaching (g : Graph) (fins : list (Z * Z)) (G : list (Z * Z)) : Prop :=
  S (length G) = length fins ∧
  ∀ k u v, G !! k = Some (u, v) →
    fins !! S k = Some (weight g u v, v) ∧ u ∈ (take (S k) fins).*2 ∧ arc (neighbors g) u v.
(** * Proofs *)

(** ** Lists, matrices and dictionaries *)

Lemma py_index_nonneg len i :
  0 ≤ i < Z.of_nat len → py_index len i = Some (Z.to_nat i).
Proof. intros Hi. unfold py_index. by rewrite bool_decide_eq_true_2. Qed.

Lemma setitem2_cell M n i j v :
  square n M → 0 ≤ i < n → 0 ≤ j < n →
  ∃ M', setitem2 M i j v = Ok M' ∧ square n M' ∧
        ∀ a b, cell M' a b = if decide (a = i ∧ b = j) then Some v else cell M a b.
Proof.
  intros [Hlen Hrows] Hi Hj. unfold setitem2, getitem, setitem.
  rewrite py_index_nonneg by lia.
  destruct (lookup_lt_is_Some_2 M (Z.to_nat i)) as [row Hrow]; [lia|].
  rewrite Hrow. cbn.
  assert (length row = Z.to_nat n) as Hr.
  { eapply (proj1 (Forall_lookup _ _) Hrows); eauto. }
  rewrite py_index_nonneg by lia. cbn.
  eexists; split; [done|]. split.
  - split; [by rewrite length_insert|].
    apply Forall_insert; [done|]. by rewrite length_insert.
  - intros a b. unfold cell. case_bool_decide as Hab; [|by case_decide; [lia|]].
    destruct (decide (Z.to_nat a = Z.to_nat i)) as [Ha|Ha].
    + rewrite Ha, list_lookup_insert_eq by lia. rewrite Hrow. cbn.
      destruct (decide (Z.to_nat b = Z.to_nat j)) as [Hb|Hb].
      * rewrite Hb, list_lookup_insert_eq by lia.
        rewrite decide_True by lia. done.
      * rewrite list_lookup_insert_ne by lia.
        rewrite decide_False by lia. done.
    + rewrite list_lookup_insert_ne by lia. rewrite decide_False by lia. done.
Qed.

Lemma dict_add_Ok nb k x nb' :
  dict_add nb k x = Ok nb' ↔ ∃ s, nb !! k = Some s ∧ nb' = <[k := {[x]} ∪ s]> nb.
Proof.
  unfold dict_add, dict_get. destruct (nb !! k) as [s|]; cbn.
  - split; [intros [= <-]; eauto | intros (s' & [= <-] & ->); done].
  - split; [done | intros (s' & [=] & _)].
Qed.

Lemma fresh_neighbors_lookup n i :
  fresh_neighbors n !! i = if decide (0 ≤ i < n) then Some ∅ else None.
Proof.
  unfold fresh_neighbors, range.
  assert (∀ l : list Z,
    (list_to_map ((λ i, (i, ∅)) <$> l) : gmap Z (gset Z)) !! i
    = if decide (i ∈ l) then Some ∅ else None) as Hgen.
  { induction l as [|a l IH]; cbn.
    - rewrite lookup_empty. by rewrite decide_False by set_solver.
    - destruct (decide (a = i)) as [->|Hne].
      + rewrite lookup_insert_eq. by rewrite decide_True by set_solver.
      + rewrite lookup_insert_ne by done. rewrite IH.
        destruct (decide (i ∈ l)) as [Hl|Hl].
        * by rewrite decide_True by set_solver.
        * by rewrite decide_False by set_solver. }
  rewrite Hgen.
  destruct (decide (i ∈ seqZ 0 n)) as [Hin|Hin]; rewrite elem_of_seqZ in Hin;
    case_decide; try done; lia.
Qed.

Lemma fresh_cell n v i j :
  cell (fresh_matrix n v) i j = if decide (0 ≤ i < n ∧ 0 ≤ j < n) then Some v else None.
Proof.
  unfold cell, fresh_matrix. case_bool_decide; [|by rewrite decide_False by lia].
  destruct (decide (Z.to_nat i < Z.to_nat n)%nat) as [Hi|Hi].
  - rewrite lookup_replicate_2 by done. cbn.
    destruct (decide (Z.to_nat j < Z.to_nat n)%nat) as [Hj|Hj].
    + rewrite lookup_replicate_2 by done. by rewrite decide_True by lia.
    + rewrite (proj1 (lookup_replicate_None _ _ _)) by lia. by rewrite decide_False by lia.
  - rewrite (proj1 (lookup_replicate_None _ _ _)) by lia. cbn. by rewrite decide_False by lia.
Qed.

Lemma fresh_square n v : square n (fresh_matrix n v).
Proof.
  unfold square, fresh_matrix. split; [by rewrite length_replicate|].
  apply Forall_replicate. by rewrite length_replicate.
Qed.

Lemma fresh_consistent absent n :
  consistent absent n (fresh_matrix n absent) (fresh_neighbors n).
Proof.
  split; [apply fresh_square|]. split.
  - intros i. rewrite fresh_neighbors_lookup.
    case_decide; split; eauto; intros Hi; try done; by destruct Hi.
  - intros i s. rewrite fresh_neighbors_lookup. case_decide; [|done].
    intros [= <-] j. split; [set_solver|].
    intros [Hj (x & Hx & Hne)]. rewrite fresh_cell in Hx.
    case_decide; naive_solver.
Qed.

(** Registering one in-range arc keeps both stores in step. *)
Lemma register_consistent absent n M nb i j v :
  consistent absent n M nb → 0 ≤ i < n → 0 ≤ j < n → v ≠ absent →
  ∃ M' nb', setitem2 M i j v = Ok M' ∧ dict_add nb i j = Ok nb' ∧
            consistent absent n M' nb'.
Proof.
  intros (Hsq & Hkeys & Hnb) Hi Hj Hv.
  destruct (setitem2_cell M n i j v Hsq Hi Hj) as (M' & HM' & Hsq' & Hcell).
  destruct (proj2 (Hkeys i) Hi) as [s Hs].
  exists M', (<[i := {[j]} ∪ s]> nb). split; [done|]. split.
  { apply dict_add_Ok; eauto. }
  split; [done|]. split.
  - intros a. rewrite lookup_insert. case_decide; subst.
    + split; [done | eauto].
    + apply Hkeys.
  - intros a sa. rewrite lookup_insert. case_decide as Ha; subst.
    + intros [= <-] b. unfold present. rewrite elem_of_union, elem_of_singleton.
      rewrite (Hnb _ _ Hs b). unfold present. split.
      * intros [->|[Hb (x & Hx & Hne)]].
        { split; [done|]. exists v. rewrite Hcell. by rewrite decide_True. }
        split; [done|]. rewrite Hcell. case_decide; eauto.
      * intros [Hb (x & Hx & Hne)]. rewrite Hcell in Hx.
        case_decide; [left; lia | right; eauto].
    + intros Hsa b. rewrite (Hnb _ _ Hsa b). unfold present.
      rewrite Hcell. by rewrite decide_False by lia.
Qed.

Lemma consistent_wf absent g :
  consistent absent (N g) (matrix g) (neighbors g) → wf_graph g.
Proof.
  intros (_ & Hkeys & Hnb). split; [done|].
  intros u v (s & Hs & Hv). by apply (Hnb _ _ Hs v).
Qed.

(** A loop whose body keeps [Inv] on the items satisfying [P] returns. *)
Lemma for_each_invariant {A S} (body : S → A → res S) (Inv : S → Prop) (P : A → Prop) xs st :
  (∀ st x, Inv st → P x → ∃ st', body st x = Ok st' ∧ Inv st') →
  Inv st → Forall P xs → ∃ st', for_each body xs st = Ok st' ∧ Inv st'.
Proof.
  intros Hbody. revert st. induction xs as [|x xs IH]; intros st Hst HP; cbn.
  - eauto.
  - apply Forall_cons in HP as [Hx HP].
    destruct (Hbody st x Hst Hx) as (st' & -> & Hst'). cbn. by apply IH.
Qed.

(** A loop that returns has run a body that returned on every item. *)
Lemma for_each_Ok_inv {A S} (body : S → A → res S) (Inv : S → Prop) (P : A → Prop) xs st st' :
  (∀ st x st', Inv st → body st x = Ok st' → P x ∧ Inv st') →
  Inv st → for_each body xs st = Ok st' → Forall P xs ∧ Inv st'.
Proof.
  intros Hbody. revert st. induction xs as [|x xs IH]; intros st Hst; cbn.
  - intros [= <-]. eauto.
  - destruct (body st x) as [st1|e] eqn:Hb; cbn; [|done].
    intros Hrun. destruct (Hbody _ _ _ Hst Hb) as [Hx Hst1].
    destruct (IH _ Hst1 Hrun). split; [by constructor | done].
Qed.

(** A loop stops at the first item whose body raises. *)
Lemma for_each_raise {A S} (body : S → A → res S) (Inv : S → Prop) (P R : A → Prop)
    (E : exn → Prop) xs st :
  (∀ st x, Inv st → P x → ∃ st', body st x = Ok st' ∧ Inv st') →
  (∀ st x, R x → ∃ e, body st x = Raise e ∧ E e) →
  Inv st → Forall (λ x, P x ∨ R x) xs → Exists R xs →
  ∃ e, for_each body xs st = Raise e ∧ E e.
Proof.
  intros HP HR. revert st. induction xs as [|x xs IH]; intros st Hst Hall Hex.
  - by apply Exists_nil in Hex.
  - apply Forall_cons in Hall as [Hx Hall]. cbn.
    destruct Hx as [Hx|Hx].
    + destruct (HP _ _ Hst Hx) as (st' & -> & Hst'). cbn.
      apply Exists_cons in Hex as [Hex|Hex]; [|by apply IH].
      destruct (HR st x Hex) as (e & He & _).
      destruct (HP _ _ Hst Hx) as (? & ? & _). congruence.
    + destruct (HR st x Hx) as (e & -> & He). cbn. eauto.
Qed.

(** ** Constructors *)

Lemma present_in_range absent n M i j :
  square n M → present absent M i j → 0 ≤ i < n ∧ 0 ≤ j < n.
Proof.
  intros [Hlen Hrows] (x & Hx & _). unfold cell in Hx.
  case_bool_decide as Hij; [|done].
  destruct (M !! Z.to_nat i) as [row|] eqn:Hrow; [|done]. cbn in Hx.
  apply lookup_lt_Some in Hx.
  assert (length row = Z.to_nat n) as Hr.
  { eapply (proj1 (Forall_lookup _ _) Hrows); eauto. }
  apply lookup_lt_Some in Hrow. lia.
Qed.

Section unweighted_undirected.
Variable n : Z.

Lemma register_edge_valid st e :
  consistent_state 0 n st → valid_edge n e → ∃ st', Ex02.register_edge n st e = Ok st' ∧ consistent_state 0 n st'.
Proof.
  intros Hst He. destruct e as [|[a| |] [|[b| |] [|]]]; try done.
  cbn in He. apply andb_True in He as [Ha Hb].
  unfold node_id in Ha, Hb. apply bool_decide_unpack in Ha, Hb.
  unfold Ex02.register_edge. rewrite bool_decide_eq_false_2 by lia.
  destruct (register_consistent 0 n st.1 st.2 (a - 1) (b - 1) 1 Hst)
    as (M1 & nb1 & -> & Hnb1 & H1); [lia..|].
  destruct (register_consistent 0 n M1 nb1 (b - 1) (a - 1) 1 H1)
    as (M2 & nb2 & HM2 & Hnb2 & H2); [lia..|].
  cbn. rewrite HM2. cbn. rewrite Hnb1. cbn. rewrite Hnb2. cbn. eauto.
Qed.

Lemma register_edge_refused st e :
  refused_edge n e → ∃ x, Ex02.register_edge n st e = Raise x ∧ invalid_argument x.
Proof.
  intros He. unfold invalid_argument.
  destruct e as [|[a| |] [|[b| |] [|]]]; cbn; eauto.
  cbn in He. apply bool_decide_unpack in He.
  rewrite bool_decide_eq_true_2 by lia. eauto.
Qed.

Lemma register_edge_Ok st e st' :
  consistent_state 0 n st → Ex02.register_edge n st e = Ok st' → valid_edge n e ∧ consistent_state 0 n st'.
Proof.
  intros Hst Hrun.
  assert (valid_edge n e) as He.
  { destruct e as [|[a| |] [|[b| |] [|]]]; try done.
    unfold Ex02.register_edge in Hrun. case_bool_decide as Hup; [done|].
    destruct (setitem2 st.1 (a - 1) (b - 1) 1) as [M1|]; [|done]. cbn in Hrun.
    destruct (setitem2 M1 (b - 1) (a - 1) 1) as [M2|]; [|done]. cbn in Hrun.
    destruct (dict_add st.2 (a - 1) (b - 1)) as [nb1|] eqn:Hnb1; [|done].
    cbn in Hrun.
    destruct (dict_add nb1 (b - 1) (a - 1)) as [nb2|] eqn:Hnb2; [|done].
    apply dict_add_Ok in Hnb1 as (s1 & Hs1 & ->).
    apply dict_add_Ok in Hnb2 as (s2 & Hs2 & _).
    destruct Hst as (_ & Hkeys & _).
    assert (0 ≤ a - 1 < n) by (apply Hkeys; eauto).
    assert (0 ≤ b - 1 < n).
    { rewrite lookup_insert in Hs2. case_decide; [lia|]. apply Hkeys; eauto. }
    cbn. unfold node_id. apply andb_True. split; apply bool_decide_pack; lia. }
  split; [done|].
  destruct (register_edge_valid st e Hst He) as (st1 & Hst1 & Hinv). congruence.
Qed.
End unweighted_undirected.

Section unweighted_directed.
Variable n : Z.

Lemma register_arc_valid st e :
  consistent_state 0 n st → valid_edge n e → ∃ st', Ex04.register_arc n st e = Ok st' ∧ consistent_state 0 n st'.
Proof.
  intros Hst He. destruct e as [|[a| |] [|[b| |] [|]]]; try done.
  cbn in He. apply andb_True in He as [Ha Hb].
  unfold node_id in Ha, Hb. apply bool_decide_unpack in Ha, Hb.
  unfold Ex04.register_arc. rewrite bool_decide_eq_false_2 by lia.
  destruct (register_consistent 0 n st.1 st.2 (a - 1) (b - 1) 1 Hst)
    as (M1 & nb1 & -> & -> & H1); [lia..|].
  cbn. eauto.
Qed.
End unweighted_directed.

Section weighted.
Variable n : Z.

Lemma weighted_register_valid st e :
  consistent_state inf n st → valid_arc n e ∧ finite_arc e →
  ∃ st', Weighted.register_arc n st e = Ok st' ∧ consistent_state inf n st'.
Proof.
  intros Hst [He Hw]. destruct e as [|[a| |] [|[b| |] [|[w| |] [|]]]]; try done.
  cbn in He, Hw. apply andb_True in He as [Ha Hb].
  unfold node_id in Ha, Hb. apply bool_decide_unpack in Ha, Hb, Hw.
  unfold Weighted.register_arc. rewrite bool_decide_eq_false_2 by lia.
  destruct (register_consistent inf n st.1 st.2 (a - 1) (b - 1) w Hst)
    as (M1 & nb1 & -> & -> & H1); [lia..|done|].
  cbn. eauto.
Qed.

(** Without the condition on the weight the matrix stays square and the
    constructor still returns. *)
Lemma weighted_register_returns st e :
  square n st.1 ∧ (∀ i, is_Some (st.2 !! i) ↔ 0 ≤ i < n) → valid_arc n e →
  ∃ st', Weighted.register_arc n st e = Ok st' ∧
         square n st'.1 ∧ (∀ i, is_Some (st'.2 !! i) ↔ 0 ≤ i < n).
Proof.
  intros [Hsq Hkeys] He. destruct e as [|[a| |] [|[b| |] [|[w| |] [|]]]]; try done.
  cbn in He. apply andb_True in He as [Ha Hb].
  unfold node_id in Ha, Hb. apply bool_decide_unpack in Ha, Hb.
  unfold Weighted.register_arc. rewrite bool_decide_eq_false_2 by lia.
  destruct (setitem2_cell st.1 n (a - 1) (b - 1) w Hsq) as (M' & -> & Hsq' & _);
    [lia..|].
  destruct (proj2 (Hkeys (a - 1))) as [s Hs]; [lia|].
  cbn. unfold dict_add, dict_get. rewrite Hs. cbn.
  eexists; split; [done|]. split; [done|]. cbn.
  intros i. rewrite lookup_insert. case_decide; subst; [|apply Hkeys].
  split; [intros _; lia | eauto].
Qed.

Lemma weighted_register_refused st e :
  refused_arc n e → ∃ x, Weighted.register_arc n st e = Raise x ∧ invalid_argument x.
Proof.
  intros He. unfold invalid_argument.
  destruct e as [|[a| |] [|[b| |] [|[w| |] [|]]]]; cbn; eauto.
  cbn in He. apply bool_decide_unpack in He.
  rewrite bool_decide_eq_true_2 by lia. eauto.
Qed.
End weighted.

Lemma ex02_init_valid n edges :
  Forall (λ e, valid_edge n e) edges →
  ∃ g, Ex02.init n edges = Ok g ∧ N g = n ∧ consistent 0 n (matrix g) (neighbors g).
Proof.
  intros Hall. unfold Ex02.init.
  destruct (for_each_invariant (Ex02.register_edge n) (consistent_state 0 n)
              (λ e, valid_edge n e) edges (fresh_matrix n 0, fresh_neighbors n))
    as (st & -> & Hst); [apply register_edge_valid | apply fresh_consistent | done |].
  cbn. eauto.
Qed.

Lemma ex02_init_Ok n edges g :
  Ex02.init n edges = Ok g →
  Forall (λ e, valid_edge n e) edges ∧ N g = n ∧ consistent 0 n (matrix g) (neighbors g).
Proof.
  unfold Ex02.init.
  destruct (for_each _ edges _) as [st|] eqn:Hrun; [|done]. cbn. intros [= <-]. cbn.
  destruct (for_each_Ok_inv (Ex02.register_edge n) (consistent_state 0 n)
              (λ e, valid_edge n e) edges
              (fresh_matrix n 0, fresh_neighbors n) st) as [Hall Hst];
    [apply register_edge_Ok | apply fresh_consistent | done | done].
Qed.

Lemma ex04_init_valid n arcs :
  Forall (λ e, valid_edge n e) arcs →
  ∃ g, Ex04.init n arcs = Ok g ∧ N g = n ∧ consistent 0 n (matrix g) (neighbors g).
Proof.
  intros Hall. unfold Ex04.init.
  destruct (for_each_invariant (Ex04.register_arc n) (consistent_state 0 n)
              (λ e, valid_edge n e) arcs (fresh_matrix n 0, fresh_neighbors n))
    as (st & -> & Hst); [apply register_arc_valid | apply fresh_consistent | done |].
  cbn. eauto.
Qed.

Lemma weighted_init_valid n arcs :
  Forall (λ e, valid_arc n e ∧ finite_arc e) arcs →
  ∃ g, Weighted.init n arcs = Ok g ∧ N g = n ∧ consistent inf n (matrix g) (neighbors g).
Proof.
  intros Hall. unfold Weighted.init.
  destruct (for_each_invariant (Weighted.register_arc n) (consistent_state inf n)
              (λ e, valid_arc n e ∧ finite_arc e) arcs (fresh_matrix n inf, fresh_neighbors n))
    as (st & -> & Hst);
    [apply weighted_register_valid | apply fresh_consistent | done |].
  cbn. eauto.
Qed.

Lemma weighted_init_returns n arcs :
  Forall (λ e, valid_arc n e) arcs → ∃ g, Weighted.init n arcs = Ok g.
Proof.
  intros Hall. unfold Weighted.init.
  destruct (for_each_invariant (Weighted.register_arc n)
              (λ st, square n st.1 ∧ (∀ i, is_Some (st.2 !! i) ↔ 0 ≤ i < n))
              (λ e, valid_arc n e) arcs (fresh_matrix n inf, fresh_neighbors n))
    as (st & -> & Hst); [apply weighted_register_returns | | done |].
  - destruct (fresh_consistent inf n) as (? & ? & _). done.
  - cbn. eauto.
Qed.

(** C5 (as amended).  Both edge-list constructors return a graph when every
    record has the expected fields and identifiers in [1, N], and raise
    [TypeError] or [ValueError] when some record has the wrong arity, a
    non-integer field or an identifier above [N] and the others are valid. *)
Theorem construction_outcome (n : Z) (edges : list (list pyval)) :
  (Forall (λ e, valid_edge n e) edges → ∃ g, Ex02.init n edges = Ok g) ∧
  (Forall (λ e, valid_edge n e ∨ refused_edge n e) edges →
   Exists (λ e, refused_edge n e) edges →
   ∃ x, Ex02.init n edges = Raise x ∧ invalid_argument x) ∧
  (Forall (λ e, valid_arc n e) edges → ∃ g, Weighted.init n edges = Ok g) ∧
  (Forall (λ e, valid_arc n e ∨ refused_arc n e) edges →
   Exists (λ e, refused_arc n e) edges →
   ∃ x, Weighted.init n edges = Raise x ∧ invalid_argument x).
Proof.
  repeat split.
  - intros Hall. destruct (ex02_init_valid n edges Hall) as (g & ? & _). eauto.
  - intros Hall Hex. unfold Ex02.init.
    destruct (for_each_raise (Ex02.register_edge n) (consistent_state 0 n)
                (λ e, valid_edge n e) (λ e, refused_edge n e) invalid_argument edges
                (fresh_matrix n 0, fresh_neighbors n)) as (x & -> & Hx);
      [apply register_edge_valid | intros; by apply register_edge_refused
      | apply fresh_consistent | done | done |].
    cbn. eauto.
  - apply weighted_init_returns.
  - intros Hall Hex. unfold Weighted.init.
    destruct (for_each_raise (Weighted.register_arc n)
                (λ st, square n st.1 ∧ (∀ i, is_Some (st.2 !! i) ↔ 0 ≤ i < n))
                (λ e, valid_arc n e) (λ e, refused_arc n e) invalid_argument edges
                (fresh_matrix n inf, fresh_neighbors n)) as (x & -> & Hx);
      [apply weighted_register_returns | intros; by apply weighted_register_refused
      | | done | done |].
    + destruct (fresh_consistent inf n) as (? & ? & _). done.
    + cbn. eauto.
Qed.

Lemma construction_outcome_witness :
  (∃ g, Ex02.init 3 [[PInt 1; PInt 2]; [PInt 2; PInt 3]] = Ok g) ∧
  (∃ x, Ex02.init 3 [[PInt 1; PInt 2]; [PInt 2; PInt 4]] = Raise x ∧ invalid_argument x) ∧
  (∃ g, Weighted.init 3 [[PInt 1; PInt 2; PInt 5]; [PInt 2; PInt 3; PInt 7]] = Ok g) ∧
  (∃ x, Weighted.init 3 [[PInt 1; PInt 2; PInt 5]; [PInt 2; PInt 3]] = Raise x
        ∧ invalid_argument x).
Proof.
  repeat split.
  - apply (construction_outcome 3 [[PInt 1; PInt 2]; [PInt 2; PInt 3]]).
    repeat constructor.
  - apply (construction_outcome 3 [[PInt 1; PInt 2]; [PInt 2; PInt 4]]).
    + repeat constructor; vm_compute; tauto.
    + apply Exists_cons_tl, Exists_cons_hd. vm_compute. exact I.
  - apply (construction_outcome 3 [[PInt 1; PInt 2; PInt 5]; [PInt 2; PInt 3; PInt 7]]).
    repeat constructor.
  - apply (construction_outcome 3 [[PInt 1; PInt 2; PInt 5]; [PInt 2; PInt 3]]).
    + repeat constructor; vm_compute; tauto.
    + apply Exists_cons_tl, Exists_cons_hd. vm_compute. exact I.
Defined.

(** C5 as stated fails: a node count that is not positive is accepted. *)
Lemma construction_accepts_zero_nodes :
  Ex02.init 0 [] = Ok {| N := 0; matrix := []; neighbors := ∅ |} ∧
  Weighted.init (-1) [] = Ok {| N := -1; matrix := []; neighbors := ∅ |}.
Proof. split; reflexivity. Qed.

(** The weighted constructor also accepts an identifier below 1: the matrix
    row is indexed from its end and the neighbour set receives [-1]. *)
Lemma weighted_accepts_low_identifier :
  ∃ g, Weighted.init 2 [[PInt 1; PInt 0; PInt 5]] = Ok g ∧
       matrix g = [[inf; 5]; [inf; inf]] ∧ neighbors g !! 0 = Some {[ -1 ]}.
Proof. eexists. split; [reflexivity|]. split; reflexivity. Qed.

(** The unweighted constructor of ex02 fails on such a record, with the
    [KeyError] of the dictionary. *)
Lemma ex02_low_identifier : Ex02.init 2 [[PInt 0; PInt 1]] = Raise KeyError.
Proof. reflexivity. Qed.

(** C6 (as amended).  After the unweighted constructor returns, and after the
    weighted constructor is given identifiers in [1, N] and weights other
    than [inf], the neighbour set of every node is the set of columns whose
    matrix entry is present. *)
Theorem neighbors_match_matrix (n : Z) (edges : list (list pyval)) (g : Graph) (i : Z) :
  0 ≤ i < n →
  (Ex02.init n edges = Ok g →
   ∃ s, neighbors g !! i = Some s ∧ ∀ j, j ∈ s ↔ present 0 (matrix g) i j) ∧
  (Forall (λ e, valid_arc n e ∧ finite_arc e) edges → Weighted.init n edges = Ok g →
   ∃ s, neighbors g !! i = Some s ∧ ∀ j, j ∈ s ↔ present inf (matrix g) i j).
Proof.
  intros Hi. split.
  - intros Hg. apply ex02_init_Ok in Hg as (_ & _ & Hsq & Hkeys & Hnb).
    destruct (proj2 (Hkeys i) Hi) as [s Hs]. exists s. split; [done|].
    intros j. rewrite (Hnb _ _ Hs j). split; [tauto|].
    intros Hp. split; [|done]. eapply present_in_range; eauto.
  - intros Hall Hg. destruct (weighted_init_valid n edges Hall) as (g' & Hg' & _ & Hc).
    assert (g' = g) as -> by congruence. destruct Hc as (Hsq & Hkeys & Hnb).
    destruct (proj2 (Hkeys i) Hi) as [s Hs]. exists s. split; [done|].
    intros j. rewrite (Hnb _ _ Hs j). split; [tauto|].
    intros Hp. split; [|done]. eapply present_in_range; eauto.
Qed.

Lemma neighbors_match_matrix_witness :
  ∃ g, Ex02.init 3 [[PInt 1; PInt 2]; [PInt 2; PInt 3]] = Ok g ∧
       ∃ s, neighbors g !! 1 = Some s ∧ ∀ j, j ∈ s ↔ present 0 (matrix g) 1 j.
Proof.
  eexists. split; [vm_compute; reflexivity|].
  apply (neighbors_match_matrix 3 [[PInt 1; PInt 2]; [PInt 2; PInt 3]] _ 1); [lia|].
  vm_compute. reflexivity.
Defined.

(** C6 as stated fails for the weighted constructor: a weight equal to [inf]
    puts a node in the neighbour set whose matrix entry reads as absent, and
    an identifier below 1 puts [-1] in the set while the entry of the last
    column is present. *)
Lemma neighbors_differ_from_matrix :
  (∃ g s, Weighted.init 2 [[PInt 1; PInt 2; PInt inf]] = Ok g ∧
          neighbors g !! 0 = Some s ∧ 1 ∈ s ∧ ¬ present inf (matrix g) 0 1) ∧
  (∃ g s, Weighted.init 2 [[PInt 1; PInt 0; PInt 5]] = Ok g ∧
          neighbors g !! 0 = Some s ∧ (1 ∉ s) ∧ present inf (matrix g) 0 1).
Proof.
  split.
  - eexists _, _. split; [vm_compute; reflexivity|].
    split; [vm_compute; reflexivity|]. split.
    + compute_done.
    + intros (x & Hx & Hne). vm_compute in Hx. injection Hx as <-. by apply Hne.
  - eexists _, _. split; [vm_compute; reflexivity|].
    split; [vm_compute; reflexivity|]. split.
    + compute_done.
    + exists 5. split; [reflexivity | done].
Qed.

(** ** Paths *)

Section paths.
Context (E : Z → Z → Prop).

Lemma grown_last root p u : grown E root p u → last p = Some u.
Proof. destruct 1; [done | apply last_snoc]. Qed.

Lemma grown_head root p u : grown E root p u → head p = Some root.
Proof.
  induction 1 as [|p u v Hp IH HE]; [done|].
  destruct p; [done | done].
Qed.

Lemma grown_length root p u : grown E root p u → (1 ≤ length p)%nat.
Proof. destruct 1; [cbn; lia | rewrite length_app; cbn; lia]. Qed.

Lemma grown_is_path root p u : grown E root p u → is_path E root u p.
Proof.
  intros Hg. split; [by eapply grown_head|]. split; [by eapply grown_last|].
  induction Hg as [|p u v Hp IH HE]; intros k a b Ha Hb.
  - destruct k; done.
  - destruct (decide (S k < length p)%nat) as [Hlt|Hge].
    + rewrite lookup_app_l in Ha, Hb by lia. eauto.
    + apply lookup_lt_Some in Hb as Hk. rewrite length_app in Hk. cbn in Hk.
      assert (S k = length p) as Hk' by lia.
      rewrite lookup_app_l in Ha by lia.
      rewrite Hk', list_lookup_middle in Hb by done.
      apply grown_last in Hp. rewrite last_lookup in Hp.
      assert (k = pred (length p)) as -> by lia. congruence.
Qed.

Lemma is_path_grown root u p : is_path E root u p → grown E root p u.
Proof.
  revert u. induction p as [|x q IH] using rev_ind; intros u (Hh & Hl & Hstep).
  - done.
  - rewrite last_snoc in Hl. injection Hl as ->.
    destruct (last q) as [y|] eqn:Hy.
    + assert (q ≠ []) as Hq by (intros ->; done).
      apply grown_snoc with y.
      * apply IH. split; [by destruct q|]. split; [done|].
        intros k a b Ha Hb. apply (Hstep k).
        -- by apply lookup_app_l_Some.
        -- by apply lookup_app_l_Some.
      * rewrite last_lookup in Hy. apply (Hstep (pred (length q))).
        -- by apply lookup_app_l_Some.
        -- replace (S (pred (length q))) with (length q)
             by (destruct q; [done | cbn; lia]).
           by apply list_lookup_middle.
    + apply last_None in Hy as ->. cbn in Hh. injection Hh as ->. constructor.
Qed.

Lemma grown_mono (E' : Z → Z → Prop) root p u :
  (∀ a b, E a b → E' a b) → grown E root p u → grown E' root p u.
Proof. intros HE. induction 1; econstructor; eauto. Qed.

Lemma path_cost_snoc wt p u v :
  last p = Some u → path_cost wt (p ++ [v]) = path_cost wt p + wt u v.
Proof.
  induction p as [|a [|b r] IH]; intros Hl.
  - done.
  - cbn in Hl. injection Hl as ->. cbn. lia.
  - change (path_cost wt ((a :: b :: r) ++ [v]))
      with (wt a b + path_cost wt ((b :: r) ++ [v])).
    rewrite IH by done. cbn. lia.
Qed.
End paths.

Lemma consistent_arc absent n M nb u v :
  consistent absent n M nb → (arc nb u v ↔ present absent M u v).
Proof.
  intros (Hsq & Hkeys & Hnb). split.
  - intros (s & Hs & Hv). destruct (proj1 (Hnb _ _ Hs v) Hv) as [_ Hp]. exact Hp.
  - intros Hp. destruct (present_in_range _ _ _ _ _ Hsq Hp) as [Hu Hv].
    destruct (proj2 (Hkeys u) Hu) as [s Hs]. exists s. split; [done|].
    apply (proj2 (Hnb _ _ Hs v)). split; [done | exact Hp].
Qed.

Lemma grown_in_range g root p u :
  wf_graph g → 0 ≤ root < N g → grown (arc (neighbors g)) root p u → 0 ≤ u < N g.
Proof. intros [_ Hwf] Hr. destruct 1; eauto. Qed.

(** ** Fuel *)

Lemma pending_mono g H x l : (pending g ({[x]} ∪ H) l ≤ pending g H l)%nat.
Proof.
  unfold pending. induction l as [|a l IH]; cbn; [lia|].
  destruct (decide (a ∈ H)) as [Ha|Ha].
  - rewrite decide_True by set_solver. lia.
  - destruct (decide (a ∈ {[x]} ∪ H)); lia.
Qed.

Lemma pending_insert g H x s l :
  x ∉ H → x ∈ l → neighbors g !! x = Some s →
  (pending g ({[x]} ∪ H) l + size s ≤ pending g H l)%nat.
Proof.
  intros Hx Hl Hs. induction l as [|a l IH]; [by apply elem_of_nil in Hl|].
  apply elem_of_cons in Hl. unfold pending in *. cbn.
  destruct (decide (a = x)) as [->|Hne].
  - rewrite decide_True by set_solver. rewrite decide_False by done.
    rewrite Hs. cbn. pose proof (pending_mono g H x l) as Hm.
    unfold pending in Hm. lia.
  - destruct Hl as [->|Hl]; [done|]. specialize (IH Hl).
    destruct (decide (a ∈ H)) as [Ha|Ha].
    + rewrite decide_True by set_solver. lia.
    + rewrite decide_False by set_solver. lia.
Qed.

Lemma iter_elem `{SetIteration} s x : x ∈ iter s ↔ x ∈ s.
Proof. rewrite (iter_perm s). apply elem_of_elements. Qed.

Lemma iter_NoDup `{SetIteration} s : NoDup (iter s).
Proof. rewrite (iter_perm s). apply NoDup_elements. Qed.

Lemma iter_length `{SetIteration} s : length (iter s) = size s.
Proof. by rewrite (iter_perm s). Qed.

Lemma range_elem n i : i ∈ range n ↔ 0 ≤ i < n.
Proof. unfold range. rewrite elem_of_seqZ. lia. Qed.

(** ** Breadth-first search *)

Section bfs.
Context {order : SetIteration} (g : Graph) (root target : Z).
Hypothesis Hwf : wf_graph g.

Local Abbreviation E := (arc (neighbors g)).

Lemma bfs_loop_returns fuel Q H :
  ends_in_range g Q →
  (length Q + pending g H (range (N g)) ≤ fuel)%nat →
  ∃ r, Ex02.bfs_loop g target fuel Q H = Some r.
Proof.
  revert Q H. induction fuel as [|fuel IH]; intros Q H Hends Hfuel.
  - destruct Q; [cbn; eauto | cbn in Hfuel; lia].
  - destruct Q as [|p Q]; [cbn; eauto|]. cbn.
    destruct (Hends p) as (curr & -> & Hcurr); [set_solver|].
    cbn in Hfuel.
    assert (ends_in_range g Q) as HQ by (intros q Hq; apply Hends; set_solver).
    case_decide as Hvis; [apply IH; [done | lia]|].
    destruct (proj2 (proj1 Hwf curr) Hcurr) as [s Hs].
    unfold dict_get. rewrite Hs. case_decide as Ht; [eauto|].
    apply IH.
    + intros q Hq. apply elem_of_app in Hq as [Hq|Hq]; [by apply HQ|].
      apply list_elem_of_fmap in Hq as (node & -> & Hnode).
      apply list_elem_of_filter in Hnode as [_ Hnode]. apply iter_elem in Hnode.
      exists node. split; [apply last_snoc|].
      apply (proj2 Hwf curr). by exists s.
    + rewrite length_app, length_fmap.
      pose proof (length_filter (λ node, node ∉ H) (iter s)) as Hlen.
      rewrite iter_length in Hlen.
      pose proof (pending_insert g H curr s (range (N g)) Hvis) as Hp.
      rewrite range_elem in Hp. specialize (Hp Hcurr Hs). lia.
Qed.

Lemma levelled_head p Q q : levelled (p :: Q) → q ∈ p :: Q → (length p ≤ length q)%nat.
Proof.
  intros (l & Q1 & Q2 & HQ & H1 & H2) Hq. rewrite HQ in Hq.
  assert (length q = l ∨ length q = S l) as Hlq.
  { apply elem_of_app in Hq as [Hq|Hq].
    - left. by apply (proj1 (Forall_forall _ _) H1).
    - right. by apply (proj1 (Forall_forall _ _) H2). }
  destruct Q1 as [|p1 Q1]; cbn in HQ.
  - subst Q2. cbn in Hq.
    pose proof (proj1 (Forall_forall _ _) H2 q Hq) as Hlen.
    apply Forall_cons in H2 as [Hp _]. cbn beta in *. lia.
  - injection HQ as -> ->. apply Forall_cons in H1 as [Hp _]. cbn beta in *. lia.
Qed.

Lemma levelled_pop p Q new :
  levelled (p :: Q) → Forall (λ q, length q = S (length p)) new → levelled (Q ++ new).
Proof.
  intros (l & Q1 & Q2 & HQ & H1 & H2) Hnew.
  destruct Q1 as [|p1 Q1]; cbn in HQ.
  - subst Q2. apply Forall_cons in H2 as [Hp H2]. rewrite Hp in Hnew.
    exists (S l), Q, new. done.
  - injection HQ as -> ->. apply Forall_cons in H1 as [Hp H1]. rewrite Hp in Hnew.
    exists l, Q1, (Q2 ++ new). rewrite app_assoc. split; [done|].
    split; [done|]. by apply Forall_app.
Qed.

(** A node of any path from the root is analysed, or the queue holds a path
    no longer than the one that reaches it. *)
Lemma bfs_frontier Q H p v :
  bfs_inv g root target Q H → grown E root p v →
  v ∈ H ∨ ∃ q, q ∈ Q ∧ (length q ≤ length p)%nat.
Proof.
  intros Hinv. induction 1 as [|p u v Hp IH HE].
  - destruct (bfs_root _ _ _ _ _ Hinv) as [Hr|Hr]; [by left|].
    right. exists [root]. done.
  - rewrite length_app. cbn. destruct IH as [Hu|(q & Hq & Hlen)].
    + destruct (bfs_closed _ _ _ _ _ Hinv u p v Hu Hp HE) as [Hv|(q & Hq & _ & Hlen)];
        [by left|].
      right. exists q. split; [done | lia].
    + right. exists q. split; [done | lia].
Qed.

Hypothesis Hroot : 0 ≤ root < N g.
Hypothesis Hdistinct : root ≠ target.

Lemma bfs_inv_skip p Q H u :
  bfs_inv g root target (p :: Q) H → last p = Some u → u ∈ H →
  bfs_inv g root target Q H.
Proof.
  intros Hinv Hu Hvis. split.
  - intros q Hq. apply (bfs_paths _ _ _ _ _ Hinv). set_solver.
  - pose proof (levelled_pop p Q [] (bfs_levels _ _ _ _ _ Hinv)) as Hl.
    rewrite app_nil_r in Hl. by apply Hl.
  - destruct (bfs_root _ _ _ _ _ Hinv) as [Hr|Hr]; [by left|].
    apply elem_of_cons in Hr as [<-|Hr]; [|by right].
    cbn in Hu. injection Hu as <-. by left.
  - intros u0 p0 v Hu0 Hp0 HE.
    destruct (bfs_closed _ _ _ _ _ Hinv u0 p0 v Hu0 Hp0 HE) as [Hv|(q & Hq & Hlast & Hlen)];
      [by left|].
    apply elem_of_cons in Hq as [->|Hq]; [|right; eauto].
    left. congruence.
  - apply (bfs_target _ _ _ _ _ Hinv).
Qed.

Lemma bfs_inv_expand p Q H u s :
  bfs_inv g root target (p :: Q) H → last p = Some u → u ∉ H →
  neighbors g !! u = Some s →
  target ∉ filter (λ node, node ∉ H) (iter s) →
  bfs_inv g root target
    (Q ++ ((λ node, p ++ [node]) <$> filter (λ node, node ∉ H) (iter s)))
    ({[u]} ∪ H).
Proof.
  intros Hinv Hu Hvis Hs Ht.
  destruct (bfs_paths _ _ _ _ _ Hinv p) as (u' & Hp & Hne); [set_solver|].
  assert (u' = u) as -> by (apply grown_last in Hp; congruence).
  assert (∀ node, node ∈ filter (λ node, node ∉ H) (iter s) ↔ (node ∉ H) ∧ node ∈ s) as Hadj.
  { intros node. rewrite list_elem_of_filter, iter_elem. done. }
  split.
  - intros q Hq. apply elem_of_app in Hq as [Hq|Hq].
    + apply (bfs_paths _ _ _ _ _ Hinv). set_solver.
    + apply list_elem_of_fmap in Hq as (node & -> & Hnode).
      exists node. split.
      * apply grown_snoc with u; [done|]. exists s. split; [done|].
        by apply Hadj in Hnode as [_ ?].
      * intros ->. done.
  - apply (levelled_pop p); [apply (bfs_levels _ _ _ _ _ Hinv)|].
    apply Forall_fmap, Forall_forall. intros node _. cbn.
    rewrite length_app. cbn. lia.
  - destruct (bfs_root _ _ _ _ _ Hinv) as [Hr|Hr]; [left; set_solver|].
    apply elem_of_cons in Hr as [<-|Hr]; [|right; set_solver].
    cbn in Hu. injection Hu as <-. left. set_solver.
  - intros u0 p0 v Hu0 Hp0 HE. apply elem_of_union in Hu0 as [Hu0|Hu0].
    + apply elem_of_singleton in Hu0 as ->.
      destruct (decide (v ∈ {[u]} ∪ H)) as [Hv|Hv]; [by left|]. right.
      exists (p ++ [v]). split; [|split].
      * apply elem_of_app. right. apply list_elem_of_fmap. exists v. split; [done|].
        apply Hadj. split; [set_solver|].
        destruct HE as (s' & Hs' & Hv'). congruence.
      * apply last_snoc.
      * rewrite length_app. cbn.
        destruct (bfs_frontier _ _ _ _ Hinv Hp0) as [?|(q & Hq & Hlen)]; [done|].
        pose proof (levelled_head p Q q (bfs_levels _ _ _ _ _ Hinv) Hq). lia.
    + destruct (bfs_closed _ _ _ _ _ Hinv u0 p0 v Hu0 Hp0 HE)
        as [Hv|(q & Hq & Hlast & Hlen)]; [left; set_solver|].
      apply elem_of_cons in Hq as [->|Hq].
      * left. assert (v = u) as -> by congruence. set_solver.
      * right. exists q. split; [set_solver | done].
  - intros u0 Hu0. apply elem_of_union in Hu0 as [Hu0|Hu0].
    + apply elem_of_singleton in Hu0 as ->. split; [done|].
      intros (s' & Hs' & Hv'). apply Ht. apply Hadj. split; [|congruence].
      intros Hin. by destruct (bfs_target _ _ _ _ _ Hinv target Hin).
    + by apply (bfs_target _ _ _ _ _ Hinv).
Qed.

Lemma bfs_loop_correct fuel Q H r :
  bfs_inv g root target Q H → Ex02.bfs_loop g target fuel Q H = Some r →
  ∃ p, r = Ok p ∧ bfs_post E root target p.
Proof.
  revert Q H. induction fuel as [|fuel IH]; intros Q H Hinv Hrun.
  - destruct Q; [|done]. cbn in Hrun. injection Hrun as <-.
    exists []. split; [done|]. left. split; [done|]. intros w Hw.
    destruct (bfs_frontier _ _ _ _ Hinv Hw) as [Ht|(q & Hq & _)].
    + by destruct (bfs_target _ _ _ _ _ Hinv target Ht).
    + by apply elem_of_nil in Hq.
  - destruct Q as [|p Q]; cbn in Hrun.
    { injection Hrun as <-. exists []. split; [done|]. left. split; [done|].
      intros w Hw. destruct (bfs_frontier _ _ _ _ Hinv Hw) as [Ht|(q & Hq & _)].
      + by destruct (bfs_target _ _ _ _ _ Hinv target Ht).
      + by apply elem_of_nil in Hq. }
    destruct (bfs_paths _ _ _ _ _ Hinv p) as (u & Hp & Hne); [set_solver|].
    pose proof (grown_last _ _ _ _ Hp) as Hlast. rewrite Hlast in Hrun.
    case_decide as Hvis; [by eapply IH, Hrun; eapply bfs_inv_skip|].
    pose proof (grown_in_range g root p u Hwf Hroot Hp) as Hu.
    destruct (proj2 (proj1 Hwf u) Hu) as [s Hs].
    unfold dict_get in Hrun. rewrite Hs in Hrun.
    case_decide as Ht; [|by eapply IH, Hrun; eapply bfs_inv_expand].
    injection Hrun as <-. exists (p ++ [target]). split; [done|]. right.
    apply list_elem_of_filter in Ht as [_ Ht]. apply iter_elem in Ht. split.
    + apply grown_snoc with u; [done|]. by exists s.
    + intros w Hw. inversion Hw as [Hw1 Hw2|w' u' v' Hw' HE Hw1 Hw2]; [congruence|].
      subst. rewrite !length_app. cbn.
      destruct (bfs_frontier _ _ _ _ Hinv Hw') as [Hin|(q & Hq & Hlen)].
      * by destruct (bfs_target _ _ _ _ _ Hinv u' Hin).
      * pose proof (levelled_head p Q q (bfs_levels _ _ _ _ _ Hinv) Hq). lia.
Qed.

Lemma bfs_inv_init : bfs_inv g root target [[root]] ∅.
Proof.
  split.
  - intros p Hp. apply list_elem_of_singleton in Hp as ->.
    exists root. split; [constructor | done].
  - exists 1%nat, [[root]], []. repeat split; repeat constructor.
  - right. set_solver.
  - set_solver.
  - set_solver.
Qed.

Lemma bfs_shortest : ∃ p, Ex02.bfs g root target = Some (Ok p) ∧ bfs_post E root target p.
Proof.
  unfold Ex02.bfs.
  destruct (bfs_loop_returns (Ex02.bfs_fuel g) [[root]] ∅) as [r Hr].
  - intros p Hp. apply list_elem_of_singleton in Hp as ->. exists root. done.
  - unfold Ex02.bfs_fuel. cbn. lia.
  - destruct (bfs_loop_correct _ _ _ _ bfs_inv_init Hr) as (p & -> & Hpost). eauto.
Qed.
End bfs.

Lemma bfs_post_is_path (E E' : Z → Z → Prop) root target p :
  (∀ a b, E a b ↔ E' a b) → bfs_post E root target p →
  ((∃ w, is_path E' root target w) →
     is_path E' root target p ∧
     ∀ w, is_path E' root target w → (length p ≤ length w)%nat) ∧
  ((∀ w, ¬ is_path E' root target w) → p = []).
Proof.
  intros HE Hpost.
  assert (∀ w, grown E root w target ↔ is_path E' root target w) as Hconv.
  { intros w. split.
    - intros Hw. apply grown_is_path. eapply grown_mono, Hw. intros; by apply HE.
    - intros Hw. apply is_path_grown in Hw. eapply grown_mono, Hw. intros; by apply HE. }
  destruct Hpost as [[-> Hnone]|[Hp Hmin]].
  - split; [|done]. intros [w Hw]. apply Hconv in Hw. by apply Hnone in Hw.
  - split.
    + intros _. split; [by apply Hconv|]. intros w Hw. by apply Hmin, Hconv.
    + intros Hnone. apply Hconv in Hp. by apply Hnone in Hp.
Qed.

(** C1.  On a graph built by the constructor of ex02, for distinct nodes
    [root] and [target] of the graph, [bfs] returns a list; when some path
    from [root] to [target] exists the list is such a path (it starts at
    [root], ends at [target] and follows edges of the matrix) and no path is
    shorter; when none exists the list is empty. *)
Theorem bfs_shortest_path {order : SetIteration} (n : Z) (edges : list (list pyval))
    (g : Graph) (root target : Z) :
  Ex02.init n edges = Ok g → 0 ≤ root < n → 0 ≤ target < n → root ≠ target →
  ∃ p, Ex02.bfs g root target = Some (Ok p) ∧
    ((∃ w, is_path (present 0 (matrix g)) root target w) →
       is_path (present 0 (matrix g)) root target p ∧
       ∀ w, is_path (present 0 (matrix g)) root target w → (length p ≤ length w)%nat) ∧
    ((∀ w, ¬ is_path (present 0 (matrix g)) root target w) → p = []).
Proof.
  intros Hg Hr _ Hne. apply ex02_init_Ok in Hg as (_ & HN & Hc).
  rewrite <- HN in Hc, Hr.
  destruct (bfs_shortest g root target (consistent_wf 0 g Hc) Hr Hne) as (p & Hp & Hpost).
  exists p. split; [done|].
  eapply bfs_post_is_path, Hpost. intros a b. by apply consistent_arc with (N g).
Qed.

Lemma bfs_shortest_path_witness :
  ∃ p, @Ex02.bfs elements_iteration
         {| N := 3; matrix := [[0; 1; 0]; [1; 0; 1]; [0; 1; 0]];
            neighbors := {[ 0 := {[1]}; 1 := {[0; 2]}; 2 := {[1]} ]} |} 0 2 = Some (Ok p) ∧
    ((∃ w, is_path (present 0 [[0; 1; 0]; [1; 0; 1]; [0; 1; 0]]) 0 2 w) →
       is_path (present 0 [[0; 1; 0]; [1; 0; 1]; [0; 1; 0]]) 0 2 p ∧
       ∀ w, is_path (present 0 [[0; 1; 0]; [1; 0; 1]; [0; 1; 0]]) 0 2 w
            → (length p ≤ length w)%nat) ∧
    ((∀ w, ¬ is_path (present 0 [[0; 1; 0]; [1; 0; 1]; [0; 1; 0]]) 0 2 w) → p = []).
Proof.
  apply (@bfs_shortest_path elements_iteration 3 [[PInt 1; PInt 2]; [PInt 2; PInt 3]]
           {| N := 3; matrix := [[0; 1; 0]; [1; 0; 1]; [0; 1; 0]];
              neighbors := {[ 0 := {[1]}; 1 := {[0; 2]}; 2 := {[1]} ]} |} 0 2).
  - vm_compute. reflexivity.
  - lia.
  - lia.
  - lia.
Defined.

Section bfs_same_node.
Context {order : SetIteration} (g : Graph) (target : Z).
Hypothesis Hwf : wf_graph g.

(** Once the target is analysed no path is returned. *)
Lemma bfs_loop_target_analysed fuel Q H r :
  target ∈ H → ends_in_range g Q →
  Ex02.bfs_loop g target fuel Q H = Some r → r = Ok [].
Proof.
  revert Q H. induction fuel as [|fuel IH]; intros Q H Ht Hends Hrun.
  - destruct Q; [|done]. cbn in Hrun. congruence.
  - destruct Q as [|p Q]; cbn in Hrun; [congruence|].
    destruct (Hends p) as (curr & Hlast & Hcurr); [set_solver|].
    rewrite Hlast in Hrun.
    assert (ends_in_range g Q) as HQ by (intros q Hq; apply Hends; set_solver).
    case_decide as Hvis; [by eapply IH, Hrun|].
    destruct (proj2 (proj1 Hwf curr) Hcurr) as [s Hs].
    unfold dict_get in Hrun. rewrite Hs in Hrun. case_decide as Hin.
    { apply list_elem_of_filter in Hin as [Hin _]. done. }
    eapply IH, Hrun; [set_solver|].
    intros q Hq. apply elem_of_app in Hq as [Hq|Hq]; [by apply HQ|].
    apply list_elem_of_fmap in Hq as (node & -> & Hnode).
    apply list_elem_of_filter in Hnode as [_ Hnode]. apply iter_elem in Hnode.
    exists node. split; [apply last_snoc|].
    apply (proj2 Hwf curr). by exists s.
Qed.

Lemma bfs_loop_expand fuel p Q H curr s :
  last p = Some curr → curr ∉ H → neighbors g !! curr = Some s →
  Ex02.bfs_loop g target (S fuel) (p :: Q) H =
  if decide (target ∈ filter (λ node, node ∉ H) (iter s))
  then Some (Ok (p ++ [target]))
  else Ex02.bfs_loop g target fuel
         (Q ++ ((λ node, p ++ [node]) <$> filter (λ node, node ∉ H) (iter s)))
         ({[curr]} ∪ H).
Proof.
  intros Hlast Hvis Hs. cbn. rewrite Hlast. rewrite decide_False by done.
  unfold dict_get. by rewrite Hs.
Qed.

Lemma adjacent_elem (H : gset Z) s node :
  node ∈ filter (λ node, node ∉ H) (iter s) ↔ (node ∉ H) ∧ node ∈ s.
Proof. by rewrite list_elem_of_filter, iter_elem. Qed.

Lemma adjacent_length (H : gset Z) s :
  (length (filter (λ node, node ∉ H) (iter s)) ≤ size s)%nat.
Proof. rewrite <- iter_length. apply length_filter. Qed.

Lemma ends_in_range_expand p (H : gset Z) u s :
  neighbors g !! u = Some s →
  ends_in_range g ((λ node, p ++ [node]) <$> filter (λ node, node ∉ H) (iter s)).
Proof.
  intros Hs q Hq. apply list_elem_of_fmap in Hq as (node & -> & Hnode).
  apply adjacent_elem in Hnode as [_ Hnode].
  exists node. split; [apply last_snoc|]. apply (proj2 Hwf u). by exists s.
Qed.

Lemma bfs_same :
  0 ≤ target < N g →
  (arc (neighbors g) target target → Ex02.bfs g target target = Some (Ok [target; target])) ∧
  (¬ arc (neighbors g) target target → Ex02.bfs g target target = Some (Ok [])).
Proof.
  intros Ht. destruct (proj2 (proj1 Hwf target) Ht) as [s Hs].
  unfold Ex02.bfs, Ex02.bfs_fuel.
  rewrite (bfs_loop_expand _ [target] [] ∅ target s) by (done || set_solver).
  pose proof (adjacent_elem ∅ s target) as Hadj.
  split.
  - intros (s' & Hs' & Hin). rewrite decide_True; [done|].
    apply (proj2 Hadj). split; [set_solver | congruence].
  - intros Hno.
    rewrite decide_False;
      [|intros Hin; apply (proj1 Hadj) in Hin as [_ Hin]; apply Hno; by exists s].
    rewrite app_nil_l.
    pose proof (ends_in_range_expand [target] ∅ target s Hs) as Hends.
    destruct (bfs_loop_returns g target Hwf (pending g ∅ (range (N g))) _
                ({[target]} ∪ ∅) Hends) as [r Hr].
    + rewrite length_fmap.
      pose proof (adjacent_length ∅ s) as Hlen.
      pose proof (pending_insert g ∅ target s (range (N g))) as Hp.
      rewrite range_elem in Hp. specialize (Hp ltac:(set_solver) Ht Hs). lia.
    + rewrite Hr. f_equal.
      eapply bfs_loop_target_analysed, Hr; [set_solver | done].
Qed.
End bfs_same_node.

(** C10.  On a graph built by the constructor of ex02, [bfs(r, r)] returns
    the two-node path [[r, r]] when the matrix has a self-loop at [r] and the
    empty list otherwise; the one-node path is never returned. *)
Theorem bfs_root_is_target {order : SetIteration} (n : Z) (edges : list (list pyval))
    (g : Graph) (r : Z) :
  Ex02.init n edges = Ok g → 0 ≤ r < n →
  (present 0 (matrix g) r r → Ex02.bfs g r r = Some (Ok [r; r])) ∧
  (¬ present 0 (matrix g) r r → Ex02.bfs g r r = Some (Ok [])).
Proof.
  intros Hg Hr. apply ex02_init_Ok in Hg as (_ & HN & Hc).
  rewrite <- HN in Hc, Hr.
  destruct (bfs_same g r (consistent_wf 0 g Hc) Hr) as [Hloop Hnone].
  pose proof (consistent_arc 0 (N g) _ _ r r Hc) as Harc. split.
  - intros Hp. apply Hloop. by apply Harc.
  - intros Hp. apply Hnone. intros Ha. by apply Hp, Harc.
Qed.

Lemma bfs_root_is_target_witness :
  ∃ g, Ex02.init 2 [[PInt 1; PInt 1]; [PInt 1; PInt 2]] = Ok g ∧
       (present 0 (matrix g) 0 0 → @Ex02.bfs elements_iteration g 0 0 = Some (Ok [0; 0])) ∧
       (¬ present 0 (matrix g) 0 0 → @Ex02.bfs elements_iteration g 0 0 = Some (Ok [])).
Proof.
  eexists. split; [vm_compute; reflexivity|].
  apply (@bfs_root_is_target elements_iteration 2 [[PInt 1; PInt 1]; [PInt 1; PInt 2]]).
  - vm_compute. reflexivity.
  - lia.
Defined.

(** ** Priority queue *)

Lemma heap_min_in x h : heap_min x h ∈ x :: h.
Proof.
  revert x. induction h as [|y h IH]; intros x; cbn; [set_solver|].
  destruct (tuple_le x y); [specialize (IH x) | specialize (IH y)]; set_solver.
Qed.

Lemma tuple_le_false a b : tuple_le a b = false → b.1 ≤ a.1.
Proof.
  unfold tuple_le. intros Hf. apply orb_false_iff in Hf as [Hlt Heq].
  apply bool_decide_eq_false in Hlt. lia.
Qed.

Lemma tuple_le_true a b : tuple_le a b = true → a.1 ≤ b.1.
Proof.
  unfold tuple_le. intros Ht. apply orb_true_iff in Ht as [Hlt|Heq].
  - apply bool_decide_eq_true in Hlt. lia.
  - apply andb_true_iff in Heq as [Heq _]. apply bool_decide_eq_true in Heq. lia.
Qed.

Lemma heap_min_least x h y : y ∈ x :: h → (heap_min x h).1 ≤ y.1.
Proof.
  revert x y. induction h as [|z h IH]; intros x y Hy; cbn.
  - apply list_elem_of_singleton in Hy as ->. lia.
  - destruct (tuple_le x z) eqn:Hxz.
    + apply tuple_le_true in Hxz.
      pose proof (IH x x ltac:(set_solver)) as Hx.
      apply elem_of_cons in Hy as [->|Hy]; [done|].
      apply elem_of_cons in Hy as [->|Hy]; [lia|]. apply IH. set_solver.
    + apply tuple_le_false in Hxz.
      pose proof (IH z z ltac:(set_solver)) as Hz.
      apply elem_of_cons in Hy as [->|Hy]; [lia|]. by apply IH.
Qed.

Lemma remove_first_elem x y h : y ∈ remove_first x h → y ∈ h.
Proof.
  induction h as [|z h IH]; cbn; [done|].
  case_decide; [set_solver|]. rewrite !elem_of_cons. naive_solver.
Qed.

Lemma remove_first_other x y h : y ∈ h → y = x ∨ y ∈ remove_first x h.
Proof.
  induction h as [|z h IH]; cbn; [set_solver|].
  rewrite elem_of_cons. case_decide; subst; [naive_solver|].
  rewrite elem_of_cons. naive_solver.
Qed.

Lemma remove_first_sum (f : Z * Z → nat) x h :
  x ∈ h → sum_list (f <$> h) = (f x + sum_list (f <$> remove_first x h))%nat.
Proof.
  induction h as [|z h IH]; cbn; [by intros ?%elem_of_nil|].
  intros Hx. case_decide; subst; [done|].
  apply elem_of_cons in Hx as [->|Hx]; [done|]. cbn. rewrite IH by done. lia.
Qed.

Lemma remove_first_length x h : x ∈ h → length h = S (length (remove_first x h)).
Proof.
  induction h as [|z h IH]; cbn; [by intros ?%elem_of_nil|].
  intros Hx. case_decide; subst; [done|].
  apply elem_of_cons in Hx as [->|Hx]; [done|]. cbn. by rewrite IH.
Qed.

(** [heappop] on a non-empty queue returns an item of least cost and the
    queue without one occurrence of it. *)
Lemma heappop_spec h :
  h ≠ [] →
  ∃ m, heappop h = Ok (m, remove_first m h) ∧ m ∈ h ∧ ∀ y, y ∈ h → m.1 ≤ y.1.
Proof.
  destruct h as [|x h]; [done|]. intros _. exists (heap_min x h).
  split; [done|]. split; [apply heap_min_in | apply heap_min_least].
Qed.

Lemma getitem2_cell M n i j :
  square n M → 0 ≤ i < n → 0 ≤ j < n →
  ∃ x, getitem2 M i j = Ok x ∧ cell M i j = Some x.
Proof.
  intros [Hlen Hrows] Hi Hj. unfold getitem2, getitem, cell.
  rewrite py_index_nonneg by lia. rewrite bool_decide_eq_true_2 by lia.
  destruct (lookup_lt_is_Some_2 M (Z.to_nat i)) as [row Hrow]; [lia|].
  rewrite Hrow. cbn.
  assert (length row = Z.to_nat n) as Hr.
  { eapply (proj1 (Forall_lookup _ _) Hrows); eauto. }
  rewrite py_index_nonneg by lia.
  destruct (lookup_lt_is_Some_2 row (Z.to_nat j)) as [x Hx]; [lia|].
  rewrite Hx. eauto.
Qed.

Lemma getitem2_weight g u v :
  square (N g) (matrix g) → 0 ≤ u < N g → 0 ≤ v < N g →
  getitem2 (matrix g) u v = Ok (weight g u v).
Proof.
  intros Hsq Hu Hv. destruct (getitem2_cell _ _ u v Hsq Hu Hv) as (x & -> & Hx).
  unfold weight. by rewrite Hx.
Qed.

(** The neighbours not yet in [history] are queued at the weight of their
    arc plus the offset. *)
Lemma push_neighbors_spec g curr (f : Z → Z) (H : gset Z) nodes h :
  square (N g) (matrix g) → 0 ≤ curr < N g → (∀ v, v ∈ nodes → 0 ≤ v < N g) →
  ∃ h', Weighted.push_neighbors g curr f H nodes h = Ok h' ∧
        (∀ x, x ∈ h' ↔ x ∈ h ∨ ∃ v, v ∈ nodes ∧ (v ∉ H) ∧ x = (f (weight g curr v), v)) ∧
        h' ≡ₚ ((λ v, (f (weight g curr v), v)) <$> filter (λ v, v ∉ H) nodes) ++ h.
Proof.
  intros Hsq Hcurr. revert h. unfold Weighted.push_neighbors.
  induction nodes as [|v nodes IH]; intros h Hnodes.
  - exists h. split; [done|]. split; [|done]. intros x. split; [by left|].
    intros [Hx|(v & Hv & _)]; [done | by apply elem_of_nil in Hv].
  - rewrite filter_cons. cbn [for_each].
    destruct (decide (v ∈ H)) as [Hv|Hv].
    + rewrite decide_False by (intros Hn; by apply Hn). cbn.
      destruct (IH h) as (h1 & Hrun1 & Helem1 & Hperm1); [intros; apply Hnodes; set_solver|].
      exists h1. split; [done|]. split; [|done].
      intros x. rewrite Helem1. split.
      * intros [Hx|(v' & Hv' & Hn & ->)]; [by left|right].
        exists v'. split; [set_solver | done].
      * intros [Hx|(v' & Hv' & Hn & ->)]; [by left|].
        apply elem_of_cons in Hv' as [->|Hv']; [done|]. right. exists v'. done.
    + rewrite decide_True by done.
      rewrite getitem2_weight by (done || apply Hnodes; set_solver). cbn.
      destruct (IH (heappush h (f (weight g curr v), v)))
        as (h2 & Hrun2 & Helem2 & Hperm2); [intros; apply Hnodes; set_solver|].
      exists h2. split; [done|]. split.
      * intros x. rewrite Helem2. unfold heappush. rewrite elem_of_cons. split.
        -- intros [[->|Hx]|(v' & Hv' & Hn & ->)]; [right|by left|right].
           ++ exists v. split; [set_solver | done].
           ++ exists v'. split; [set_solver | done].
        -- intros [Hx|(v' & Hv' & Hn & ->)]; [by left; right|].
           apply elem_of_cons in Hv' as [->|Hv']; [by left; left|].
           right. exists v'. done.
      * rewrite Hperm2. unfold heappush. cbn. by rewrite Permutation_middle.
Qed.

(** ** Measure of the searches without a visited check *)

Lemma budget_pos k : (1 ≤ budget k)%nat.
Proof. destruct k; cbn; lia. Qed.

Lemma budget_mono j k : (j ≤ k)%nat → (budget j ≤ budget k)%nat.
Proof.
  induction 1 as [|k Hjk IH]; [done|].
  change (budget (S k)) with (S (S k * budget k)). nia.
Qed.

Lemma budget_step c k : (c ≤ k)%nat → (c * budget (pred k) + 1 ≤ budget k)%nat.
Proof.
  destruct k as [|k]; intros Hc.
  - assert (c = 0%nat) as -> by lia. cbn. lia.
  - change (budget (S k)) with (S (S k * budget k)). cbn [pred]. nia.
Qed.

Lemma unvisited_empty g : unvisited g ∅ = Z.to_nat (N g).
Proof.
  unfold unvisited, range. rewrite difference_empty_L.
  rewrite size_list_to_set by apply NoDup_seqZ. apply length_seqZ.
Qed.

Lemma unvisited_insert_le g H u : (unvisited g ({[u]} ∪ H) ≤ unvisited g H)%nat.
Proof. unfold unvisited. apply subseteq_size. set_solver. Qed.

Lemma unvisited_insert_new g H u :
  u ∉ H → 0 ≤ u < N g → unvisited g H = S (unvisited g ({[u]} ∪ H)).
Proof.
  intros Hu Hr. unfold unvisited.
  assert (list_to_set (range (N g)) ∖ H
          = ({[u]} ∪ list_to_set (range (N g)) ∖ ({[u]} ∪ H) : gset Z)) as ->.
  { apply set_eq. intros x. rewrite elem_of_union, !elem_of_difference,
      elem_of_union, elem_of_singleton, elem_of_list_to_set, range_elem.
    destruct (decide (x = u)); naive_solver. }
  rewrite size_union by set_solver. by rewrite size_singleton.
Qed.

Lemma unvisited_count g H (l : list Z) :
  NoDup l → (∀ v, v ∈ l → 0 ≤ v < N g ∧ v ∉ H) → (length l ≤ unvisited g H)%nat.
Proof.
  intros Hnd Hl. rewrite <- (size_list_to_set (C := gset Z) l Hnd).
  unfold unvisited. apply subseteq_size. intros v Hv.
  apply elem_of_list_to_set in Hv. destruct (Hl v Hv) as [Hr Hn].
  apply elem_of_difference. split; [|done].
  apply elem_of_list_to_set, range_elem. done.
Qed.

Lemma item_weight_insert g H u :
  0 ≤ u < N g → item_weight g H u = budget (unvisited g ({[u]} ∪ H)).
Proof.
  intros Hr. unfold item_weight. case_decide as Hu.
  - by replace ({[u]} ∪ H) with H by set_solver.
  - by rewrite (unvisited_insert_new g H u Hu Hr).
Qed.

Lemma item_weight_mono g H u x :
  0 ≤ u < N g → (item_weight g ({[u]} ∪ H) x ≤ item_weight g H x)%nat.
Proof.
  intros Hr. unfold item_weight. pose proof (unvisited_insert_le g H u) as Hle.
  destruct (decide (x ∈ H)) as [Hx|Hx].
  - rewrite decide_True by set_solver. by apply budget_mono.
  - destruct (decide (x = u)) as [->|Hne].
    + rewrite decide_True by set_solver.
      rewrite (unvisited_insert_new g H u Hx Hr). done.
    + rewrite decide_False by set_solver. apply budget_mono. lia.
Qed.

Lemma heap_measure_mono g H u h :
  0 ≤ u < N g → (heap_measure g ({[u]} ∪ H) h ≤ heap_measure g H h)%nat.
Proof.
  intros Hr. unfold heap_measure. induction h as [|x h IH]; cbn; [done|].
  pose proof (item_weight_mono g H u x.2 Hr). lia.
Qed.

Lemma heap_measure_pushed g H (f : Z → Z) (l : list Z) :
  (∀ v, v ∈ l → v ∉ H) →
  heap_measure g H ((λ v, (f v, v)) <$> l) = (length l * budget (pred (unvisited g H)))%nat.
Proof.
  intros Hl. unfold heap_measure. induction l as [|v l IH]; cbn; [done|].
  rewrite IH by (intros; apply Hl; set_solver).
  unfold item_weight. cbn. rewrite decide_False by (apply Hl; set_solver). done.
Qed.

(** ** Dijkstra *)

Section dijkstra.
Context {order : SetIteration} (g : Graph) (root target : Z).
Hypothesis Hwf : wf_graph g.
Hypothesis Hsq : square (N g) (matrix g).

Local Abbreviation E := (arc (neighbors g)).
Local Abbreviation wt := (weight g).

(** One iteration on a queue whose least item is not the target. *)
Lemma dijkstra_loop_step fuel h H :
  h ≠ [] → nodes_in_range g h →
  ∃ m s h',
    heappop h = Ok (m, remove_first m h) ∧ m ∈ h ∧ (∀ y, y ∈ h → m.1 ≤ y.1) ∧
    neighbors g !! m.2 = Some s ∧
    Weighted.push_neighbors g m.2 (λ w, w + m.1) ({[m.2]} ∪ H) (iter s) (remove_first m h) = Ok h' ∧
    (∀ x, x ∈ h' ↔ x ∈ remove_first m h ∨
          ∃ v, v ∈ s ∧ (v ∉ {[m.2]} ∪ H) ∧ x = (wt m.2 v + m.1, v)) ∧
    h' ≡ₚ ((λ v, (wt m.2 v + m.1, v)) <$> filter (λ v, v ∉ {[m.2]} ∪ H) (iter s))
          ++ remove_first m h ∧
    Ex05.dijkstra_loop g target (S fuel) h H =
      if decide (m.2 = target) then Some (Ok m.1)
      else Ex05.dijkstra_loop g target fuel h' ({[m.2]} ∪ H).
Proof.
  intros Hne Hrange. destruct (heappop_spec h Hne) as (m & Hpop & Hin & Hleast).
  pose proof (Hrange m Hin) as Hm.
  destruct (proj2 (proj1 Hwf m.2) Hm) as [s Hs].
  destruct (push_neighbors_spec g m.2 (λ w, w + m.1) ({[m.2]} ∪ H) (iter s) (remove_first m h) Hsq Hm)
    as (h' & Hpush & Helem & Hperm).
  { intros v Hv. apply iter_elem in Hv. apply (proj2 Hwf m.2). by exists s. }
  exists m, s, h'. repeat split; try done.
  - intros Hx. apply Helem in Hx as [Hx|(v & Hv & Hn & ->)]; [by left|].
    right. exists v. by rewrite <- iter_elem.
  - intros [Hx|(v & Hv & Hn & ->)]; apply Helem; [by left|].
    right. exists v. by rewrite iter_elem.
  - destruct h as [|x h]; [done|]. cbn [Ex05.dijkstra_loop]. rewrite Hpop.
    destruct m as [cost curr]. cbn [fst snd] in *.
    case_decide; [done|]. unfold dict_get. rewrite Hs. by rewrite Hpush.
Qed.

Lemma dijkstra_loop_returns fuel h H :
  nodes_in_range g h → (heap_measure g H h ≤ fuel)%nat →
  ∃ r, Ex05.dijkstra_loop g target fuel h H = Some r.
Proof.
  revert h H. induction fuel as [|fuel IH]; intros h H Hrange Hfuel.
  - destruct h as [|x h]; [cbn; eauto|]. unfold heap_measure in Hfuel. cbn in Hfuel.
    pose proof (budget_pos (unvisited g H)). pose proof (budget_pos (pred (unvisited g H))).
    unfold item_weight in Hfuel. case_decide; lia.
  - destruct (decide (h = [])) as [->|Hne]; [cbn; eauto|].
    destruct (dijkstra_loop_step fuel h H Hne Hrange)
      as (m & s & h' & _ & Hin & _ & Hs & _ & Helem & Hperm & ->).
    case_decide; [eauto|]. pose proof (Hrange m Hin) as Hm. apply IH.
    + intros x Hx. apply Helem in Hx as [Hx|(v & Hv & _ & ->)].
      * apply Hrange. by eapply remove_first_elem.
      * cbn. apply (proj2 Hwf m.2). by exists s.
    + unfold heap_measure at 1. rewrite Hperm. rewrite fmap_app, sum_list_with_app.
      fold (heap_measure g ({[m.2]} ∪ H)
              ((λ v, (wt m.2 v + m.1, v)) <$> filter (λ v, v ∉ {[m.2]} ∪ H) (iter s))).
      fold (heap_measure g ({[m.2]} ∪ H) (remove_first m h)).
      rewrite heap_measure_pushed
        by (intros v Hv; by apply list_elem_of_filter in Hv as [? _]).
      pose proof (heap_measure_mono g H m.2 (remove_first m h) Hm) as Hmono.
      unfold heap_measure in Hfuel.
      rewrite (remove_first_sum _ m h Hin) in Hfuel. cbn beta in Hfuel.
      rewrite (item_weight_insert g H m.2 Hm) in Hfuel.
      fold (heap_measure g H (remove_first m h)) in Hfuel.
      pose proof (budget_step
                    (length (filter (λ v, v ∉ {[m.2]} ∪ H) (iter s)))
                    (unvisited g ({[m.2]} ∪ H))) as Hstep.
      assert (length (filter (λ v, v ∉ {[m.2]} ∪ H) (iter s))
              ≤ unvisited g ({[m.2]} ∪ H))%nat as Hcount.
      { apply unvisited_count; [apply NoDup_filter, iter_NoDup|].
        intros v Hv. apply list_elem_of_filter in Hv as [Hn Hv].
        split; [|done]. apply iter_elem in Hv. apply (proj2 Hwf m.2). by exists s. }
      specialize (Hstep Hcount). lia.
Qed.

Hypothesis Hnonneg : ∀ u v, E u v → 0 ≤ wt u v.

Lemma path_cost_grown_snoc p u v :
  grown E root p u → path_cost wt (p ++ [v]) = path_cost wt p + wt u v.
Proof. intros Hp. apply path_cost_snoc. by eapply grown_last. Qed.

(** A node of any path from the root is analysed, or the queue holds an item
    no dearer than the path that reaches it. *)
Lemma dijkstra_frontier h H p v :
  dijkstra_inv g root target h H → grown E root p v →
  v ∈ H ∨ ∃ x, x ∈ h ∧ x.1 ≤ path_cost wt p.
Proof.
  intros Hinv. induction 1 as [|p u v Hp IH HE].
  - destruct (dj_root _ _ _ _ _ Hinv) as [Hr|Hr]; [by left|].
    right. exists (0, root). done.
  - rewrite (path_cost_grown_snoc p u v Hp). pose proof (Hnonneg u v HE).
    destruct IH as [Hu|(x & Hx & Hle)].
    + destruct (dj_closed _ _ _ _ _ Hinv u p v Hu Hp HE) as [Hv|(c & Hc & Hle)];
        [by left|].
      right. exists (c, v). done.
    + right. exists x. split; [done | lia].
Qed.

Lemma dijkstra_inv_step h H m s h' :
  dijkstra_inv g root target h H →
  m ∈ h → (∀ y, y ∈ h → m.1 ≤ y.1) → neighbors g !! m.2 = Some s →
  (∀ x, x ∈ h' ↔ x ∈ remove_first m h ∨
        ∃ v, v ∈ s ∧ (v ∉ {[m.2]} ∪ H) ∧ x = (wt m.2 v + m.1, v)) →
  m.2 ≠ target →
  dijkstra_inv g root target h' ({[m.2]} ∪ H).
Proof.
  intros Hinv Hin Hleast Hs Helem Hne. destruct m as [cost curr]. cbn [fst snd] in *.
  destruct (dj_entries _ _ _ _ _ Hinv cost curr Hin) as (pc & Hpc & Hcost).
  assert (∀ x, x ∈ h → x = (cost, curr) ∨ x ∈ h') as Hkeep.
  { intros x Hx. destruct (remove_first_other (cost, curr) x h Hx) as [->|Hx'];
      [by left|]. right. apply Helem. by left. }
  split.
  - intros c u Hcu. apply Helem in Hcu as [Hcu|(v & Hv & Hn & [= -> ->])].
    + apply (dj_entries _ _ _ _ _ Hinv). by eapply remove_first_elem.
    + exists (pc ++ [v]). split.
      * apply grown_snoc with curr; [done|]. by exists s.
      * rewrite (path_cost_grown_snoc pc curr v Hpc). lia.
  - destruct (dj_root _ _ _ _ _ Hinv) as [Hr|Hr]; [left; set_solver|].
    destruct (Hkeep _ Hr) as [[= <- <-]|Hr']; [left; set_solver | by right].
  - intros u p v Hu Hp HE.
    destruct (decide (v ∈ {[curr]} ∪ H)) as [Hv|Hv]; [by left|]. right.
    destruct (decide (u ∈ H)) as [HuH|HuH].
    + destruct (dj_closed _ _ _ _ _ Hinv u p v HuH Hp HE) as [HvH|(c & Hc & Hle)];
        [set_solver|].
      exists c. split; [|done].
      destruct (Hkeep _ Hc) as [[= -> ->]|Hc']; [set_solver | done].
    + assert (u = curr) as -> by set_solver.
      exists (wt curr v + cost). split.
      * apply Helem. right. exists v. split; [|done].
        destruct HE as (s' & Hs' & Hv'). congruence.
      * destruct (dijkstra_frontier _ _ _ _ Hinv Hp) as [?|(x & Hx & Hle)]; [done|].
        pose proof (Hleast x Hx). lia.
  - pose proof (dj_target _ _ _ _ _ Hinv). set_solver.
Qed.

Lemma dijkstra_loop_correct fuel h H r :
  dijkstra_inv g root target h H → nodes_in_range g h →
  Ex05.dijkstra_loop g target fuel h H = Some r →
  ∃ c, r = Ok c ∧ dijkstra_post E wt root target c.
Proof.
  revert h H. induction fuel as [|fuel IH]; intros h H Hinv Hrange Hrun.
  - destruct h; [|done]. cbn in Hrun. injection Hrun as <-.
    exists inf. split; [done|]. left. split; [done|]. intros w Hw.
    destruct (dijkstra_frontier _ _ _ _ Hinv Hw) as [Ht|(x & Hx & _)].
    + by apply (dj_target _ _ _ _ _ Hinv).
    + by apply elem_of_nil in Hx.
  - destruct (decide (h = [])) as [->|Hne].
    { cbn in Hrun. injection Hrun as <-.
      exists inf. split; [done|]. left. split; [done|]. intros w Hw.
      destruct (dijkstra_frontier _ _ _ _ Hinv Hw) as [Ht|(x & Hx & _)].
      + by apply (dj_target _ _ _ _ _ Hinv).
      + by apply elem_of_nil in Hx. }
    destruct (dijkstra_loop_step fuel h H Hne Hrange)
      as (m & s & h' & _ & Hin & Hleast & Hs & _ & Helem & _ & Hstep).
    rewrite Hstep in Hrun. case_decide as Ht.
    + injection Hrun as <-. exists m.1. split; [done|]. right.
      destruct m as [cost curr]. cbn [fst snd] in *. subst curr.
      destruct (dj_entries _ _ _ _ _ Hinv cost target Hin) as (p & Hp & Hcost).
      exists p. split; [done|]. split; [done|]. intros w Hw.
      destruct (dijkstra_frontier _ _ _ _ Hinv Hw) as [HtH|(x & Hx & Hle)].
      * by destruct (dj_target _ _ _ _ _ Hinv).
      * pose proof (Hleast x Hx). cbn in *. lia.
    + eapply IH, Hrun.
      * by eapply dijkstra_inv_step.
      * intros x Hx. apply Helem in Hx as [Hx|(v & Hv & _ & ->)].
        -- apply Hrange. by eapply remove_first_elem.
        -- cbn. apply (proj2 Hwf m.2). by exists s.
Qed.

Hypothesis Hroot : 0 ≤ root < N g.
Hypothesis Hdistinct : root ≠ target.

Lemma dijkstra_inv_init : dijkstra_inv g root target [(0, root)] ∅.
Proof.
  split.
  - intros c u Hcu. apply list_elem_of_singleton in Hcu as [= -> ->].
    exists [root]. split; [constructor | done].
  - right. set_solver.
  - set_solver.
  - set_solver.
Qed.

Lemma dijkstra_least :
  ∃ c, Ex05.dijkstra g root target = Some (Ok c) ∧ dijkstra_post E wt root target c.
Proof.
  unfold Ex05.dijkstra. rewrite decide_False by done.
  assert (nodes_in_range g [(0, root)]) as Hrange.
  { intros x Hx. by apply list_elem_of_singleton in Hx as ->. }
  destruct (dijkstra_loop_returns (Ex05.dijkstra_fuel g) [(0, root)] ∅ Hrange) as [r Hr].
  - unfold heap_measure, Ex05.dijkstra_fuel. cbn.
    rewrite (item_weight_insert g ∅ root Hroot).
    pose proof (unvisited_insert_le g ∅ root) as Hle. rewrite unvisited_empty in Hle.
    pose proof (budget_mono _ _ Hle). lia.
  - destruct (dijkstra_loop_correct _ _ _ _ dijkstra_inv_init Hrange Hr) as (c & -> & Hc).
    eauto.
Qed.
End dijkstra.

(** ** Arcs of a constructed graph and records of the input *)

Lemma for_each_prefix {A S} (body : S → A → res S) (Inv : list A → S → Prop)
    (P : A → Prop) xs st :
  (∀ pre x st, Inv pre st → P x → ∃ st', body st x = Ok st' ∧ Inv (pre ++ [x]) st') →
  Inv [] st → Forall P xs → ∃ st', for_each body xs st = Ok st' ∧ Inv xs st'.
Proof.
  intros Hbody Hst HP.
  assert (∀ pre st, Inv pre st → ∃ st', for_each body xs st = Ok st' ∧ Inv (pre ++ xs) st')
    as Hgen.
  { clear Hst. induction xs as [|x xs IH]; intros pre st0 Hst0; cbn.
    - rewrite app_nil_r. eauto.
    - apply Forall_cons in HP as [Hx HP].
      destruct (Hbody pre x st0 Hst0 Hx) as (st1 & -> & Hst1). cbn.
      destruct (IH HP (pre ++ [x]) st1 Hst1) as (st2 & Hrun & Hst2).
      rewrite <- app_assoc in Hst2. eauto. }
  by apply (Hgen []).
Qed.

Lemma arc_insert nb i j s u v :
  nb !! i = Some s →
  arc (<[i := {[j]} ∪ s]> nb) u v ↔ (u = i ∧ v = j) ∨ arc nb u v.
Proof.
  intros Hs. unfold arc. split.
  - intros (s' & Hs' & Hv). rewrite lookup_insert in Hs'. case_decide; subst.
    + injection Hs' as <-. apply elem_of_union in Hv as [Hv|Hv].
      * left. set_solver.
      * right. eauto.
    + right. eauto.
  - intros [[-> ->]|(s' & Hs' & Hv)].
    + exists ({[j]} ∪ s). rewrite lookup_insert_eq. split; [done | set_solver].
    + destruct (decide (i = u)) as [->|Hne].
      * exists ({[j]} ∪ s). rewrite lookup_insert_eq. split; [done|].
        assert (s' = s) as -> by congruence. set_solver.
      * exists s'. by rewrite lookup_insert_ne.
Qed.

Lemma keys_insert (nb : gmap Z (gset Z)) n i s :
  0 ≤ i < n → (∀ k, is_Some (nb !! k) ↔ 0 ≤ k < n) →
  ∀ k, is_Some (<[i := s]> nb !! k) ↔ 0 ≤ k < n.
Proof.
  intros Hi Hkeys k. rewrite lookup_insert. case_decide; subst; [|apply Hkeys].
  split; [done | eauto].
Qed.

Lemma undirected_register n pre e st :
  undirected_state n pre st → valid_edge n e →
  ∃ st', Ex02.register_edge n st e = Ok st' ∧ undirected_state n (pre ++ [e]) st'.
Proof.
  intros (Hsq & Hkeys & Harc) He. destruct e as [|[a| |] [|[b| |] [|]]]; try done.
  cbn in He. apply andb_True in He as [Ha Hb].
  unfold node_id in Ha, Hb. apply bool_decide_unpack in Ha, Hb.
  unfold Ex02.register_edge. rewrite bool_decide_eq_false_2 by lia.
  destruct (setitem2_cell st.1 n (a - 1) (b - 1) 1 Hsq) as (M1 & -> & Hsq1 & _); [lia..|].
  destruct (setitem2_cell M1 n (b - 1) (a - 1) 1 Hsq1) as (M2 & HM2 & Hsq2 & _); [lia..|].
  cbn. rewrite HM2. cbn.
  destruct (proj2 (Hkeys (a - 1))) as [sa Hsa]; [lia|].
  pose proof (keys_insert st.2 n (a - 1) ({[b - 1]} ∪ sa) ltac:(lia) Hkeys) as Hkeys1.
  destruct (proj2 (Hkeys1 (b - 1))) as [sb Hsb]; [lia|].
  unfold dict_add, dict_get. rewrite Hsa. cbn. rewrite Hsb. cbn.
  eexists. split; [done|]. split; [done|]. split.
  - cbn. apply keys_insert; [lia | done].
  - intros u v. cbn. rewrite (arc_insert _ _ _ _ u v Hsb), (arc_insert _ _ _ _ u v Hsa).
    rewrite Harc. unfold recorded2. rewrite !elem_of_app, !list_elem_of_singleton.
    split.
    + intros [[-> ->]|[[-> ->]|[Hr|Hr]]]; [right; right| left; right | tauto | tauto];
        repeat f_equal; lia.
    + intros [[Hr|[= ? ?]]|[Hr|[= ? ?]]]; [tauto | right; left; lia | tauto | left; lia].
Qed.

Lemma weighted_register n pre e st :
  weighted_state n pre st → valid_arc n e →
  ∃ st', Weighted.register_arc n st e = Ok st' ∧ weighted_state n (pre ++ [e]) st'.
Proof.
  intros (Hsq & Hkeys & Harc & Hcell) He.
  destruct e as [|[a| |] [|[b| |] [|[w| |] [|]]]]; try done.
  cbn in He. apply andb_True in He as [Ha Hb].
  unfold node_id in Ha, Hb. apply bool_decide_unpack in Ha, Hb.
  unfold Weighted.register_arc. rewrite bool_decide_eq_false_2 by lia.
  destruct (setitem2_cell st.1 n (a - 1) (b - 1) w Hsq) as (M1 & -> & Hsq1 & Hcell1);
    [lia..|].
  destruct (proj2 (Hkeys (a - 1))) as [sa Hsa]; [lia|].
  cbn. unfold dict_add, dict_get. rewrite Hsa. cbn.
  eexists. split; [done|]. split; [done|]. split; [|split].
  - cbn. apply keys_insert; [lia | done].
  - intros u v. cbn. rewrite (arc_insert _ _ _ _ u v Hsa), Harc. unfold recorded3. split.
    + intros [[-> ->]|[x Hx]].
      * exists w. apply elem_of_app. right. apply list_elem_of_singleton.
        repeat f_equal; lia.
      * exists x. apply elem_of_app. by left.
    + intros [x Hx]. apply elem_of_app in Hx as [Hx|Hx]; [right; by exists x|].
      apply list_elem_of_singleton in Hx as [= ? ? ?]. left. lia.
  - intros u v. cbn. rewrite (arc_insert _ _ _ _ u v Hsa), Hcell1.
    case_decide as Huv.
    + intros _. destruct Huv as [-> ->]. exists w. split; [done|].
      apply elem_of_app. right. apply list_elem_of_singleton. repeat f_equal; lia.
    + intros [[-> ->]|Ha']; [lia|].
      destruct (Hcell u v Ha') as (x & Hx & Hin). exists x. split; [done|].
      apply elem_of_app. by left.
Qed.

Lemma fresh_arc n u v : ¬ arc (fresh_neighbors n) u v.
Proof.
  intros (s & Hs & Hv). rewrite fresh_neighbors_lookup in Hs.
  case_decide; [|done]. injection Hs as <-. set_solver.
Qed.

(** The graph the undirected constructor builds from valid records. *)
Lemma undirected_built n edges :
  Forall (λ e, valid_edge n e) edges →
  ∃ g, Ex02.init n edges = Ok g ∧ N g = n ∧ wf_graph g ∧
       ∀ u v, arc (neighbors g) u v ↔ recorded2 edges u v ∨ recorded2 edges v u.
Proof.
  intros Hall. unfold Ex02.init.
  destruct (for_each_prefix (Ex02.register_edge n) (undirected_state n)
              (λ e, valid_edge n e) edges (fresh_matrix n 0, fresh_neighbors n))
    as (st & -> & Hsq & Hkeys & Harc).
  - intros pre x st. apply undirected_register.
  - split; [apply fresh_square|]. split.
    + by destruct (fresh_consistent 0 n) as (_ & ? & _).
    + intros u v. cbn. split; [by intros ?%fresh_arc|].
      unfold recorded2. intros [?%elem_of_nil|?%elem_of_nil]; done.
  - done.
  - cbn. eexists. split; [done|]. split; [done|]. split; [|done].
    split; [done|]. cbn. intros u v Huv. apply Harc in Huv.
    assert (∀ a b, recorded2 edges a b → 0 ≤ a < n ∧ 0 ≤ b < n) as Hrec.
    { intros a b Hab. apply (proj1 (Forall_forall _ _) Hall) in Hab. cbn in Hab.
      apply andb_True in Hab as [Ha Hb]. unfold node_id in Ha, Hb.
      apply bool_decide_unpack in Ha, Hb. lia. }
    destruct Huv as [Hr|Hr]; apply Hrec in Hr; tauto.
Qed.

(** The graph the weighted constructor builds from valid records. *)
Lemma weighted_built n arcs :
  Forall (λ e, valid_arc n e) arcs →
  ∃ g, Weighted.init n arcs = Ok g ∧ N g = n ∧ wf_graph g ∧ square n (matrix g) ∧
       (∀ u v, arc (neighbors g) u v ↔ recorded3 arcs u v) ∧
       (∀ u v, arc (neighbors g) u v → [PInt (u + 1); PInt (v + 1); PInt (weight g u v)] ∈ arcs).
Proof.
  intros Hall. unfold Weighted.init.
  destruct (for_each_prefix (Weighted.register_arc n) (weighted_state n)
              (λ e, valid_arc n e) arcs (fresh_matrix n inf, fresh_neighbors n))
    as (st & -> & Hsq & Hkeys & Harc & Hcell).
  - intros pre x st. apply weighted_register.
  - split; [apply fresh_square|]. split; [|split].
    + by destruct (fresh_consistent 0 n) as (_ & ? & _).
    + intros u v. cbn. split; [by intros ?%fresh_arc|].
      intros [w ?%elem_of_nil]. done.
    + intros u v. cbn. by intros ?%fresh_arc.
  - done.
  - cbn. eexists. split; [done|]. split; [done|]. split; [|split; [done|split; [done|]]].
    + split; [done|]. cbn. intros u v Huv. apply Harc in Huv as [w Hw].
      apply (proj1 (Forall_forall _ _) Hall) in Hw. cbn in Hw.
      apply andb_True in Hw as [Ha Hb]. unfold node_id in Ha, Hb.
      apply bool_decide_unpack in Ha, Hb. lia.
    + intros u v Huv. destruct (Hcell u v Huv) as (x & Hx & Hin).
      unfold weight. cbn. by rewrite Hx.
Qed.

Lemma grown_iff (E E' : Z → Z → Prop) root p u :
  (∀ a b, E a b ↔ E' a b) → grown E root p u ↔ grown E' root p u.
Proof. intros HE. split; apply grown_mono; intros a b; apply HE. Qed.

Lemma is_path_iff_grown (E : Z → Z → Prop) root target p :
  is_path E root target p ↔ grown E root p target.
Proof. split; [apply is_path_grown | apply grown_is_path]. Qed.

Lemma record_weight (P : Z → bool) (f : list pyval → bool) arcs a b w :
  (∀ a b w, f [PInt a; PInt b; PInt w] = P w) →
  Forall (λ e, f e) arcs → [PInt a; PInt b; PInt w] ∈ arcs → P w.
Proof.
  intros Hf Hall Hin. apply (proj1 (Forall_forall _ _) Hall) in Hin.
  by rewrite Hf in Hin.
Qed.

(** Discharges a [Forall] of decidable conditions on a literal list of records. *)
Ltac check_records :=
  repeat first [apply Forall_nil | apply Forall_cons_2 | split | exact I].

(** C2.  On a graph built by the weighted constructor from records with
    identifiers in [1, N] and non-negative weights, for nodes [root] and
    [target] of the graph: [dijkstra] returns 0 when they are equal;
    otherwise it returns [inf] when no path of arcs leads from [root] to
    [target], and the least total weight of such a path when one exists; and
    the loop returns the popped cost as soon as the popped node is the
    target. *)
Theorem dijkstra_minimal_cost {order : SetIteration} (n : Z) (arcs : list (list pyval))
    (g : Graph) (root target : Z) :
  Forall (λ e, valid_arc n e ∧ nonneg_arc e) arcs →
  Weighted.init n arcs = Ok g → 0 ≤ root < n → 0 ≤ target < n →
  (root = target → Ex05.dijkstra g root target = Some (Ok 0)) ∧
  (root ≠ target →
     ∃ c, Ex05.dijkstra g root target = Some (Ok c) ∧
       ((∀ w, ¬ is_path (arc (neighbors g)) root target w) → c = inf) ∧
       ((∃ w, is_path (arc (neighbors g)) root target w) →
          (∃ p, is_path (arc (neighbors g)) root target p ∧ path_cost (weight g) p = c) ∧
          ∀ w, is_path (arc (neighbors g)) root target w → c ≤ path_cost (weight g) w)) ∧
  (∀ fuel h H cost rest, heappop h = Ok ((cost, target), rest) →
     Ex05.dijkstra_loop g target (S fuel) h H = Some (Ok cost)).
Proof.
  intros Hall Hg Hr Ht.
  destruct (weighted_built n arcs) as (g' & Hg' & HN & Hwf & Hsq & Harc & Hw).
  { eapply Forall_impl; [exact Hall|]. by intros e [? _]. }
  assert (g' = g) as -> by congruence. rewrite <- HN in Hr, Hsq.
  split; [|split].
  - intros ->. unfold Ex05.dijkstra. by rewrite decide_True.
  - intros Hne.
    destruct (dijkstra_least g root target Hwf Hsq) as (c & Hc & Hpost); [|done..|].
    { intros u v Huv. apply Hw in Huv.
      assert (Forall (λ e, nonneg_arc e) arcs) as Hnn.
      { eapply Forall_impl; [exact Hall|]. by intros e [_ ?]. }
      pose proof (record_weight (λ w, bool_decide (0 ≤ w)) nonneg_arc arcs _ _ _
                    ltac:(done) Hnn Huv) as Hpos.
      by apply bool_decide_unpack in Hpos. }
    exists c. split; [done|]. destruct Hpost as [[-> Hnone]|(p & Hp & Hcost & Hmin)].
    + split; [done|]. intros [w Hw']. apply is_path_iff_grown in Hw'. by apply Hnone in Hw'.
    + split.
      * intros Hnone. apply is_path_iff_grown in Hp. by apply Hnone in Hp.
      * intros _. split.
        -- exists p. split; [by apply is_path_iff_grown | done].
        -- intros w Hw'. by apply Hmin, is_path_iff_grown.
  - intros fuel h H cost rest Hpop. destruct h as [|x h]; [done|].
    cbn [Ex05.dijkstra_loop]. rewrite Hpop. by rewrite decide_True.
Qed.

Lemma dijkstra_minimal_cost_witness :
  ∃ g, Weighted.init 3 [[PInt 1; PInt 2; PInt 5]; [PInt 2; PInt 3; PInt 7];
                        [PInt 1; PInt 3; PInt 20]] = Ok g ∧
  (0 = 2 → @Ex05.dijkstra elements_iteration g 0 2 = Some (Ok 0)) ∧
  (0 ≠ 2 →
     ∃ c, @Ex05.dijkstra elements_iteration g 0 2 = Some (Ok c) ∧
       ((∀ w, ¬ is_path (arc (neighbors g)) 0 2 w) → c = inf) ∧
       ((∃ w, is_path (arc (neighbors g)) 0 2 w) →
          (∃ p, is_path (arc (neighbors g)) 0 2 p ∧ path_cost (weight g) p = c) ∧
          ∀ w, is_path (arc (neighbors g)) 0 2 w → c ≤ path_cost (weight g) w)) ∧
  (∀ fuel h H cost rest, heappop h = Ok ((cost, 2), rest) →
     @Ex05.dijkstra_loop elements_iteration g 2 (S fuel) h H = Some (Ok cost)).
Proof.
  eexists. split; [vm_compute; reflexivity|].
  apply (@dijkstra_minimal_cost elements_iteration 3
           [[PInt 1; PInt 2; PInt 5]; [PInt 2; PInt 3; PInt 7]; [PInt 1; PInt 3; PInt 20]]).
  - check_records.
  - vm_compute. reflexivity.
  - lia.
  - lia.
Defined.

(** ** Breadth-first search and Dijkstra on unit weights *)

Lemma ends_valid n e : valid_arc n e → valid_edge n (ends e).
Proof. destruct e as [|[a| |] [|[b| |] [|[w| |] [|]]]]; done. Qed.

Lemma ends_recorded n arcs u v :
  Forall (λ e, valid_arc n e) arcs →
  recorded2 (ends <$> arcs) u v ↔ recorded3 arcs u v.
Proof.
  intros Hall. unfold recorded2, recorded3. rewrite list_elem_of_fmap. split.
  - intros (e & He & Hin). pose proof (proj1 (Forall_forall _ _) Hall e Hin) as Hv.
    destruct e as [|[a| |] [|[b| |] [|[w| |] [|]]]]; try done.
    cbn in He. injection He as <- <-. by exists w.
  - intros [w Hw]. by exists [PInt (u + 1); PInt (v + 1); PInt w].
Qed.

Lemma unit_path_cost (E : Z → Z → Prop) (wt : Z → Z → Z) root p u :
  (∀ a b, E a b → wt a b = 1) → grown E root p u → path_cost wt p = bfs_distance p.
Proof.
  intros Hunit. unfold bfs_distance. induction 1 as [|p u v Hp IH HE]; [done|].
  rewrite (path_cost_snoc wt p u v) by (by eapply grown_last).
  rewrite IH, (Hunit u v HE), length_app. cbn. lia.
Qed.

(** C7 (as amended).  For records with identifiers in [1, N] and weight one,
    each arc coming with its reverse, and distinct nodes [root] and [target]
    with a path of arcs from [root] to [target], the length of the path
    [bfs] returns on the graph of ex02, minus one, is the cost [dijkstra]
    returns on the weighted graph. *)
Theorem bfs_dijkstra_agree {order : SetIteration} (n : Z) (arcs : list (list pyval))
    (gu gw : Graph) (root target : Z) :
  Forall (λ e, valid_arc n e ∧ unit_arc e) arcs →
  (∀ u v, recorded3 arcs u v → recorded3 arcs v u) →
  Ex02.init n (ends <$> arcs) = Ok gu → Weighted.init n arcs = Ok gw →
  0 ≤ root < n → 0 ≤ target < n → root ≠ target →
  (∃ w, is_path (recorded3 arcs) root target w) →
  ∃ p c, Ex02.bfs gu root target = Some (Ok p) ∧
         Ex05.dijkstra gw root target = Some (Ok c) ∧ bfs_distance p = c.
Proof.
  intros Hall Hmirror Hgu Hgw Hr Ht Hne [w0 Hw0].
  assert (Forall (λ e, valid_arc n e) arcs) as Hvalid.
  { eapply Forall_impl; [exact Hall|]. by intros e [? _]. }
  assert (Forall (λ e, unit_arc e) arcs) as Hunit.
  { eapply Forall_impl; [exact Hall|]. by intros e [_ ?]. }
  destruct (undirected_built n (ends <$> arcs)) as (gu' & Hgu' & HNu & Hwfu & Harcu).
  { apply Forall_fmap. eapply Forall_impl; [exact Hvalid|]. intros e. apply ends_valid. }
  assert (gu' = gu) as -> by congruence.
  destruct (weighted_built n arcs Hvalid) as (gw' & Hgw' & HNw & Hwfw & Hsq & Harcw & Hw).
  assert (gw' = gw) as -> by congruence.
  assert (∀ a b, arc (neighbors gw) a b → weight gw a b = 1) as Hone.
  { intros a b Hab. apply Hw in Hab.
    pose proof (record_weight (λ w, bool_decide (w = 1)) unit_arc arcs _ _ _
                  ltac:(done) Hunit Hab) as H1.
    by apply bool_decide_unpack in H1. }
  assert (∀ a b, arc (neighbors gu) a b ↔ arc (neighbors gw) a b) as Hsame.
  { intros a b. rewrite Harcu, Harcw, !(ends_recorded n arcs) by done.
    split; [intros [?|?]; auto | auto]. }
  assert (grown (arc (neighbors gw)) root w0 target) as Hreach.
  { apply is_path_iff_grown in Hw0. eapply grown_iff, Hw0. intros a b. apply Harcw. }
  destruct (bfs_shortest gu root target Hwfu ltac:(lia) Hne) as (p & Hp & Hpost).
  rewrite <- HNw in Hsq.
  destruct (dijkstra_least gw root target Hwfw Hsq) as (c & Hc & Hcost); [|lia|done|].
  { intros a b Hab. rewrite (Hone a b Hab). lia. }
  exists p, c. split; [done|]. split; [done|].
  destruct Hpost as [[-> Hnone]|[Hgp Hmin]].
  { exfalso. eapply Hnone, grown_iff, Hreach. apply Hsame. }
  destruct Hcost as [[-> Hnone]|(q & Hq & Hqc & Hleast)].
  { exfalso. by eapply Hnone. }
  assert (grown (arc (neighbors gw)) root p target) as Hgp'.
  { eapply grown_iff, Hgp. intros a b. symmetry. apply Hsame. }
  assert (grown (arc (neighbors gu)) root q target) as Hq'.
  { eapply grown_iff, Hq. apply Hsame. }
  pose proof (Hleast p Hgp') as Hle. pose proof (Hmin q Hq') as Hlen.
  rewrite (unit_path_cost _ _ _ _ _ Hone Hgp') in Hle.
  rewrite (unit_path_cost _ _ _ _ _ Hone Hq) in Hqc.
  unfold bfs_distance in *. lia.
Qed.

Lemma bfs_dijkstra_agree_witness :
  ∃ gu gw p c,
    Ex02.init 2 (ends <$> [[PInt 1; PInt 2; PInt 1]; [PInt 2; PInt 1; PInt 1]]) = Ok gu ∧
    Weighted.init 2 [[PInt 1; PInt 2; PInt 1]; [PInt 2; PInt 1; PInt 1]] = Ok gw ∧
    @Ex02.bfs elements_iteration gu 0 1 = Some (Ok p) ∧
    @Ex05.dijkstra elements_iteration gw 0 1 = Some (Ok c) ∧ bfs_distance p = c.
Proof.
  eexists _, _.
  destruct (@bfs_dijkstra_agree elements_iteration 2
              [[PInt 1; PInt 2; PInt 1]; [PInt 2; PInt 1; PInt 1]]
              {| N := 2; matrix := [[0; 1]; [1; 0]];
                 neighbors := {[ 0 := {[1]}; 1 := {[0]} ]} |}
              {| N := 2; matrix := [[inf; 1]; [1; inf]];
                 neighbors := {[ 0 := {[1]}; 1 := {[0]} ]} |} 0 1)
    as (p & c & Hp & Hc & Heq).
  - check_records.
  - intros u v [w Hw]. unfold recorded3.
    apply elem_of_cons in Hw as [Hw|Hw]; [|apply elem_of_cons in Hw as [Hw|Hw]].
    + injection Hw as Hu Hv _. exists 1. assert (u = 0) as -> by lia.
      assert (v = 1) as -> by lia. set_solver.
    + injection Hw as Hu Hv _. exists 1. assert (u = 1) as -> by lia.
      assert (v = 0) as -> by lia. set_solver.
    + by apply elem_of_nil in Hw.
  - vm_compute. reflexivity.
  - vm_compute. reflexivity.
  - lia.
  - lia.
  - lia.
  - exists [0; 1]. split; [done|]. split; [done|].
    intros k u v Hu Hv. destruct k as [|[|k]]; [|done|done].
    injection Hu as <-. injection Hv as <-. exists 1. set_solver.
  - exists p, c. split; [vm_compute; reflexivity|]. split; [vm_compute; reflexivity|].
    done.
Defined.

(** C7 as stated fails: the two scripts disagree when the target cannot be
    reached ([-1] against [inf]), when root and target are the same node
    ([-1] against [0]) and when an arc comes without its reverse, which the
    constructor of ex02 adds and the weighted one does not. *)
Lemma bfs_dijkstra_disagree :
  (∃ gu gw, Ex02.init 2 (ends <$> []) = Ok gu ∧ Weighted.init 2 [] = Ok gw ∧
     @Ex02.bfs elements_iteration gu 0 1 = Some (Ok []) ∧ bfs_distance [] = -1 ∧
     @Ex05.dijkstra elements_iteration gw 0 1 = Some (Ok inf)) ∧
  (∃ gu gw, Ex02.init 1 (ends <$> []) = Ok gu ∧ Weighted.init 1 [] = Ok gw ∧
     @Ex02.bfs elements_iteration gu 0 0 = Some (Ok []) ∧ bfs_distance [] = -1 ∧
     @Ex05.dijkstra elements_iteration gw 0 0 = Some (Ok 0)) ∧
  (∃ gu gw, Ex02.init 2 (ends <$> [[PInt 1; PInt 2; PInt 1]]) = Ok gu ∧
     Weighted.init 2 [[PInt 1; PInt 2; PInt 1]] = Ok gw ∧
     @Ex02.bfs elements_iteration gu 1 0 = Some (Ok [1; 0]) ∧ bfs_distance [1; 0] = 1 ∧
     @Ex05.dijkstra elements_iteration gw 1 0 = Some (Ok inf)).
Proof.
  repeat split; eexists _, _;
    (split; [vm_compute; reflexivity|]); (split; [vm_compute; reflexivity|]);
    repeat split; vm_compute; reflexivity.
Qed.

(** ** Cycle detection *)

Lemma pop_snoc {A} (S : list (list A)) p : Ex04.pop (S ++ [p]) = Ok (p, S).
Proof. unfold Ex04.pop. by rewrite last_snoc, removelast_last. Qed.

Lemma pop_nonempty {A} (S : list (list A)) :
  S ≠ [] → ∃ S' p, S = S' ++ [p] ∧ Ex04.pop S = Ok (p, S').
Proof.
  intros Hne. destruct (last S) as [p|] eqn:Hlast.
  - apply last_Some in Hlast as [S' ->]. exists S', p. split; [done | apply pop_snoc].
  - by apply last_None in Hlast.
Qed.

Lemma extend_paths_Some path nodes S S' :
  Ex04.extend_paths path nodes S = Some S' ↔
  (∀ v, v ∈ nodes → v ∉ path) ∧ S' = S ++ ((λ v, path ++ [v]) <$> nodes).
Proof.
  revert S. induction nodes as [|v nodes IH]; intros S; cbn.
  - rewrite app_nil_r. split; [intros [= <-]; split; [set_solver | done]|].
    by intros [_ ->].
  - case_decide as Hv.
    + split; [done|]. intros [Hall _]. exfalso. apply (Hall v); [set_solver | done].
    + rewrite IH, <- app_assoc. cbn. split.
      * intros [Hall ->]. split; [|done]. intros w Hw.
        apply elem_of_cons in Hw as [->|Hw]; [done | by apply Hall].
      * intros [Hall ->]. split; [|done]. intros w Hw. apply Hall. set_solver.
Qed.

Lemma extend_paths_None path nodes S :
  Ex04.extend_paths path nodes S = None → ∃ v, v ∈ nodes ∧ v ∈ path.
Proof.
  revert S. induction nodes as [|v nodes IH]; intros S; cbn; [done|].
  case_decide as Hv.
  - intros _. exists v. split; [set_solver | done].
  - intros Hrun. destruct (IH _ Hrun) as (w & Hw & Hin). exists w. split; [set_solver | done].
Qed.

Section paths_more.
Context (E : Z → Z → Prop).

Lemma grown_elem_head x p u : grown E x p u → x ∈ p.
Proof. intros Hp. apply grown_head in Hp. destruct p; [done|]. cbn in Hp. set_solver. Qed.

Lemma grown_elem_last x p u : grown E x p u → u ∈ p.
Proof. intros Hp. apply grown_last in Hp. by apply last_Some_elem_of. Qed.

(** The part of a path from one of its nodes on is a path from that node. *)
Lemma grown_suffix x p1 v p2 u :
  grown E x (p1 ++ v :: p2) u → grown E v (v :: p2) u.
Proof.
  intros Hp. apply grown_is_path in Hp as (_ & Hlast & Hstep).
  apply is_path_grown. split; [done|]. split.
  - by rewrite last_app_cons in Hlast.
  - intros k a b Ha Hb. apply (Hstep (length p1 + k)%nat).
    + by rewrite lookup_app_r, Nat.add_comm, Nat.add_sub by lia.
    + replace (S (length p1 + k)) with (length p1 + S k)%nat by lia.
      by rewrite lookup_app_r, Nat.add_comm, Nat.add_sub by lia.
Qed.

Lemma grown_app x p v q u :
  grown E x p v → grown E v q u → grown E x (p ++ tail q) u.
Proof.
  intros Hp. induction 1 as [|q u w Hq IH HE].
  - cbn. by rewrite app_nil_r.
  - assert (tail (q ++ [w]) = tail q ++ [w]) as ->.
    { apply grown_length in Hq. destruct q; [cbn in Hq; lia | done]. }
    rewrite app_assoc. by apply grown_snoc with u.
Qed.

(** A path with an arc from its end back into it contains a lasso. *)
Lemma grown_repeat x p u : grown E x p u → ¬ NoDup p → cyclic_from E x.
Proof.
  induction 1 as [|p u v Hp IH HE]; intros Hdup.
  - exfalso. apply Hdup. apply NoDup_singleton.
  - destruct (decide (NoDup p)) as [Hnd|Hnd]; [|by apply IH].
    exists p, u, v. split; [done|]. split; [done|]. split; [done|].
    destruct (decide (v ∈ p)) as [Hv|Hv]; [done|].
    exfalso. apply Hdup. apply NoDup_app. split; [done|]. split.
    + intros y Hy Hy'. apply list_elem_of_singleton in Hy' as ->. done.
    + apply NoDup_singleton.
Qed.

Lemma grown_back_arc x p u v : grown E x p u → E u v → v ∈ p → cyclic_from E x.
Proof.
  intros Hp HE Hv. destruct (decide (NoDup p)) as [Hnd|Hnd].
  - exists p, u, v. done.
  - by eapply grown_repeat.
Qed.

Lemma cyclic_from_reachable x p v : grown E x p v → cyclic_from E v → cyclic_from E x.
Proof.
  intros Hp (q & u & w & Hq & _ & HE & Hw).
  apply (grown_back_arc x (p ++ tail q) u w); [by eapply grown_app | done |].
  pose proof (grown_head _ _ _ _ Hq) as Hh. destruct q as [|y q]; [done|].
  cbn in Hh. injection Hh as ->. cbn.
  apply elem_of_cons in Hw as [->|Hw]; [|set_solver].
  apply elem_of_app. left. by eapply grown_elem_last.
Qed.

(** A lasso closes a walk, and a closed walk is a lasso. *)
Lemma cyclic_from_closed x :
  cyclic_from E x → ∃ v c, is_path E v v c ∧ (2 ≤ length c)%nat.
Proof.
  intros (p & u & v & Hp & _ & HE & Hv).
  apply list_elem_of_split in Hv as (p1 & p2 & ->).
  apply grown_suffix in Hp. exists v, ((v :: p2) ++ [v]). split.
  - apply grown_is_path. by apply grown_snoc with u.
  - rewrite length_app. cbn. lia.
Qed.

Lemma closed_cyclic_from x c :
  is_path E x x c → (2 ≤ length c)%nat → cyclic_from E x.
Proof.
  intros Hc Hlen. apply is_path_grown in Hc.
  inversion Hc as [Heq|p u v Hp HE Heq]; subst; [cbn in Hlen; lia|].
  apply (grown_back_arc x p u x Hp HE). by eapply grown_elem_head.
Qed.
End paths_more.

Section island.
Context {order : SetIteration} (g : Graph).
Hypothesis Hwf : wf_graph g.

Local Abbreviation E := (arc (neighbors g)).

Lemma grown_nodes_in_range root p u :
  0 ≤ root < N g → grown E root p u → ∀ v, v ∈ p → 0 ≤ v < N g.
Proof.
  intros Hr. induction 1 as [|p u v Hp IH HE]; intros w Hw.
  - by apply list_elem_of_singleton in Hw as ->.
  - apply elem_of_app in Hw as [Hw|Hw]; [by apply IH|].
    apply list_elem_of_singleton in Hw as ->. by apply (proj2 Hwf u).
Qed.

Lemma path_measure_app S1 S2 :
  path_measure g (S1 ++ S2) = (path_measure g S1 + path_measure g S2)%nat.
Proof. unfold path_measure. by rewrite fmap_app, sum_list_with_app. Qed.

Lemma path_measure_extended path (l : list Z) :
  path_measure g ((λ v, path ++ [v]) <$> l)
  = (length l * budget (pred (Z.to_nat (N g) - length path)))%nat.
Proof.
  unfold path_measure. induction l as [|v l IH]; cbn; [done|].
  rewrite IH, length_app. cbn.
  replace (Z.to_nat (N g) - (length path + 1))%nat
    with (pred (Z.to_nat (N g) - length path)) by lia.
  done.
Qed.

(** One iteration on a non-empty stack of paths from [root]. *)
Lemma island_loop_step root fuel Q H :
  0 ≤ root < N g → Q ≠ [] →
  (∀ p, p ∈ Q → ∃ u, grown E root p u ∧ NoDup p) →
  ∃ Q' path curr s,
    Q = Q' ++ [path] ∧ grown E root path curr ∧ NoDup path ∧
    neighbors g !! curr = Some s ∧
    Ex04.island_loop g (S fuel) Q H =
      match Ex04.extend_paths path (iter s) Q' with
      | None => Some (Ok (true, iter ({[curr]} ∪ H)))
      | Some Q'' => Ex04.island_loop g fuel Q'' ({[curr]} ∪ H)
      end.
Proof.
  intros Hr Hne Hpaths. destruct (pop_nonempty Q Hne) as (Q' & path & HS & Hpop).
  destruct (Hpaths path) as (curr & Hpath & Hnd); [set_solver|].
  assert (0 ≤ curr < N g) as Hcurr.
  { eapply grown_nodes_in_range; [done | done | by eapply grown_elem_last]. }
  destruct (proj2 (proj1 Hwf curr) Hcurr) as [s Hs].
  exists Q', path, curr, s. repeat split; try done.
  destruct Q as [|x S0]; [done|]. cbn [Ex04.island_loop]. rewrite Hpop.
  rewrite (grown_last _ _ _ _ Hpath). unfold dict_get. by rewrite Hs.
Qed.

Lemma island_loop_returns root fuel Q H :
  0 ≤ root < N g →
  (∀ p, p ∈ Q → ∃ u, grown E root p u ∧ NoDup p) →
  (path_measure g Q ≤ fuel)%nat →
  ∃ r, Ex04.island_loop g fuel Q H = Some r.
Proof.
  intros Hr. revert Q H. induction fuel as [|fuel IH]; intros Q H Hpaths Hfuel.
  - destruct Q as [|p Q]; [cbn; eauto|]. unfold path_measure in Hfuel. cbn in Hfuel.
    pose proof (budget_pos (Z.to_nat (N g) - length p)). lia.
  - destruct (decide (Q = [])) as [->|Hne]; [cbn; eauto|].
    destruct (island_loop_step root fuel Q H Hr Hne Hpaths)
      as (Q' & path & curr & s & -> & Hpath & Hnd & Hs & ->).
    destruct (Ex04.extend_paths path (iter s) Q') as [Q''|] eqn:Hext; [|eauto].
    apply extend_paths_Some in Hext as [Hfresh ->].
    assert (∀ v, v ∈ iter s → 0 ≤ v < N g) as Hsr.
    { intros v Hv. apply iter_elem in Hv. apply (proj2 Hwf curr). by exists s. }
    apply IH.
    + intros q Hq. apply elem_of_app in Hq as [Hq|Hq]; [apply Hpaths; set_solver|].
      apply list_elem_of_fmap in Hq as (v & -> & Hv). exists v. split.
      * apply grown_snoc with curr; [done|]. exists s. by rewrite <- iter_elem.
      * apply NoDup_app. split; [done|]. split; [|apply NoDup_singleton].
        intros y Hy Hy'. apply list_elem_of_singleton in Hy' as ->.
        by apply (Hfresh v).
    + rewrite path_measure_app, path_measure_extended.
      rewrite path_measure_app in Hfuel. unfold path_measure at 2 in Hfuel.
      cbn in Hfuel.
      assert (length (iter s ++ path) ≤ unvisited g ∅)%nat as Hcount.
      { apply unvisited_count.
        - apply NoDup_app. split; [apply iter_NoDup|]. split; [|done].
          intros v Hv. by apply Hfresh.
        - intros v Hv. split; [|set_solver].
          apply elem_of_app in Hv as [Hv|Hv]; [by apply Hsr|].
          by eapply grown_nodes_in_range. }
      rewrite unvisited_empty, length_app in Hcount.
      pose proof (budget_step (length (iter s)) (Z.to_nat (N g) - length path)
                    ltac:(lia)).
      lia.
Qed.

Lemma island_inv_step root Q' path curr s H :
  island_inv g root (Q' ++ [path]) H →
  grown E root path curr → NoDup path → neighbors g !! curr = Some s →
  (∀ v, v ∈ iter s → v ∉ path) →
  island_inv g root (Q' ++ ((λ v, path ++ [v]) <$> iter s)) ({[curr]} ∪ H).
Proof.
  intros Hinv Hpath Hnd Hs Hfresh. split.
  - intros q Hq. apply elem_of_app in Hq as [Hq|Hq].
    + apply (island_paths _ _ _ _ Hinv). set_solver.
    + apply list_elem_of_fmap in Hq as (v & -> & Hv). exists v. split.
      * apply grown_snoc with curr; [done|]. exists s. by rewrite <- iter_elem.
      * apply NoDup_app. split; [done|]. split; [|apply NoDup_singleton].
        intros y Hy Hy'. apply list_elem_of_singleton in Hy' as ->.
        by apply (Hfresh v).
  - intros v Hv. apply elem_of_union in Hv as [Hv|Hv].
    + apply elem_of_singleton in Hv as ->. eauto.
    + by apply (island_history _ _ _ _ Hinv).
  - intros p u v Hp Hpnd HE Hv.
    destruct (island_complete _ _ _ _ Hinv p u v Hp Hpnd HE Hv) as (q & Hq & Hpre).
    apply elem_of_app in Hq as [Hq|Hq]; [exists q; split; [set_solver | done]|].
    apply list_elem_of_singleton in Hq as ->. destruct Hpre as [rest ->].
    destruct rest as [|x rest].
    + rewrite app_nil_r in *.
      assert (u = curr) as ->.
      { apply grown_last in Hp, Hpath. congruence. }
      destruct HE as (s' & Hs' & Hvs). exfalso. apply (Hfresh v); [|done].
      apply iter_elem. congruence.
    + exists (path ++ [x]). split.
      * apply elem_of_app. right. apply list_elem_of_fmap. exists x. split; [done|].
        apply iter_elem.
        apply grown_is_path in Hp as (_ & _ & Hstep).
        destruct (Hstep (pred (length path)) curr x) as (s' & Hs' & Hx).
        -- rewrite lookup_app_l.
           ++ rewrite <- last_lookup. by eapply grown_last.
           ++ apply grown_length in Hpath. lia.
        -- replace (S (pred (length path))) with (length path)
             by (apply grown_length in Hpath; lia).
           by rewrite list_lookup_middle.
        -- congruence.
      * exists rest. by rewrite <- app_assoc.
Qed.

Lemma island_loop_correct root fuel Q H r :
  0 ≤ root < N g → island_inv g root Q H →
  Ex04.island_loop g fuel Q H = Some r →
  ∃ b connected, r = Ok (b, connected) ∧
    (b = true → cyclic_from E root) ∧
    (b = false → ¬ cyclic_from E root ∧ ∀ v, v ∈ connected → ∃ p, grown E root p v).
Proof.
  intros Hr. revert Q H. induction fuel as [|fuel IH]; intros Q H Hinv Hrun.
  - destruct Q; [|done]. cbn in Hrun. injection Hrun as <-.
    exists false, (iter H). split; [done|]. split; [done|]. intros _. split.
    + intros (p & u & v & Hp & Hnd & HE & Hv).
      destruct (island_complete _ _ _ _ Hinv p u v Hp Hnd HE Hv) as (q & Hq & _).
      by apply elem_of_nil in Hq.
    + intros v Hv. apply iter_elem in Hv. by apply (island_history _ _ _ _ Hinv).
  - destruct (decide (Q = [])) as [->|Hne].
    { cbn in Hrun. injection Hrun as <-.
      exists false, (iter H). split; [done|]. split; [done|]. intros _. split.
      + intros (p & u & v & Hp & Hnd & HE & Hv).
        destruct (island_complete _ _ _ _ Hinv p u v Hp Hnd HE Hv) as (q & Hq & _).
        by apply elem_of_nil in Hq.
      + intros v Hv. apply iter_elem in Hv. by apply (island_history _ _ _ _ Hinv). }
    destruct (island_loop_step root fuel Q H Hr Hne (island_paths _ _ _ _ Hinv))
      as (Q' & path & curr & s & -> & Hpath & Hnd & Hs & Hstep).
    rewrite Hstep in Hrun.
    destruct (Ex04.extend_paths path (iter s) Q') as [Q''|] eqn:Hext.
    + apply extend_paths_Some in Hext as [Hfresh ->].
      eapply IH, Hrun. by apply island_inv_step.
    + injection Hrun as <-. apply extend_paths_None in Hext as (v & Hv & Hin).
      exists true, (iter ({[curr]} ∪ H)). split; [done|]. split; [|done].
      intros _. apply (grown_back_arc E root path curr v Hpath); [|done].
      exists s. by rewrite <- iter_elem.
Qed.

Lemma island_inv_init root : island_inv g root [[root]] ∅.
Proof.
  split.
  - intros p Hp. apply list_elem_of_singleton in Hp as ->.
    exists root. split; [constructor | apply NoDup_singleton].
  - set_solver.
  - intros p u v Hp _ _ _. exists [root]. split; [set_solver|].
    apply grown_head in Hp. destruct p as [|x p]; [done|].
    cbn in Hp. injection Hp as ->. by exists p.
Qed.

Lemma island_has_cycle_correct root :
  0 ≤ root < N g →
  ∃ b connected, Ex04.island_has_cycle g root = Some (Ok (b, connected)) ∧
    (b = true → cyclic_from E root) ∧
    (b = false → ¬ cyclic_from E root ∧ ∀ v, v ∈ connected → ∃ p, grown E root p v).
Proof.
  intros Hr. unfold Ex04.island_has_cycle.
  destruct (island_loop_returns root (Ex04.island_fuel g) [[root]] ∅ Hr) as [r Hrun].
  - intros p Hp. by apply (island_paths _ _ _ _ (island_inv_init root)).
  - unfold path_measure, Ex04.island_fuel. cbn.
    pose proof (budget_mono (Z.to_nat (N g) - 1) (Z.to_nat (N g)) ltac:(lia)). lia.
  - destruct (island_loop_correct root _ _ _ r Hr (island_inv_init root) Hrun)
      as (b & connected & -> & Hb). eauto.
Qed.

Lemma has_cycle_loop_correct nodes (V : gset Z) :
  (∀ x, x ∈ nodes → 0 ≤ x < N g) → (∀ v, v ∈ V → ¬ cyclic_from E v) →
  ∃ b, Ex04.has_cycle_loop g nodes V = Some (Ok b) ∧
    (b = true → ∃ x, cyclic_from E x) ∧
    (b = false → ∀ x, x ∈ nodes → ¬ cyclic_from E x).
Proof.
  revert V. induction nodes as [|node nodes IH]; intros V Hnodes HV; cbn.
  - exists false. split; [done|]. split; [done|]. intros _ x Hx.
    by apply elem_of_nil in Hx.
  - assert (∀ x, x ∈ nodes → 0 ≤ x < N g) as Hrest by (intros; apply Hnodes; set_solver).
    case_decide as Hvis.
    + destruct (IH V Hrest HV) as (b & -> & Htrue & Hfalse).
      exists b. split; [done|]. split; [done|]. intros Hb x Hx.
      apply elem_of_cons in Hx as [->|Hx]; [by apply HV | by apply Hfalse].
    + destruct (island_has_cycle_correct node) as (b & connected & -> & Htrue & Hfalse);
        [apply Hnodes; set_solver|].
      destruct b.
      * exists true. split; [done|]. split; [eauto | done].
      * destruct (Hfalse eq_refl) as [Hnone Hreach].
        destruct (IH (V ∪ list_to_set connected) Hrest) as (b & -> & Htrue' & Hfalse').
        { intros v Hv. apply elem_of_union in Hv as [Hv|Hv]; [by apply HV|].
          apply elem_of_list_to_set in Hv. destruct (Hreach v Hv) as [p Hp].
          intros Hc. apply Hnone. by eapply cyclic_from_reachable. }
        exists b. split; [done|]. split; [done|]. intros Hb x Hx.
        apply elem_of_cons in Hx as [->|Hx]; [done | by apply Hfalse'].
Qed.

Lemma has_cycle_correct :
  ∃ b, Ex04.has_cycle g = Some (Ok b) ∧
    (b = true ↔ ∃ x c, is_path E x x c ∧ (2 ≤ length c)%nat).
Proof.
  destruct (has_cycle_loop_correct (range (N g)) ∅) as (b & Hrun & Htrue & Hfalse).
  - intros x. by rewrite range_elem.
  - set_solver.
  - exists b. split; [done|]. split.
    + intros Hb. destruct (Htrue Hb) as [x Hx]. by eapply cyclic_from_closed.
    + intros (x & c & Hc & Hlen). destruct b; [done|]. exfalso.
      apply (Hfalse eq_refl x); [|by eapply closed_cyclic_from].
      apply range_elem, (proj1 Hwf).
      destruct Hc as (Hh & _ & Hstep).
      destruct c as [|a [|b c]]; [cbn in Hlen; lia..|].
      cbn in Hh. injection Hh as ->.
      destruct (Hstep 0%nat x b eq_refl eq_refl) as (s & Hs & _). eauto.
Qed.
End island.

(** C3 (as amended).  On a graph built by the constructor of ex04 from
    records with identifiers in [1, N], [has_cycle] returns true exactly when
    the directed graph of the matrix has a closed walk of at least one arc (a
    self-loop, or a loop through two or more nodes, a pair of opposite arcs
    included), and false when it has none. *)
Theorem has_cycle_directed {order : SetIteration} (n : Z) (arcs : list (list pyval))
    (g : Graph) :
  Forall (λ e, valid_edge n e) arcs → Ex04.init n arcs = Ok g →
  ∃ b, Ex04.has_cycle g = Some (Ok b) ∧ (b = true ↔ Ex04.directed_cycle g).
Proof.
  intros Hall Hg. destruct (ex04_init_valid n arcs Hall) as (g' & Hg' & HN & Hc).
  assert (g' = g) as -> by congruence. rewrite <- HN in Hc.
  destruct (has_cycle_correct g (consistent_wf 0 g Hc)) as (b & Hrun & Hb).
  exists b. split; [done|]. rewrite Hb. unfold Ex04.directed_cycle.
  assert (∀ x c, is_path (arc (neighbors g)) x x c ↔ is_path (present 0 (matrix g)) x x c)
    as Hconv.
  { intros x c. rewrite !is_path_iff_grown. apply grown_iff.
    intros a b'. by apply consistent_arc with (N g). }
  split; intros (x & c & Hp & Hlen); exists x, c; (split; [by apply Hconv | done]).
Qed.

Lemma has_cycle_directed_witness :
  ∃ g, Ex04.init 3 [[PInt 1; PInt 2]; [PInt 2; PInt 3]; [PInt 1; PInt 3]] = Ok g ∧
  ∃ b, @Ex04.has_cycle elements_iteration g = Some (Ok b) ∧
       (b = true ↔ Ex04.directed_cycle g).
Proof.
  eexists. split; [vm_compute; reflexivity|].
  apply (@has_cycle_directed elements_iteration 3
           [[PInt 1; PInt 2]; [PInt 2; PInt 3]; [PInt 1; PInt 3]]).
  - check_records.
  - vm_compute. reflexivity.
Defined.

(** C3 as stated fails: one undirected edge supplied as a pair of opposite
    arcs is a tree, and [has_cycle] returns true on it. *)
Lemma has_cycle_on_mirrored_edge :
  ∃ g, Ex04.init 2 [[PInt 1; PInt 2]; [PInt 2; PInt 1]] = Ok g ∧
       @Ex04.has_cycle elements_iteration g = Some (Ok true).
Proof. eexists. split; vm_compute; reflexivity. Qed.

(** ** Prim *)

Lemma total_cost_snoc fins x :
  Proj02.total_cost (fins ++ [x]) = Proj02.total_cost fins + x.1.
Proof.
  unfold Proj02.total_cost. induction fins as [|y fins IH]; cbn; [lia|].
  rewrite IH. lia.
Qed.

Section prim.
Context {order : SetIteration} (g : Graph).
Hypothesis Hwf : wf_graph g.
Hypothesis Hsq : square (N g) (matrix g).

Local Abbreviation E := (arc (neighbors g)).

(** One iteration while some node is not finalized and the queue is not
    empty. *)
Lemma prim_loop_step fuel h H acc :
  h ≠ [] → nodes_in_range g h → Z.of_nat (size H) < N g →
  ∃ m s h',
    m ∈ h ∧ neighbors g !! m.2 = Some s ∧
    (∀ x, x ∈ h' ↔ x ∈ remove_first m h ∨
          ∃ v, v ∈ s ∧ (v ∉ {[m.2]} ∪ H) ∧ x = (weight g m.2 v, v)) ∧
    (length h' ≤ size s + length (remove_first m h))%nat ∧
    Proj02.prim_loop g (S fuel) h H acc =
      if decide (m.2 ∈ H) then Proj02.prim_loop g fuel (remove_first m h) H acc
      else Proj02.prim_loop g fuel h' ({[m.2]} ∪ H) (acc + m.1).
Proof.
  intros Hne Hrange Hsize. destruct (heappop_spec h Hne) as (m & Hpop & Hin & _).
  pose proof (Hrange m Hin) as Hm.
  destruct (proj2 (proj1 Hwf m.2) Hm) as [s Hs].
  destruct (push_neighbors_spec g m.2 (λ w, w) ({[m.2]} ∪ H) (iter s) (remove_first m h) Hsq Hm)
    as (h' & Hpush & Helem & Hperm).
  { intros v Hv. apply iter_elem in Hv. apply (proj2 Hwf m.2). by exists s. }
  exists m, s, h'. split; [done|]. split; [done|]. split; [|split].
  - intros x. rewrite Helem. split.
    + intros [Hx|(v & Hv & Hn & ->)]; [by left|].
      right. exists v. rewrite <- iter_elem. done.
    + intros [Hx|(v & Hv & Hn & ->)]; [by left|].
      right. exists v. rewrite iter_elem. done.
  - rewrite Hperm, length_app, length_fmap.
    pose proof (length_filter (λ v, v ∉ {[m.2]} ∪ H) (iter s)) as Hlen.
    rewrite iter_length in Hlen. lia.
  - cbn [Proj02.prim_loop]. rewrite bool_decide_eq_true_2 by done. rewrite Hpop.
    destruct m as [cost curr]. cbn [fst snd] in *.
    case_decide; [done|]. unfold dict_get. rewrite Hs. by rewrite Hpush.
Qed.

Lemma prim_loop_returns fuel h H acc :
  nodes_in_range g h → (length h + pending g H (range (N g)) < fuel)%nat →
  ∃ r, Proj02.prim_loop g fuel h H acc = Some r.
Proof.
  revert h H acc. induction fuel as [|fuel IH]; intros h H acc Hrange Hfuel; [lia|].
  destruct (decide (Z.of_nat (size H) < N g)) as [Hsize|Hsize].
  - destruct (decide (h = [])) as [->|Hne].
    { cbn. rewrite bool_decide_eq_true_2 by done. eauto. }
    destruct (prim_loop_step fuel h H acc Hne Hrange Hsize)
      as (m & s & h' & Hin & Hs & Helem & Hlen & ->).
    pose proof (remove_first_length m h Hin) as Hrem.
    case_decide as Hvis.
    + apply IH; [|lia]. intros x Hx. apply Hrange. by eapply remove_first_elem.
    + apply IH.
      * intros x Hx. apply Helem in Hx as [Hx|(v & Hv & _ & ->)].
        -- apply Hrange. by eapply remove_first_elem.
        -- cbn. apply (proj2 Hwf m.2). by exists s.
      * pose proof (pending_insert g H m.2 s (range (N g)) Hvis) as Hp.
        rewrite range_elem in Hp. specialize (Hp (Hrange m Hin) Hs). lia.
  - cbn. rewrite bool_decide_eq_false_2 by done. eauto.
Qed.

Lemma prim_inv_skip h H acc fins m :
  prim_inv g h H acc fins → m ∈ h → m.2 ∈ H →
  prim_inv g (remove_first m h) H acc fins.
Proof.
  intros Hinv Hin Hvis.
  assert (∀ x, x ∈ h → x = m ∨ x ∈ remove_first m h) as Hkeep
    by (intros; by apply remove_first_other).
  split; try apply Hinv.
  - intros c v Hcv. apply remove_first_elem in Hcv.
    destruct (prim_entries _ _ _ _ _ Hinv c v Hcv) as [[-> _]|Hu]; [|by right].
    rewrite (prim_hist _ _ _ _ _ Hinv) in Hvis. set_solver.
  - destruct (prim_root _ _ _ _ _ Hinv) as [H0|H0]; [by left|].
    destruct (Hkeep _ H0) as [<-|H0']; [by left | by right].
  - intros u v Hu HE.
    destruct (prim_closed _ _ _ _ _ Hinv u v Hu HE) as [Hv|[c Hc]]; [by left|].
    destruct (Hkeep _ Hc) as [<-|Hc']; [by left | right; eauto].
  - intros x Hx. apply (prim_range _ _ _ _ _ Hinv). by eapply remove_first_elem.
Qed.

Lemma prim_inv_finalize h H acc fins m s h' :
  prim_inv g h H acc fins → m ∈ h → m.2 ∉ H → neighbors g !! m.2 = Some s →
  (∀ x, x ∈ h' ↔ x ∈ remove_first m h ∨
        ∃ v, v ∈ s ∧ (v ∉ {[m.2]} ∪ H) ∧ x = (weight g m.2 v, v)) →
  prim_inv g h' ({[m.2]} ∪ H) (acc + m.1) (fins ++ [m]).
Proof.
  intros Hinv Hin Hvis Hs Helem. destruct m as [cost curr]. cbn [fst snd] in *.
  assert (∀ x, x ∈ h → x = (cost, curr) ∨ x ∈ h') as Hkeep.
  { intros x Hx. destruct (remove_first_other (cost, curr) x h Hx) as [->|Hx'];
      [by left|]. right. apply Helem. by left. }
  pose proof (prim_hist _ _ _ _ _ Hinv) as HH.
  split.
  - rewrite total_cost_snoc. cbn. by rewrite (prim_acc _ _ _ _ _ Hinv).
  - rewrite fmap_snoc, list_to_set_snoc_L. cbn. rewrite <- HH. set_solver.
  - rewrite fmap_snoc. apply NoDup_app. split; [apply Hinv|].
    split; [|apply NoDup_singleton]. intros y Hy Hy'.
    apply list_elem_of_singleton in Hy'. cbn in Hy'. subst y.
    apply Hvis. rewrite HH. by apply elem_of_list_to_set.
  - intros k c v Hk. destruct (decide (k < length fins)%nat) as [Hlt|Hge].
    + rewrite lookup_app_l in Hk by done.
      destruct (prim_trace _ _ _ _ _ Hinv k c v Hk) as [?|(k' & c' & u & Hk' & Hu & Hrest)];
        [by left|].
      right. exists k', c', u. split; [done|]. split; [|done].
      rewrite lookup_app_l by lia. done.
    + apply lookup_lt_Some in Hk as Hbound. rewrite length_app in Hbound. cbn in Hbound.
      assert (k = length fins) as -> by lia.
      rewrite list_lookup_middle in Hk by done. injection Hk as <- <-.
      destruct (prim_entries _ _ _ _ _ Hinv cost curr Hin) as [[-> ->]|(u & Hu & HE & Hc)].
      * left. apply list_elem_of_singleton in Hin. by injection Hin as -> ->.
      * right. rewrite HH in Hu. apply elem_of_list_to_set in Hu.
        apply list_elem_of_fmap in Hu as ([c' u'] & -> & Hu).
        apply list_elem_of_lookup in Hu as [k' Hk'].
        exists k', c', u'. split; [by eapply lookup_lt_Some|].
        split; [|done]. by apply lookup_app_l_Some.
  - intros c v Hcv. right. apply Helem in Hcv as [Hcv|(v' & Hv' & Hn & [= -> ->])].
    + apply remove_first_elem in Hcv as Hcv'.
      destruct (prim_entries _ _ _ _ _ Hinv c v Hcv') as [[_ ->]|(u & Hu & Hrest)].
      * cbn in Hcv. case_decide; [by apply elem_of_nil in Hcv|].
        apply list_elem_of_singleton in Hin. done.
      * exists u. split; [set_solver | done].
    + exists curr. split; [set_solver|]. split; [by exists s | done].
  - destruct (prim_root _ _ _ _ _ Hinv) as [H0|H0]; [left; set_solver|].
    destruct (Hkeep _ H0) as [[= <- <-]|H0']; [left; set_solver | by right].
  - intros u v Hu HE.
    destruct (decide (v ∈ {[curr]} ∪ H)) as [Hv|Hv]; [by left|]. right.
    apply elem_of_union in Hu as [Hu|Hu].
    + apply elem_of_singleton in Hu as ->. exists (weight g curr v).
      apply Helem. right. exists v. split; [|done].
      destruct HE as (s' & Hs' & Hv'). congruence.
    + destruct (prim_closed _ _ _ _ _ Hinv u v Hu HE) as [HvH|[c Hc]]; [set_solver|].
      destruct (Hkeep _ Hc) as [[= -> ->]|Hc']; [set_solver | eauto].
  - intros v Hv. apply elem_of_union in Hv as [Hv|Hv];
      [|by apply (prim_reach _ _ _ _ _ Hinv)].
    apply elem_of_singleton in Hv as ->.
    destruct (prim_entries _ _ _ _ _ Hinv cost curr Hin) as [[_ ->]|(u & Hu & HE & _)].
    + apply list_elem_of_singleton in Hin. injection Hin as -> ->.
      exists [0]. constructor.
    + destruct (prim_reach _ _ _ _ _ Hinv u Hu) as [p Hp].
      exists (p ++ [curr]). by apply grown_snoc with u.
  - intros x Hx. apply Helem in Hx as [Hx|(v & Hv & _ & ->)].
    + apply (prim_range _ _ _ _ _ Hinv). by eapply remove_first_elem.
    + cbn. apply (proj2 Hwf curr). by exists s.
Qed.

Hypothesis Hnodes : 0 < N g.

Lemma prim_history_in_range h H acc fins v :
  prim_inv g h H acc fins → v ∈ H → 0 ≤ v < N g.
Proof.
  intros Hinv Hv. destruct (prim_reach _ _ _ _ _ Hinv v Hv) as [p Hp].
  eapply grown_in_range; [done | | done]. lia.
Qed.

Lemma prim_loop_correct fuel h H acc fins r :
  prim_inv g h H acc fins → Proj02.prim_loop g fuel h H acc = Some r → prim_post g r.
Proof.
  revert h H acc fins. induction fuel as [|fuel IH]; intros h H acc fins Hinv Hrun.
  - cbn in Hrun. case_bool_decide as Hsize; [done|]. injection Hrun as <-.
    left. exists fins. pose proof (prim_hist _ _ _ _ _ Hinv) as HH.
    assert (H = list_to_set (range (N g))) as Hall.
    { apply set_subseteq_size_eq.
      - intros v Hv. apply elem_of_list_to_set, range_elem.
        by eapply prim_history_in_range.
      - unfold range. rewrite size_list_to_set by apply NoDup_seqZ.
        rewrite length_seqZ. lia. }
    split; [by rewrite (prim_acc _ _ _ _ _ Hinv)|]. split; [apply Hinv|].
    split; [apply Hinv|]. split.
    + intros v. rewrite <- range_elem, <- (elem_of_list_to_set (C := gset Z) v (range _)).
      rewrite <- Hall, HH. by rewrite elem_of_list_to_set.
    + intros v Hv. apply (prim_reach _ _ _ _ _ Hinv).
      rewrite Hall. by apply elem_of_list_to_set, range_elem.
  - destruct (decide (Z.of_nat (size H) < N g)) as [Hsize|Hsize].
    + destruct (decide (h = [])) as [->|Hne].
      { cbn in Hrun. rewrite bool_decide_eq_true_2 in Hrun by done.
        injection Hrun as <-. right. split; [done|].
        assert (∃ v, 0 ≤ v < N g ∧ v ∉ H) as (v & Hv & HvH).
        { destruct (size_pos_elem_of (list_to_set (range (N g)) ∖ H : gset Z)) as [v Hv].
          - pose proof (size_union_alt H (list_to_set (range (N g)))) as Hu.
            pose proof (subseteq_size (list_to_set (range (N g))) (H ∪ list_to_set (range (N g)))
                          ltac:(set_solver)) as Hle.
            unfold range in Hle at 1.
            rewrite size_list_to_set, length_seqZ in Hle by apply NoDup_seqZ. lia.
          - apply elem_of_difference in Hv as [Hv HvH]. exists v. split; [|done].
            by apply elem_of_list_to_set, range_elem in Hv. }
        exists v. split; [done|]. intros p Hp. apply HvH.
        assert (∀ u q, grown E 0 q u → u ∈ H) as Hclosed.
        { intros u q. induction 1 as [|q u w Hq IHq HE].
          - destruct (prim_root _ _ _ _ _ Hinv) as [?|H0]; [done|].
            by apply elem_of_nil in H0.
          - destruct (prim_closed _ _ _ _ _ Hinv u w IHq HE) as [?|[c Hc]]; [done|].
            by apply elem_of_nil in Hc. }
        by eapply Hclosed. }
      destruct (prim_loop_step fuel h H acc Hne (prim_range _ _ _ _ _ Hinv) Hsize)
        as (m & s & h' & Hin & Hs & Helem & _ & Hstep).
      rewrite Hstep in Hrun. case_decide as Hvis.
      * eapply IH, Hrun. by apply prim_inv_skip.
      * eapply IH, Hrun. by eapply prim_inv_finalize.
    + destruct fuel; cbn in Hrun; rewrite bool_decide_eq_false_2 in Hrun by done;
        injection Hrun as <-.
      all: left; exists fins; pose proof (prim_hist _ _ _ _ _ Hinv) as HH.
      all: assert (H = list_to_set (range (N g))) as Hall by
        (apply set_subseteq_size_eq;
         [intros v Hv; apply elem_of_list_to_set, range_elem;
          by eapply prim_history_in_range
         |unfold range; rewrite size_list_to_set by apply NoDup_seqZ;
          rewrite length_seqZ; lia]).
      all: split; [by rewrite (prim_acc _ _ _ _ _ Hinv)|]; split; [apply Hinv|];
        split; [apply Hinv|]; split;
        [intros v; rewrite <- range_elem,
           <- (elem_of_list_to_set (C := gset Z) v (range _));
         rewrite <- Hall, HH; by rewrite elem_of_list_to_set
        |intros v Hv; apply (prim_reach _ _ _ _ _ Hinv);
         rewrite Hall; by apply elem_of_list_to_set, range_elem].
Qed.

Lemma prim_inv_init : prim_inv g [(0, 0)] ∅ 0 [].
Proof.
  split; try done.
  - constructor.
  - intros c v Hcv. by left.
  - right. set_solver.
  - intros x Hx. apply list_elem_of_singleton in Hx as ->. cbn. lia.
Qed.

Lemma prim_total : ∃ r, Proj02.prim g = Some r ∧ prim_post g r.
Proof.
  unfold Proj02.prim.
  destruct (prim_loop_returns (Proj02.prim_fuel g) [(0, 0)] ∅ 0) as [r Hr].
  - apply (prim_range _ _ _ _ _ prim_inv_init).
  - unfold Proj02.prim_fuel. cbn. lia.
  - exists r. split; [done|]. by eapply prim_loop_correct, Hr; apply prim_inv_init.
Qed.
End prim.

(** C4.  On a graph built by the weighted constructor from records with
    identifiers in [1, N]: when every node can be reached from node 0, [prim]
    returns the sum of the popped costs of a run that finalizes every node
    exactly once, node 0 first at cost 0 and every other node at the weight of
    an arc from a node finalized before it; when some node cannot be reached
    from node 0 it fails with the [IndexError] of popping the empty queue.
    The loop returns as soon as the number of finalized nodes is [N], and
    fails when the queue is empty before that. *)
Theorem prim_outcome {order : SetIteration} (n : Z) (arcs : list (list pyval)) (g : Graph) :
  Forall (λ e, valid_arc n e) arcs → Weighted.init n arcs = Ok g →
  ((∀ v, 0 ≤ v < n → ∃ p, is_path (arc (neighbors g)) 0 v p) →
     ∃ fins, Proj02.prim g = Some (Ok (Proj02.total_cost fins)) ∧
             Proj02.attaches g fins ∧ NoDup fins.*2 ∧
             (∀ v, v ∈ fins.*2 ↔ 0 ≤ v < n) ∧ length fins = Z.to_nat n) ∧
  ((∃ v, 0 ≤ v < n ∧ ∀ p, ¬ is_path (arc (neighbors g)) 0 v p) →
     Proj02.prim g = Some (Raise IndexError)) ∧
  (∀ fuel h H acc, Z.of_nat (size H) = n →
     Proj02.prim_loop g fuel h H acc = Some (Ok acc)) ∧
  (∀ fuel H acc, Z.of_nat (size H) < n →
     Proj02.prim_loop g (S fuel) [] H acc = Some (Raise IndexError)).
Proof.
  intros Hall Hg.
  destruct (weighted_built n arcs Hall) as (g' & Hg' & HN & Hwf & Hsq & _).
  assert (g' = g) as -> by congruence. rewrite <- HN in *. clear HN.
  assert (∀ fuel h H acc, N g ≤ Z.of_nat (size H) →
            Proj02.prim_loop g fuel h H acc = Some (Ok acc)) as Hexit.
  { intros fuel h H acc Hsize. destruct fuel; cbn; by rewrite bool_decide_eq_false_2 by lia. }
  split; [|split; [|split; [intros; apply Hexit; lia|]]].
  - intros Hconn. destruct (decide (0 < N g)) as [Hpos|Hneg].
    + destruct (prim_total g Hwf Hsq Hpos) as (r & Hr & [Hok|[_ (v & Hv & Hnone)]]).
      * destruct Hok as (fins & -> & Htrace & Hnd & Hcover & _).
        exists fins. split; [done|]. split; [done|]. split; [done|]. split; [done|].
        rewrite <- (length_fmap snd fins).
        rewrite <- (size_list_to_set (C := gset Z) _ Hnd).
        assert (list_to_set fins.*2 = (list_to_set (range (N g)) : gset Z)) as ->.
        { apply set_eq. intros v. rewrite !elem_of_list_to_set, range_elem. apply Hcover. }
        unfold range. rewrite size_list_to_set by apply NoDup_seqZ. apply length_seqZ.
      * exfalso. destruct (Hconn v Hv) as [p Hp]. apply is_path_iff_grown in Hp.
        by apply Hnone in Hp.
    + exists []. split; [apply (Hexit _ _ ∅ 0); rewrite size_empty; lia|].
      split; [by intros k c v ?|]. split; [constructor|]. split; [|cbn; lia].
      intros v. split; [by intros ?%elem_of_nil | lia].
  - intros (v & Hv & Hnone). destruct (prim_total g Hwf Hsq ltac:(lia)) as (r & Hr & Hpost).
    rewrite Hr. f_equal. destruct Hpost as [(fins & _ & _ & _ & _ & Hreach)|[-> _]]; [|done].
    exfalso. destruct (Hreach v Hv) as [p Hp]. apply is_path_iff_grown in Hp.
    by apply Hnone in Hp.
  - intros fuel H acc Hsize. cbn. by rewrite bool_decide_eq_true_2 by done.
Qed.

Lemma prim_outcome_witness :
  ∃ g, Weighted.init 2 [[PInt 1; PInt 2; PInt 5]; [PInt 2; PInt 1; PInt 5]] = Ok g ∧
  ((∀ v, 0 ≤ v < 2 → ∃ p, is_path (arc (neighbors g)) 0 v p) →
     ∃ fins, @Proj02.prim elements_iteration g = Some (Ok (Proj02.total_cost fins)) ∧
             Proj02.attaches g fins ∧ NoDup fins.*2 ∧
             (∀ v, v ∈ fins.*2 ↔ 0 ≤ v < 2) ∧ length fins = Z.to_nat 2) ∧
  ((∃ v, 0 ≤ v < 2 ∧ ∀ p, ¬ is_path (arc (neighbors g)) 0 v p) →
     @Proj02.prim elements_iteration g = Some (Raise IndexError)) ∧
  (∀ fuel h H acc, Z.of_nat (size H) = 2 →
     @Proj02.prim_loop elements_iteration g fuel h H acc = Some (Ok acc)) ∧
  (∀ fuel H acc, Z.of_nat (size H) < 2 →
     @Proj02.prim_loop elements_iteration g (S fuel) [] H acc = Some (Raise IndexError)).
Proof.
  eexists. split; [vm_compute; reflexivity|].
  apply (@prim_outcome elements_iteration 2
           [[PInt 1; PInt 2; PInt 5]; [PInt 2; PInt 1; PInt 5]]).
  - check_records.
  - vm_compute. reflexivity.
Defined.

(** The run of the scenario of the specification, and a graph whose third
    node cannot be reached. *)
Lemma prim_examples :
  (∃ g, Weighted.init 3 [[PInt 1; PInt 2; PInt 5]; [PInt 2; PInt 3; PInt 7];
                         [PInt 1; PInt 3; PInt 20]; [PInt 2; PInt 1; PInt 5];
                         [PInt 3; PInt 2; PInt 7]; [PInt 3; PInt 1; PInt 20]] = Ok g ∧
        @Proj02.prim elements_iteration g = Some (Ok 12)) ∧
  (∃ g, Weighted.init 3 [[PInt 1; PInt 2; PInt 5]; [PInt 2; PInt 1; PInt 5]] = Ok g ∧
        @Proj02.prim elements_iteration g = Some (Raise IndexError)).
Proof. split; eexists; split; vm_compute; reflexivity. Qed.

(** ** Random graph *)

Lemma range_nonpos n : n ≤ 0 → range n = [].
Proof. intros Hn. unfold range, seqZ. by replace (Z.to_nat n) with 0%nat by lia. Qed.

(** Loop over [range(n)] with an invariant indexed by the loop variable. *)
Lemma for_range {St} (body : St → Z → res St) (Inv : Z → St → Prop) n st :
  0 ≤ n → Inv 0 st →
  (∀ k st, 0 ≤ k < n → Inv k st → ∃ st', body st k = Ok st' ∧ Inv (k + 1) st') →
  ∃ st', for_each body (range n) st = Ok st' ∧ Inv n st'.
Proof.
  intros Hn Hst Hbody. unfold range, seqZ.
  assert (∀ len s st, (s + len ≤ Z.to_nat n)%nat → Inv (Z.of_nat s) st →
            ∃ st', for_each body ((λ i : nat, Z.of_nat i + 0) <$> seq s len) st = Ok st'
                   ∧ Inv (Z.of_nat (s + len)) st') as Hgen.
  { induction len as [|len IH]; intros s st0 Hs Hst0; cbn.
    - rewrite Nat.add_0_r. eauto.
    - rewrite Z.add_0_r.
      destruct (Hbody (Z.of_nat s) st0 ltac:(lia) Hst0) as (st1 & -> & Hst1). cbn.
      destruct (IH (S s) st1 ltac:(lia)) as (st2 & Hrun & Hst2).
      { by replace (Z.of_nat (S s)) with (Z.of_nat s + 1) by lia. }
      exists st2. split; [done|].
      by replace (s + S len)%nat with (S s + len)%nat by lia. }
  destruct (Hgen (Z.to_nat n) 0%nat st ltac:(lia) Hst) as (st' & Hrun & Hst').
  exists st'. split; [done|]. by replace (Z.of_nat (0 + Z.to_nat n)) with n in Hst' by lia.
Qed.

Lemma draw_cell_spec n p random i j st :
  square n st.1 → 0 ≤ i < n → 0 ≤ j < n →
  ∃ v M',
    draw_cell p random i j st = Ok (M', if bool_decide (j < i) then S st.2 else st.2) ∧
    square n M' ∧
    (if bool_decide (j < i) then v = (if Qgt_bool (random st.2) p then 1 else 0)
     else cell st.1 i j = Some v) ∧
    ∀ a b, cell M' a b = if decide (a = j ∧ b = i) then Some v
                         else if decide (a = i ∧ b = j) then Some v else cell st.1 a b.
Proof.
  intros Hsq Hi Hj. unfold draw_cell.
  destruct (getitem2_cell st.1 n i j Hsq Hi Hj) as (x & Hget & Hx).
  set (v := if bool_decide (j < i) then (if Qgt_bool (random st.2) p then 1 else 0) else x).
  destruct (setitem2_cell st.1 n i j v Hsq Hi Hj) as (M1 & HM1 & Hsq1 & Hc1).
  destruct (setitem2_cell M1 n j i v Hsq1 Hj Hi) as (M2 & HM2 & Hsq2 & Hc2).
  exists v, M2. subst v. case_bool_decide; cbn.
  - rewrite HM1. cbn. rewrite HM2. cbn. split; [done|]. split; [done|]. split; [done|].
    intros a b. rewrite Hc2, Hc1. done.
  - rewrite Hget. cbn. rewrite HM1. cbn. rewrite HM2. cbn.
    split; [done|]. split; [done|]. split; [done|].
    intros a b. rewrite Hc2, Hc1. done.
Qed.

(** The generator returns a square matrix whatever the draws. *)
Lemma erdos_renyi_square n p random :
  ∃ M, erdos_renyi n p random = Ok M ∧ square n M.
Proof.
  unfold erdos_renyi. destruct (decide (0 ≤ n)) as [Hn|Hn].
  - destruct (for_range
                (λ st i, for_each (λ st j, draw_cell p random i j st) (range n) st)
                (λ _ st, square n st.1) n (fresh_matrix n 0, 0%nat) Hn)
      as (st & -> & Hst); [apply fresh_square| |by exists st.1].
    intros i st Hi Hst.
    apply (for_range (λ st j, draw_cell p random i j st) (λ _ st, square n st.1) n st Hn Hst).
    intros j st' Hj Hst'.
    destruct (draw_cell_spec n p random i j st' Hst' Hi Hj) as (v & M' & -> & Hsq & _).
    eauto.
  - rewrite range_nonpos by lia. cbn. eexists. split; [done|]. apply fresh_square.
Qed.

Lemma square_cells_eq n M1 M2 :
  square n M1 → square n M2 →
  (∀ a b, 0 ≤ a < n → 0 ≤ b < n → cell M1 a b = cell M2 a b) → M1 = M2.
Proof.
  intros [Hl1 Hr1] [Hl2 Hr2] Hcells. apply list_eq_same_length with (Z.to_nat n); [done..|].
  intros i r1 r2 Hi Hr1' Hr2'.
  apply list_eq_same_length with (Z.to_nat n).
  - exact (proj1 (Forall_lookup _ _) Hr2 i r2 Hr2').
  - exact (proj1 (Forall_lookup _ _) Hr1 i r1 Hr1').
  - intros j x y Hj Hx Hy.
    specialize (Hcells (Z.of_nat i) (Z.of_nat j) ltac:(lia) ltac:(lia)).
    unfold cell in Hcells. rewrite bool_decide_eq_true_2 in Hcells by lia.
    rewrite !Nat2Z.id, Hr1', Hr2' in Hcells. cbn in Hcells. congruence.
Qed.

Section random_graph.
Variables (n : Z) (random : nat → Q).
Hypothesis Hn : 0 ≤ n.

(** With [p = 1] no draw exceeds [p]: the matrix stays as it was created. *)
Lemma erdos_renyi_one :
  (∀ k, random k < 1)%Q → erdos_renyi n 1 random = Ok (fresh_matrix n 0).
Proof.
  intros Hdraw. unfold erdos_renyi.
  destruct (for_range
              (λ st i, for_each (λ st j, draw_cell 1 random i j st) (range n) st)
              (λ _ st, st.1 = fresh_matrix n 0) n (fresh_matrix n 0, 0%nat) Hn)
    as (st & -> & Hst); [done| |by rewrite <- Hst].
  intros i st Hi Hst.
  apply (for_range (λ st j, draw_cell 1 random i j st)
           (λ _ st, st.1 = fresh_matrix n 0) n st Hn Hst).
  intros j st' Hj Hst'.
  destruct (draw_cell_spec n 1 random i j st') as (v & M' & -> & Hsq & Hv & Hcell);
    [rewrite Hst'; apply fresh_square | done | done |].
  eexists. split; [done|]. cbn [fst snd].
  assert (v = 0) as ->.
  { case_bool_decide.
    - subst v. unfold Qgt_bool.
      destruct (Qle_bool (random st'.2) 1) eqn:Hle; [done|].
      exfalso. apply not_true_iff_false in Hle. apply Hle, Qle_bool_iff.
      apply Qlt_le_weak, Hdraw.
    - rewrite Hst', fresh_cell in Hv. rewrite decide_True in Hv by lia. congruence. }
  apply (square_cells_eq n); [done | apply fresh_square|].
  intros a b Ha Hb. rewrite Hcell, Hst', fresh_cell.
  rewrite (decide_True (P := 0 ≤ a < n ∧ 0 ≤ b < n)) by done.
  repeat case_decide; done.
Qed.

(** With [p = 0] and draws above zero every cell below the diagonal
    visited so far, and its mirror, hold an edge. *)
Lemma erdos_renyi_zero :
  (∀ k, 0 < random k)%Q →
  ∃ M, erdos_renyi n 0 random = Ok M ∧ square n M ∧
       ∀ a b, 0 ≤ a < n → 0 ≤ b < n → cell M a b = Some (if decide (a = b) then 0 else 1).
Proof.
  intros Hdraw. unfold erdos_renyi.
  set (visited := λ (i j : Z) (st : list (list Z) * nat),
         square n st.1 ∧
         (∀ a, 0 ≤ a < n → cell st.1 a a = Some 0) ∧
         (∀ a b, 0 ≤ b < a → a < n → a < i ∨ (a = i ∧ b < j) →
                 cell st.1 a b = Some 1 ∧ cell st.1 b a = Some 1)).
  destruct (for_range
              (λ st i, for_each (λ st j, draw_cell 0 random i j st) (range n) st)
              (λ i st, visited i 0 st) n (fresh_matrix n 0, 0%nat) Hn)
    as (st & -> & Hsq & Hdiag & Hlow).
  - split; [apply fresh_square|]. split.
    + intros a Ha. cbn. rewrite fresh_cell. by rewrite decide_True by lia.
    + intros a b Hb Ha [?|[? ?]]; lia.
  - intros i st Hi Hst.
    destruct (for_range (λ st j, draw_cell 0 random i j st)
                (λ j st, visited i j st) n st Hn Hst) as (st' & Hrun & Hsq & Hdiag & Hlow).
    + intros j st' Hj (Hsq & Hdiag & Hlow).
      destruct (draw_cell_spec n 0 random i j st' Hsq Hi Hj) as (v & M' & -> & Hsq' & Hv & Hcell).
      eexists. split; [done|]. split; [done|]. cbn [fst snd]. split.
      * intros a Ha. rewrite Hcell.
        destruct (decide (a = j ∧ a = i)) as [[Hj' Hi']|H1];
          [|destruct (decide (a = i ∧ a = j)) as [[Hi' Hj']|H2]].
        -- subst j i. rewrite bool_decide_eq_false_2 in Hv by lia.
           rewrite <- Hv. by apply Hdiag.
        -- subst j i. rewrite bool_decide_eq_false_2 in Hv by lia.
           rewrite <- Hv. by apply Hdiag.
        -- by apply Hdiag.
      * intros a b Hb Ha Hpos.
        destruct (decide (a = i ∧ b = j)) as [[-> ->]|Hne].
        -- rewrite bool_decide_eq_true_2 in Hv by lia.
           assert (v = 1) as ->.
           { subst v. unfold Qgt_bool.
             destruct (Qle_bool (random st'.2) 0) eqn:Hle; [|done].
             apply Qle_bool_iff in Hle. exfalso.
             apply (Qlt_irrefl 0). eapply Qlt_le_trans; [apply Hdraw | exact Hle]. }
           rewrite !Hcell. split.
           ++ rewrite decide_False by lia. by rewrite decide_True.
           ++ by rewrite decide_True.
        -- rewrite !Hcell.
           rewrite (decide_False (P := a = j ∧ b = i)) by lia.
           rewrite (decide_False (P := a = i ∧ b = j)) by done.
           rewrite (decide_False (P := b = j ∧ a = i)) by lia.
           rewrite (decide_False (P := b = i ∧ a = j)) by lia.
           apply Hlow; [done | done | lia].
    + exists st'. split; [done|]. split; [done|]. split; [done|].
      intros a b Hb Ha Hpos. apply Hlow; [done | done | lia].
  - eexists. split; [done|]. split; [done|].
    intros a b Ha Hb. case_decide as Hab; [subst; by apply Hdiag|].
    destruct (decide (b < a)).
    + apply (Hlow a b); lia.
    + apply (Hlow b a); lia.
Qed.
End random_graph.

Lemma edge_count_fresh n q : Ex01.edge_count {| Ex01.N := n; Ex01.p := q; Ex01.matrix := fresh_matrix n 0 |} = 0%nat.
Proof.
  unfold Ex01.edge_count, fresh_matrix. cbn.
  assert (∀ m, filter (λ x : Z, x ≠ 0) (replicate m 0) = []) as Hrow.
  { induction m as [|m IH]; [done|].
    change (replicate (S m) 0) with (0 :: replicate m 0).
    rewrite filter_cons, decide_False by (intros Hne; by apply Hne). exact IH. }
  induction (Z.to_nat n) as [|k IH] at 1; cbn; [done|]. by rewrite Hrow, IH.
Qed.

(** C8 (as amended).  For every node count and every sequence of draws in
    [0, 1), the random constructor with [p = 1.0] returns the graph without
    edges; with [p = 0.0] it returns the complete graph provided no draw is
    zero; and it raises [ValueError] when [p] is outside [0, 1]. *)
Theorem random_builder_extremes (n : Z) (random : nat → Q) :
  (∀ k, 0 <= random k < 1)%Q →
  (∃ g, Ex01.init n (PFloat 1) random = Ok g ∧ Ex01.matrix g = fresh_matrix n 0
        ∧ Ex01.edge_count g = 0%nat) ∧
  ((∀ k, ¬ random k == 0)%Q →
     ∃ g, Ex01.init n (PFloat 0) random = Ok g ∧ Ex01.complete g) ∧
  (∀ q, ¬ (0 <= q <= 1)%Q → Ex01.init n (PFloat q) random = Raise ValueError).
Proof.
  intros Hdraws. split; [|split].
  - exists {| Ex01.N := n; Ex01.p := 1; Ex01.matrix := fresh_matrix n 0 |}.
    split; [|split; [done | apply edge_count_fresh]].
    unfold Ex01.init. cbn [in_unit_interval negb].
    replace (negb (in_unit_interval 1)) with false by done.
    destruct (decide (0 ≤ n)) as [Hn|Hn].
    + rewrite (erdos_renyi_one n random Hn); [done|]. intros k. apply Hdraws.
    + unfold erdos_renyi. rewrite range_nonpos by lia. done.
  - intros Hnz. unfold Ex01.init.
    replace (negb (in_unit_interval 0)) with false by done.
    destruct (decide (0 ≤ n)) as [Hn|Hn].
    + destruct (erdos_renyi_zero n random Hn) as (M & -> & _ & Hcells).
      { intros k. destruct (Hdraws k) as [H0 _].
        apply Qle_lt_or_eq in H0 as [?|Heq]; [done|].
        exfalso. apply (Hnz k). by symmetry. }
      eexists. split; [done|]. intros i j Hi Hj. by apply Hcells.
    + unfold erdos_renyi. rewrite range_nonpos by lia. cbn.
      eexists. split; [done|]. intros i j Hi Hj. cbn in Hi. lia.
  - intros q Hq. unfold Ex01.init.
    replace (negb (in_unit_interval q)) with true; [done|].
    symmetry. apply negb_true_iff. unfold in_unit_interval.
    apply andb_false_iff.
    destruct (Qle_bool 0 q) eqn:H0; [|by left]. right.
    destruct (Qle_bool q 1) eqn:H1; [|done].
    exfalso. apply Hq. split; by apply Qle_bool_iff.
Qed.

Lemma random_builder_extremes_witness :
  (∃ g, Ex01.init 3 (PFloat 1) (λ _, (1 # 2)%Q) = Ok g ∧ Ex01.matrix g = fresh_matrix 3 0
        ∧ Ex01.edge_count g = 0%nat) ∧
  ((∀ k : nat, ¬ (1 # 2) == 0)%Q →
     ∃ g, Ex01.init 3 (PFloat 0) (λ _, (1 # 2)%Q) = Ok g ∧ Ex01.complete g) ∧
  (∀ q, ¬ (0 <= q <= 1)%Q → Ex01.init 3 (PFloat q) (λ _, (1 # 2)%Q) = Raise ValueError).
Proof.
  apply (random_builder_extremes 3 (λ _, (1 # 2)%Q)).
  intros k. split; [by apply Qle_bool_iff | reflexivity].
Defined.

(** C8 as stated fails: a draw equal to zero, which lies in [0, 1), does not
    exceed [p = 0.0], and the edge is left out. *)
Lemma random_builder_zero_draw :
  (∀ k : nat, 0 <= (λ _ : nat, 0) k < 1)%Q ∧
  ∃ g, Ex01.init 2 (PFloat 0) (λ _, 0%Q) = Ok g ∧ Ex01.matrix g = [[0; 0]; [0; 0]]
       ∧ ¬ Ex01.complete g.
Proof.
  split; [intros k; split; [by apply Qle_bool_iff | reflexivity]|].
  eexists. split; [vm_compute; reflexivity|]. split; [reflexivity|].
  intros Hc. specialize (Hc 1 0 ltac:(cbn; lia) ltac:(cbn; lia)). vm_compute in Hc. congruence.
Qed.

(** ** Adjacency query *)

Lemma existsb_false {A} (f : A → bool) l : existsb f l = false → Forall (λ x, f x = false) l.
Proof.
  induction l as [|x l IH]; cbn; [constructor|].
  intros [Hx Hl]%orb_false_iff. constructor; [done | by apply IH].
Qed.

Lemma ex2021_init_square n p M random g :
  Ex2021.init n p M random = Ok g → Ex2021.N g = n ∧ square n (Ex2021.matrix g).
Proof.
  unfold Ex2021.init. destruct p as [z|q|].
  - by case_match.
  - destruct (negb (in_unit_interval q)); [done|].
    destruct (erdos_renyi_square n q random) as (M' & -> & Hsq). cbn.
    intros [= <-]. done.
  - destruct M as [M|]; [|done].
    destruct (_ || _) eqn:Hcheck; [done|]. intros [= <-]. cbn. split; [done|].
    apply orb_false_iff in Hcheck as [Hcheck Hrows].
    apply orb_false_iff in Hcheck as [_ Hlen].
    apply bool_decide_eq_false in Hlen. apply dec_stable in Hlen.
    split; [lia|]. apply existsb_false in Hrows.
    eapply Forall_impl; [exact Hrows|]. intros row Hrow. cbn in Hrow.
    apply bool_decide_eq_false in Hrow. apply dec_stable in Hrow. lia.
Qed.

(** C9.  On every graph the constructor of [ex2021.py] returns, for
    positions [i] and [j] in [1, N], [areAdjacent(i, j)] is true exactly when
    the matrix has an edge from [i] to [j] or from [j] to [i], and
    [areAdjacent(j, i)] returns the same value. *)
Theorem areAdjacent_either_direction (n : Z) (p : pyval) (M : option (list (list Z)))
    (random : nat → Q) (g : Ex2021.Graph) (i j : Z) :
  Ex2021.init n p M random = Ok g → 1 ≤ i ≤ n → 1 ≤ j ≤ n →
  ∃ b, Ex2021.areAdjacent g i j = Ok (Some b) ∧
       (b = true ↔ present 0 (Ex2021.matrix g) (i - 1) (j - 1)
                   ∨ present 0 (Ex2021.matrix g) (j - 1) (i - 1)) ∧
       Ex2021.areAdjacent g j i = Ok (Some b).
Proof.
  intros Hg Hi Hj. apply ex2021_init_square in Hg as [HN Hsq].
  destruct (getitem2_cell _ n (i - 1) (j - 1) Hsq) as (a & Ha & Hca); [lia..|].
  destruct (getitem2_cell _ n (j - 1) (i - 1) Hsq) as (b & Hb & Hcb); [lia..|].
  unfold Ex2021.areAdjacent. rewrite HN.
  rewrite !bool_decide_eq_true_2 by lia. rewrite Ha, Hb. cbn.
  unfold present. rewrite Hca, Hcb.
  destruct (decide (a = 0)) as [->|Hna]; destruct (decide (b = 0)) as [->|Hnb].
  - exists false. rewrite !bool_decide_eq_false_2 by (intros ?; done).
    split; [done|]. split; [|done]. split; [done|]. intros [(x & [= <-] & ?)|(x & [= <-] & ?)]; done.
  - exists true. rewrite (bool_decide_eq_false_2 (0 ≠ 0)) by (intros ?; done).
    rewrite !bool_decide_eq_true_2 by done.
    split; [done|]. split; [|done]. split; [|done]. intros _. right. eauto.
  - exists true. rewrite (bool_decide_eq_false_2 (0 ≠ 0)) by (intros ?; done).
    rewrite !bool_decide_eq_true_2 by done.
    split; [done|]. split; [|done]. split; [|done]. intros _. left. eauto.
  - exists true. rewrite !bool_decide_eq_true_2 by done.
    split; [done|]. split; [|done]. split; [|done]. intros _. left. eauto.
Qed.

Lemma areAdjacent_either_direction_witness :
  ∃ g, Ex2021.init 2 PNone (Some [[0; 3]; [0; 0]]) (λ _, 0%Q) = Ok g ∧
  ∃ b, Ex2021.areAdjacent g 1 2 = Ok (Some b) ∧
       (b = true ↔ present 0 (Ex2021.matrix g) (1 - 1) (2 - 1)
                   ∨ present 0 (Ex2021.matrix g) (2 - 1) (1 - 1)) ∧
       Ex2021.areAdjacent g 2 1 = Ok (Some b).
Proof.
  eexists. split; [vm_compute; reflexivity|].
  apply (areAdjacent_either_direction 2 PNone (Some [[0; 3]; [0; 0]]) (λ _, 0%Q)).
  - vm_compute. reflexivity.
  - lia.
  - lia.
Defined.
(** * Further properties of the scripts *)

(** ** The constructor of ex02 *)

(** X1.  The constructor of ex02 returns a graph exactly when every record
    is a pair of integers in [1, N]: an identifier below 1 makes it fail too,
    though not with the error of the guard. *)
Theorem ex02_init_iff (n : Z) (edges : list (list pyval)) :
  (∃ g, Ex02.init n edges = Ok g) ↔ Forall (λ e, valid_edge n e) edges.
Proof.
  split.
  - intros [g Hg]. by apply ex02_init_Ok in Hg as [? _].
  - intros Hall. destruct (ex02_init_valid n edges Hall) as (g & Hg & _). eauto.
Qed.

Lemma binary_register n st e st' :
  (square n st.1 ∧ ∀ a b, 0 ≤ a < n → 0 ≤ b < n → cell st.1 a b = Some 0 ∨ cell st.1 a b = Some 1) →
  valid_edge n e → Ex02.register_edge n st e = Ok st' →
  square n st'.1 ∧ ∀ a b, 0 ≤ a < n → 0 ≤ b < n → cell st'.1 a b = Some 0 ∨ cell st'.1 a b = Some 1.
Proof.
  intros [Hsq Hbin] He Hrun. destruct e as [|[a| |] [|[b| |] [|]]]; try done.
  cbn in He. apply andb_True in He as [Ha Hb].
  unfold node_id in Ha, Hb. apply bool_decide_unpack in Ha, Hb.
  unfold Ex02.register_edge in Hrun. rewrite bool_decide_eq_false_2 in Hrun by lia.
  destruct (setitem2_cell st.1 n (a - 1) (b - 1) 1 Hsq) as (M1 & HM1 & Hsq1 & Hc1); [lia..|].
  destruct (setitem2_cell M1 n (b - 1) (a - 1) 1 Hsq1) as (M2 & HM2 & Hsq2 & Hc2); [lia..|].
  rewrite HM1 in Hrun. cbn in Hrun. rewrite HM2 in Hrun. cbn in Hrun.
  destruct (dict_add st.2 (a - 1) (b - 1)) as [nb1|]; [|done]. cbn in Hrun.
  destruct (dict_add nb1 (b - 1) (a - 1)) as [nb2|]; [|done]. cbn in Hrun.
  injection Hrun as <-. cbn. split; [done|]. intros x y Hx Hy.
  rewrite Hc2, Hc1. repeat case_decide; auto.
Qed.

(** X2.  The matrix the constructor of ex02 builds is symmetric with entries
    0 and 1: the entry [(i, j)] is 1 exactly when the input lists the pair in
    one order or the other. *)
Theorem ex02_matrix_symmetric (n : Z) (edges : list (list pyval)) (g : Graph) (i j : Z) :
  Ex02.init n edges = Ok g → 0 ≤ i < n → 0 ≤ j < n →
  cell (matrix g) i j = cell (matrix g) j i ∧
  (recorded2 edges i j ∨ recorded2 edges j i → cell (matrix g) i j = Some 1) ∧
  (¬ (recorded2 edges i j ∨ recorded2 edges j i) → cell (matrix g) i j = Some 0).
Proof.
  intros Hg Hi Hj. pose proof Hg as Hg0.
  apply ex02_init_Ok in Hg as (Hall & HN & Hc).
  destruct (undirected_built n edges Hall) as (g' & Hg' & _ & _ & Harc).
  assert (g' = g) as -> by congruence.
  assert (∀ a b, 0 ≤ a < n → 0 ≤ b < n →
            cell (matrix g) a b = Some 0 ∨ cell (matrix g) a b = Some 1) as Hbin.
  { unfold Ex02.init in Hg0.
    destruct (for_each _ edges _) as [st|] eqn:Hrun; [|done]. cbn in Hg0.
    injection Hg0 as <-. cbn.
    destruct (for_each_Ok_inv (Ex02.register_edge n)
                (λ st, consistent_state 0 n st ∧ square n st.1 ∧
                       ∀ a b, 0 ≤ a < n → 0 ≤ b < n →
                              cell st.1 a b = Some 0 ∨ cell st.1 a b = Some 1)
                (λ e, valid_edge n e) edges
                (fresh_matrix n 0, fresh_neighbors n) st) as [_ (_ & _ & Hst)]; [| |done|done].
    - intros st0 e st1 [Hc0 Hb0] Hstep.
      destruct (register_edge_Ok n st0 e st1 Hc0 Hstep) as [He Hc1].
      split; [done|]. split; [done|]. by eapply binary_register.
    - split; [apply fresh_consistent|]. split; [apply fresh_square|].
      intros a b Ha Hb. left. cbn. rewrite fresh_cell. by rewrite decide_True. }
  assert (∀ a b, 0 ≤ a < n → 0 ≤ b < n →
            (recorded2 edges a b ∨ recorded2 edges b a → cell (matrix g) a b = Some 1) ∧
            (¬ (recorded2 edges a b ∨ recorded2 edges b a) → cell (matrix g) a b = Some 0))
    as Hcell.
  { intros a b Ha Hb. rewrite <- Harc, (consistent_arc 0 n _ _ a b Hc). unfold present.
    destruct (Hbin a b Ha Hb) as [H0|H1].
    - rewrite H0. split; [intros (x & [= <-] & Hx); done | done].
    - rewrite H1. split; [done|]. intros Hno. exfalso. apply Hno. by exists 1. }
  destruct (Hcell i j Hi Hj) as [Hyes Hno]. destruct (Hcell j i Hj Hi) as [Hyes' Hno'].
  split; [|done].
  destruct (Hbin i j Hi Hj) as [H0|H1], (Hbin j i Hj Hi) as [H0'|H1']; try congruence.
  - rewrite Hno' in H1'; [done|]. intros Hr. rewrite Hyes in H0 by tauto. done.
  - rewrite Hno in H1; [done|]. intros Hr. rewrite Hyes' in H0' by tauto. done.
Qed.

Lemma ex02_matrix_symmetric_witness :
  ∃ g, Ex02.init 3 [[PInt 1; PInt 2]] = Ok g ∧
       cell (matrix g) 0 1 = cell (matrix g) 1 0 ∧
       (recorded2 [[PInt 1; PInt 2]] 0 1 ∨ recorded2 [[PInt 1; PInt 2]] 1 0 →
        cell (matrix g) 0 1 = Some 1) ∧
       (¬ (recorded2 [[PInt 1; PInt 2]] 0 1 ∨ recorded2 [[PInt 1; PInt 2]] 1 0) →
        cell (matrix g) 0 1 = Some 0).
Proof.
  eexists. split; [vm_compute; reflexivity|].
  apply (ex02_matrix_symmetric 3 [[PInt 1; PInt 2]] _ 0 1); [vm_compute; reflexivity | lia | lia].
Defined.

(** ** Breadth-first search outside the claims' cases *)

Lemma ex02_built n edges g :
  Ex02.init n edges = Ok g →
  N g = n ∧ wf_graph g ∧ ∀ u v, arc (neighbors g) u v → arc (neighbors g) v u.
Proof.
  intros Hg. pose proof Hg as Hg0. apply ex02_init_Ok in Hg as (Hall & HN & Hc).
  destruct (undirected_built n edges Hall) as (g' & Hg' & _ & Hwf & Harc).
  assert (g' = g) as -> by congruence.
  split; [done|]. split; [done|]. intros u v. rewrite !Harc. tauto.
Qed.

(** X3.  On a graph built by the constructor of ex02, [bfs] from a root
    that is not a node of the graph fails with the [KeyError] of the lookup
    of its neighbours, whatever the target; from a node of the graph to a
    target that is not a node it returns the empty list. *)
Theorem bfs_outside_graph {order : SetIteration} (n : Z) (edges : list (list pyval))
    (g : Graph) (root target : Z) :
  Ex02.init n edges = Ok g →
  (¬ 0 ≤ root < n → Ex02.bfs g root target = Some (Raise KeyError)) ∧
  (0 ≤ root < n → ¬ 0 ≤ target < n → Ex02.bfs g root target = Some (Ok [])).
Proof.
  intros Hg. apply ex02_built in Hg as (HN & Hwf & _). subst n. split.
  - intros Hr. unfold Ex02.bfs, Ex02.bfs_fuel. cbn [Ex02.bfs_loop last].
    rewrite decide_False by set_solver.
    unfold dict_get. destruct (neighbors g !! root) eqn:Hs; [|done].
    exfalso. apply Hr, (proj1 Hwf). eauto.
  - intros Hr Ht.
    destruct (bfs_shortest g root target Hwf Hr) as (p & -> & Hpost); [intros ->; done|].
    destruct Hpost as [[-> _]|[Hp _]]; [done|].
    exfalso. apply Ht. by eapply grown_in_range.
Qed.

Lemma bfs_outside_graph_witness :
  ∃ g, Ex02.init 2 [[PInt 1; PInt 2]] = Ok g ∧
       @Ex02.bfs elements_iteration g 5 0 = Some (Raise KeyError) ∧
       @Ex02.bfs elements_iteration g 0 5 = Some (Ok []).
Proof.
  eexists. split; [vm_compute; reflexivity|].
  match goal with |- context [@Ex02.bfs _ ?g 5 0] =>
    pose proof (@bfs_outside_graph elements_iteration 2 [[PInt 1; PInt 2]] g 5 0
                  ltac:(vm_compute; reflexivity)) as [Hkey _];
    pose proof (@bfs_outside_graph elements_iteration 2 [[PInt 1; PInt 2]] g 0 5
                  ltac:(vm_compute; reflexivity)) as [_ Hnone]
  end.
  split; [apply Hkey | apply Hnone]; lia.
Defined.

Section walks.
Context (E : Z → Z → Prop).

Lemma grown_cons v u q x : E v u → grown E u q x → grown E v (v :: q) x.
Proof.
  intros HE. induction 1 as [|q x w Hq IH Hxw].
  - apply (grown_snoc E v [v] v u); [constructor | done].
  - apply (grown_snoc E v (v :: q) x w); done.
Qed.

(** A walk read backwards is a walk when the relation is symmetric. *)
Lemma grown_reverse x p u :
  (∀ a b, E a b → E b a) → grown E x p u → grown E u (reverse p) x.
Proof.
  intros Hsym. induction 1 as [|p u v Hp IH HE].
  - constructor.
  - rewrite reverse_snoc. apply grown_cons with u; [by apply Hsym | done].
Qed.

(** The part of a walk up to one of its nodes is a walk to that node. *)
Lemma grown_prefix x p1 v p2 u :
  grown E x (p1 ++ v :: p2) u → grown E x (p1 ++ [v]) v.
Proof.
  intros Hp. apply grown_is_path in Hp as (Hhead & _ & Hstep).
  apply is_path_grown. split; [|split].
  - destruct p1; done.
  - apply last_snoc.
  - intros k a b Ha Hb.
    assert (S k < length (p1 ++ [v]))%nat as Hk by (by eapply lookup_lt_Some).
    rewrite length_app in Hk. cbn in Hk.
    apply (Hstep k).
    + rewrite lookup_app_l in Ha by lia. by rewrite lookup_app_l by lia.
    + destruct (decide (S k < length p1)%nat).
      * rewrite lookup_app_l in Hb by lia. by rewrite lookup_app_l by lia.
      * assert (S k = length p1) as Hk' by lia.
        rewrite Hk', list_lookup_middle in Hb by done.
        by rewrite Hk', list_lookup_middle.
Qed.

Lemma repeated_node (l : list Z) :
  ¬ NoDup l → ∃ l1 y l2 l3, l = l1 ++ y :: l2 ++ y :: l3.
Proof.
  induction l as [|a l IH]; intros Hdup.
  - exfalso. apply Hdup. constructor.
  - destruct (decide (a ∈ l)) as [Ha|Ha].
    + apply list_elem_of_split in Ha as (l2 & l3 & ->). by exists [], a, l2, l3.
    + destruct IH as (l1 & y & l2 & l3 & ->).
      { intros Hnd. apply Hdup. by constructor. }
      by exists (a :: l1), y, l2, l3.
Qed.

(** A walk no longer than any other with the same ends repeats no node. *)
Lemma shortest_NoDup x p u :
  grown E x p u → (∀ w, grown E x w u → (length p ≤ length w)%nat) → NoDup p.
Proof.
  intros Hp Hmin. destruct (decide (NoDup p)) as [|Hdup]; [done|]. exfalso.
  apply repeated_node in Hdup as (l1 & y & l2 & l3 & ->).
  pose proof (grown_prefix _ _ _ _ _ Hp) as Hpre.
  replace (l1 ++ y :: l2 ++ y :: l3) with ((l1 ++ y :: l2) ++ y :: l3) in Hp
    by (by rewrite <- app_assoc).
  apply grown_suffix in Hp.
  pose proof (grown_app E _ _ _ _ _ Hpre Hp) as Hshort.
  apply Hmin in Hshort. cbn in Hshort. rewrite !length_app in Hshort. cbn in Hshort.
  rewrite !length_app in Hshort. cbn in Hshort. lia.
Qed.
End walks.

(** X4.  On a graph built by the constructor of ex02, the path [bfs]
    returns between two distinct nodes visits no node twice, so it has at
    most [N] nodes, all of them nodes of the graph. *)
Theorem bfs_path_simple {order : SetIteration} (n : Z) (edges : list (list pyval))
    (g : Graph) (root target : Z) (p : list Z) :
  Ex02.init n edges = Ok g → 0 ≤ root < n → root ≠ target →
  Ex02.bfs g root target = Some (Ok p) →
  NoDup p ∧ (∀ v, v ∈ p → 0 ≤ v < n) ∧ (length p ≤ Z.to_nat n)%nat.
Proof.
  intros Hg Hr Hne Hrun. apply ex02_built in Hg as (HN & Hwf & _). subst n.
  destruct (bfs_shortest g root target Hwf Hr Hne) as (p' & Hrun' & Hpost).
  assert (p' = p) as -> by congruence.
  destruct Hpost as [[-> _]|[Hp Hmin]].
  - split; [constructor|]. split; [by intros v ?%elem_of_nil | cbn; lia].
  - assert (NoDup p) as Hnd by (by eapply shortest_NoDup).
    assert (∀ v, v ∈ p → 0 ≤ v < N g) as Hin by (by eapply grown_nodes_in_range).
    split; [done|]. split; [done|].
    assert (p ⊆+ range (N g)) as Hsub.
    { apply NoDup_submseteq; [done|]. intros v Hv. by apply range_elem, Hin. }
    apply submseteq_length in Hsub. unfold range in Hsub. by rewrite length_seqZ in Hsub.
Qed.

Lemma bfs_path_simple_witness :
  ∃ g p, Ex02.init 3 [[PInt 1; PInt 2]; [PInt 2; PInt 3]] = Ok g ∧
         @Ex02.bfs elements_iteration g 0 2 = Some (Ok p) ∧
         NoDup p ∧ (∀ v, v ∈ p → 0 ≤ v < 3) ∧ (length p ≤ Z.to_nat 3)%nat.
Proof.
  eexists _, _. split; [vm_compute; reflexivity|]. split; [vm_compute; reflexivity|].
  eapply (@bfs_path_simple elements_iteration 3 [[PInt 1; PInt 2]; [PInt 2; PInt 3]] _ 0 2);
    [vm_compute; reflexivity | lia | lia | vm_compute; reflexivity].
Defined.

Lemma bfs_both_ways {order : SetIteration} (g : Graph) (i j : Z) :
  wf_graph g → (∀ u v, arc (neighbors g) u v → arc (neighbors g) v u) →
  0 ≤ i < N g → 0 ≤ j < N g → i ≠ j →
  ∃ p q, Ex02.bfs g i j = Some (Ok p) ∧ Ex02.bfs g j i = Some (Ok q) ∧
         length p = length q.
Proof.
  intros Hwf Hsym Hi Hj Hne.
  destruct (bfs_shortest g i j Hwf Hi Hne) as (p & Hp & Hpost).
  destruct (bfs_shortest g j i Hwf Hj ltac:(done)) as (q & Hq & Hpost').
  exists p, q. split; [done|]. split; [done|].
  destruct Hpost as [[-> Hnone]|[Hpp Hpmin]], Hpost' as [[-> Hnone']|[Hqq Hqmin]].
  - done.
  - exfalso. apply (Hnone (reverse q)). by apply grown_reverse.
  - exfalso. apply (Hnone' (reverse p)). by apply grown_reverse.
  - apply (grown_reverse _ _ _ _ Hsym) in Hpp as Hpr.
    apply (grown_reverse _ _ _ _ Hsym) in Hqq as Hqr.
    apply Hqmin in Hpr. apply Hpmin in Hqr. rewrite length_reverse in Hpr, Hqr. lia.
Qed.

(** X5.  On a graph built by the constructor of ex02 the searches in the
    two directions between distinct nodes return paths of the same length:
    both empty, or both shortest. *)
Theorem bfs_distance_symmetric {order : SetIteration} (n : Z) (edges : list (list pyval))
    (g : Graph) (i j : Z) :
  Ex02.init n edges = Ok g → 0 ≤ i < n → 0 ≤ j < n → i ≠ j →
  ∃ p q, Ex02.bfs g i j = Some (Ok p) ∧ Ex02.bfs g j i = Some (Ok q) ∧
         length p = length q.
Proof.
  intros Hg Hi Hj Hne. apply ex02_built in Hg as (HN & Hwf & Hsym). subst n.
  by apply bfs_both_ways.
Qed.

Lemma bfs_distance_symmetric_witness :
  ∃ g, Ex02.init 3 [[PInt 1; PInt 2]; [PInt 2; PInt 3]] = Ok g ∧
    ∃ p q, @Ex02.bfs elements_iteration g 0 2 = Some (Ok p) ∧
           @Ex02.bfs elements_iteration g 2 0 = Some (Ok q) ∧ length p = length q.
Proof.
  eexists. split; [vm_compute; reflexivity|].
  apply (@bfs_distance_symmetric elements_iteration 3
           [[PInt 1; PInt 2]; [PInt 2; PInt 3]] _ 0 2);
    [vm_compute; reflexivity | lia | lia | lia].
Defined.

(** ** The distance matrix of ex02 *)

Lemma range_from_nil a b : b ≤ a → range_from a b = [].
Proof. intros Hab. unfold range_from, seqZ. by replace (Z.to_nat (b - a)) with 0%nat by lia. Qed.

Lemma range_from_cons a b : a < b → range_from a b = a :: range_from (a + 1) b.
Proof.
  intros Hab. unfold range_from. rewrite seqZ_cons by lia.
  f_equal. f_equal; lia.
Qed.

Lemma range_from_zero n : range n = range_from 0 n.
Proof. unfold range, range_from. f_equal. lia. Qed.

(** Loop over [range(a, b)] with an invariant indexed by the loop variable. *)
Lemma for_run_range {St} (body : St → Z → option (res St)) (Inv : Z → St → Prop) a b st :
  a ≤ b → Inv a st →
  (∀ k st, a ≤ k < b → Inv k st → ∃ st', body st k = Some (Ok st') ∧ Inv (k + 1) st') →
  ∃ st', for_each_run body (range_from a b) st = Some (Ok st') ∧ Inv b st'.
Proof.
  intros Hab Hst Hbody.
  remember (Z.to_nat (b - a)) as len eqn:Hlen.
  revert a st Hab Hst Hbody Hlen. induction len as [|len IH]; intros a st Hab Hst Hbody Hlen.
  - assert (a = b) as -> by lia. rewrite range_from_nil by lia. cbn. eauto.
  - rewrite range_from_cons by lia. cbn.
    destruct (Hbody a st ltac:(lia) Hst) as (st1 & -> & Hst1).
    apply IH; [lia | done | | lia].
    intros k st0 Hk. apply Hbody. lia.
Qed.

Section distance_matrix.
Context {order : SetIteration} (g : Graph).
Hypothesis Hwf : wf_graph g.
Hypothesis Hsym : ∀ u v, arc (neighbors g) u v → arc (neighbors g) v u.

Lemma distancies_built :
  ∃ D, Ex02_main.distancies g = Some (Ok D) ∧ square (N g) D ∧
    ∀ i j, 0 ≤ i < N g → 0 ≤ j < N g →
      if decide (i = j) then cell D i j = Some 0
      else ∃ p, Ex02.bfs g i j = Some (Ok p) ∧ cell D i j = Some (bfs_distance p).
Proof.
  unfold Ex02_main.distancies. destruct (decide (0 ≤ N g)) as [Hn|Hn].
  - rewrite range_from_zero.
    set (upto := λ (i j : Z) (D : list (list Z)),
           square (N g) D ∧
           (∀ a, 0 ≤ a < N g → cell D a a = Some 0) ∧
           (∀ a b, 0 ≤ a < b → b < N g → a < i ∨ (a = i ∧ b < j) →
              ∃ p, Ex02.bfs g a b = Some (Ok p) ∧ cell D a b = Some (bfs_distance p)
                   ∧ cell D b a = Some (bfs_distance p))).
    match goal with |- context [for_each_run ?body _ _] =>
      destruct (for_run_range body (λ i D, upto i 0 D) 0 (N g) (fresh_matrix (N g) 0))
        as (D & -> & Hsq & Hdiag & Hcells); [done| | |]
    end.
    + split; [apply fresh_square|]. split.
      * intros a Ha. rewrite fresh_cell. by rewrite decide_True.
      * intros a b Ha Hb [?|[? ?]]; lia.
    + intros i D Hi (Hsq & Hdiag & Hcells). cbn beta.
      match goal with |- context [for_each_run ?body _ _] =>
        destruct (for_run_range body (λ j D, upto i j D) (i + 1) (N g) D)
          as (D' & -> & Hsq' & Hdiag' & Hcells'); [lia| | |]
      end.
      * split; [done|]. split; [done|]. intros a b Ha Hb Hpos. apply Hcells; [done..|lia].
      * intros j D0 Hj (Hsq0 & Hdiag0 & Hcells0). cbn beta.
        destruct (bfs_shortest g i j Hwf ltac:(lia) ltac:(lia)) as (p & Hp & _). rewrite Hp.
        destruct (setitem2_cell D0 (N g) i j (bfs_distance p) Hsq0) as (D1 & -> & Hsq1 & Hc1);
          [lia..|]. cbn.
        destruct (setitem2_cell D1 (N g) j i (bfs_distance p) Hsq1) as (D2 & -> & Hsq2 & Hc2);
          [lia..|].
        eexists. split; [done|]. split; [done|]. split.
        -- intros a Ha. rewrite Hc2, Hc1. rewrite !decide_False by lia. by apply Hdiag0.
        -- intros a b Ha Hb Hpos. destruct (decide (a = i ∧ b = j)) as [[-> ->]|Hother].
           ++ exists p. rewrite !Hc2, !Hc1.
              split; [done|].
              rewrite (decide_False (P := i = j ∧ j = i)) by lia.
              rewrite (decide_True (P := i = i ∧ j = j)) by done.
              by rewrite (decide_True (P := j = j ∧ i = i)) by done.
           ++ destruct (Hcells0 a b Ha Hb ltac:(lia)) as (q & Hq & Hab & Hba).
              exists q. rewrite !Hc2, !Hc1. rewrite !decide_False by lia. done.
      * eexists. split; [done|]. split; [done|]. split; [done|].
        intros a b Ha Hb Hpos. apply Hcells'; [done..|lia].
    + exists D. split; [done|]. split; [done|]. intros i j Hi Hj.
      case_decide as Hij; [subst; by apply Hdiag|].
      destruct (decide (i < j)).
      * destruct (Hcells i j ltac:(lia) ltac:(lia) ltac:(lia)) as (p & ? & ? & _). eauto.
      * destruct (Hcells j i ltac:(lia) ltac:(lia) ltac:(lia)) as (q & Hq & _ & Hc).
        destruct (bfs_both_ways g i j Hwf Hsym Hi Hj Hij) as (p & q' & Hp & Hq' & Hlen).
        assert (q' = q) as -> by congruence.
        exists p. split; [done|]. rewrite Hc. unfold bfs_distance. by rewrite Hlen.
  - rewrite range_nonpos by lia. cbn. eexists. split; [done|]. split; [apply fresh_square|].
    intros i j Hi. lia.
Qed.
End distance_matrix.

(** X6.  The main program of ex02 fills its distance matrix for every graph
    its constructor returns: the matrix is [N] by [N], its diagonal is zero,
    and the entry of two distinct nodes [i] and [j] is the length of the path
    [bfs(i, j)] returns minus one, although only the pairs with [i < j] are
    searched; it is [-1] for the pairs no path joins. *)
Theorem ex02_distancies {order : SetIteration} (n : Z) (edges : list (list pyval))
    (g : Graph) :
  Ex02.init n edges = Ok g →
  ∃ D, Ex02_main.distancies g = Some (Ok D) ∧ square n D ∧
    ∀ i j, 0 ≤ i < n → 0 ≤ j < n →
      (i = j → cell D i j = Some 0) ∧
      (i ≠ j → ∃ p, Ex02.bfs g i j = Some (Ok p) ∧ cell D i j = Some (bfs_distance p)) ∧
      (i ≠ j → (∀ w, ¬ is_path (arc (neighbors g)) i j w) → cell D i j = Some (-1)).
Proof.
  intros Hg. apply ex02_built in Hg as (HN & Hwf & Hsym). subst n.
  destruct (distancies_built g Hwf Hsym) as (D & HD & Hsq & Hcells).
  exists D. split; [done|]. split; [done|]. intros i j Hi Hj.
  specialize (Hcells i j Hi Hj). split; [|split].
  - intros Hij. by rewrite decide_True in Hcells.
  - intros Hij. by rewrite decide_False in Hcells.
  - intros Hij Hnone. rewrite decide_False in Hcells by done.
    destruct Hcells as (p & Hp & ->).
    destruct (bfs_shortest g i j Hwf Hi Hij) as (p' & Hp' & Hpost).
    assert (p' = p) as -> by congruence.
    destruct Hpost as [[-> _]|[Hgrown _]]; [done|].
    exfalso. apply (Hnone p). by apply is_path_iff_grown.
Qed.

Lemma ex02_distancies_witness :
  ∃ g, Ex02.init 3 [[PInt 1; PInt 2]] = Ok g ∧
    ∃ D, @Ex02_main.distancies elements_iteration g = Some (Ok D) ∧ square 3 D ∧
      ∀ i j, 0 ≤ i < 3 → 0 ≤ j < 3 →
        (i = j → cell D i j = Some 0) ∧
        (i ≠ j → ∃ p, @Ex02.bfs elements_iteration g i j = Some (Ok p)
                      ∧ cell D i j = Some (bfs_distance p)) ∧
        (i ≠ j → (∀ w, ¬ is_path (arc (neighbors g)) i j w) → cell D i j = Some (-1)).
Proof.
  eexists. split; [vm_compute; reflexivity|].
  apply (@ex02_distancies elements_iteration 3 [[PInt 1; PInt 2]]). vm_compute. reflexivity.
Defined.

(** ** The directed constructors *)

Lemma py_index_Some len i k : py_index len i = Some k → - Z.of_nat len ≤ i < Z.of_nat len.
Proof. unfold py_index. repeat case_bool_decide; intros [=]; lia. Qed.

Lemma py_index_wrap len i :
  - Z.of_nat len ≤ i < Z.of_nat len → py_index len i = Some (Z.to_nat (wrap (Z.of_nat len) i)).
Proof. intros Hi. unfold py_index, wrap. repeat case_bool_decide; try lia; done. Qed.

Lemma wrap_range n j : - n ≤ j < n → 0 ≤ wrap n j < n.
Proof. unfold wrap. case_bool_decide; lia. Qed.

(** Writing through a negative column index writes the wrapped column. *)
Lemma setitem2_wrap M n i j v :
  square n M → 0 ≤ i < n → - n ≤ j < n →
  ∃ M', setitem2 M i j v = Ok M' ∧ square n M' ∧
        ∀ a b, cell M' a b = if decide (a = i ∧ b = wrap n j) then Some v else cell M a b.
Proof.
  intros Hsq Hi Hj. pose proof (wrap_range n j Hj) as Hw.
  destruct (setitem2_cell M n i (wrap n j) v Hsq Hi Hw) as (M' & HM' & Hsq' & Hcell).
  exists M'. split; [|done]. rewrite <- HM'.
  destruct Hsq as [Hlen Hrows]. unfold setitem2, getitem, setitem.
  rewrite py_index_nonneg by lia.
  destruct (M !! Z.to_nat i) as [row|] eqn:Hrow; [|done]. cbn.
  assert (length row = Z.to_nat n) as Hr.
  { eapply (proj1 (Forall_lookup _ _) Hrows); eauto. }
  rewrite (py_index_wrap _ j) by lia. rewrite (py_index_nonneg _ (wrap n j)) by lia.
  by replace (Z.of_nat (length row)) with n by lia.
Qed.

Lemma setitem2_Ok_bounds M n i j v M' :
  square n M → setitem2 M i j v = Ok M' → - n ≤ i < n ∧ - n ≤ j < n.
Proof.
  intros [Hlen Hrows]. unfold setitem2, getitem, setitem.
  destruct (py_index (length M) i) as [k|] eqn:Hk; [|done].
  destruct (M !! k) as [row|] eqn:Hrow; [|done]. cbn.
  destruct (py_index (length row) j) as [k'|] eqn:Hk'; [|done]. intros _.
  apply py_index_Some in Hk, Hk'.
  assert (length row = Z.to_nat n) as Hr.
  { eapply (proj1 (Forall_lookup _ _) Hrows); eauto. }
  lia.
Qed.

Section directed.
Variable n : Z.

Lemma fresh_stores v : stores n (fresh_matrix n v, fresh_neighbors n).
Proof.
  split; [apply fresh_square|]. by destruct (fresh_consistent 0 n) as (_ & ? & _).
Qed.

Lemma weighted_register_accepted st e :
  stores n st → accepted_arc n e →
  ∃ st', Weighted.register_arc n st e = Ok st' ∧ stores n st' ∧
    ∀ u v, cell st'.1 u v =
      if designates n e u v then Some (last_weight n [e] u v) else cell st.1 u v.
Proof.
  intros [Hsq Hkeys] He. destruct e as [|[a| |] [|[b| |] [|[w| |] [|]]]]; try done.
  cbn in He. apply bool_decide_unpack in He.
  unfold Weighted.register_arc. rewrite bool_decide_eq_false_2 by lia.
  destruct (setitem2_wrap st.1 n (a - 1) (b - 1) w Hsq) as (M' & -> & Hsq' & Hcell);
    [lia..|].
  destruct (proj2 (Hkeys (a - 1))) as [s Hs]; [lia|].
  cbn. unfold dict_add, dict_get. rewrite Hs. cbn.
  eexists. split; [done|]. split.
  - split; [done|]. cbn. apply keys_insert; [lia | done].
  - intros u v. cbn [fst]. rewrite Hcell. unfold last_weight. cbn.
    case_decide as Huv.
    + by rewrite bool_decide_eq_true_2 by (destruct Huv; split; congruence).
    + by rewrite bool_decide_eq_false_2 by (intros [? ?]; apply Huv; split; congruence).
Qed.

Lemma weighted_register_Ok st e st' :
  stores n st → Weighted.register_arc n st e = Ok st' → accepted_arc n e.
Proof.
  intros [Hsq Hkeys]. destruct e as [|[a| |] [|[b| |] [|[w| |] [|]]]]; try done.
  unfold Weighted.register_arc. case_bool_decide as Hhigh; [done|].
  destruct (setitem2 st.1 (a - 1) (b - 1) w) as [M'|] eqn:HM; [|done]. cbn.
  destruct (dict_add st.2 (a - 1) (b - 1)) as [nb'|] eqn:Hnb; [|done]. intros _.
  apply (setitem2_Ok_bounds _ n) in HM as [_ Hb]; [|done].
  apply dict_add_Ok in Hnb as (s & Hs & _).
  assert (0 ≤ a - 1 < n) by (apply Hkeys; eauto).
  cbn. apply bool_decide_pack. lia.
Qed.

Lemma ex04_register_weighted st e :
  Ex04.register_arc n st e = Weighted.register_arc n st (e ++ [PInt 1]).
Proof. destruct e as [|[a| |] [|[b| |] [|[c| |] [|? ?]]]]; done. Qed.

Lemma accepted_edge_arc e : accepted_edge n e = accepted_arc n (e ++ [PInt 1]).
Proof. destruct e as [|[a| |] [|[b| |] [|[c| |] [|? ?]]]]; done. Qed.
End directed.

Lemma last_weight_snoc n pre e u v :
  accepted_arc n e →
  last_weight n (pre ++ [e]) u v =
    if designates n e u v then last_weight n [e] u v else last_weight n pre u v.
Proof.
  intros He. destruct e as [|[a| |] [|[b| |] [|[w| |] [|]]]]; try done.
  unfold last_weight. rewrite foldl_app. cbn [foldl]. by destruct (designates _ _ _ _).
Qed.

Lemma weighted_init_accepts n arcs g :
  Weighted.init n arcs = Ok g → Forall (λ e, accepted_arc n e) arcs.
Proof.
  unfold Weighted.init. intros Hg.
  destruct (for_each _ arcs _) as [st|] eqn:Hrun; [|done].
  destruct (for_each_Ok_inv (Weighted.register_arc n) (stores n) (λ e, accepted_arc n e)
              arcs (fresh_matrix n inf, fresh_neighbors n) st) as [Hall _];
    [|apply fresh_stores|done|done].
  intros st0 e st1 Hst0 Hstep.
  pose proof (weighted_register_Ok n st0 e st1 Hst0 Hstep) as He. split; [done|].
  destruct (weighted_register_accepted n st0 e Hst0 He) as (st2 & Hst2 & ? & _). congruence.
Qed.

Lemma weighted_accepted_built n arcs :
  Forall (λ e, accepted_arc n e) arcs →
  ∃ g, Weighted.init n arcs = Ok g ∧ N g = n ∧ square n (matrix g) ∧
       ∀ u v, 0 ≤ u < n → 0 ≤ v < n → cell (matrix g) u v = Some (last_weight n arcs u v).
Proof.
  intros Hall. unfold Weighted.init.
  destruct (for_each_prefix (Weighted.register_arc n)
              (λ pre st, stores n st ∧ ∀ u v, 0 ≤ u < n → 0 ≤ v < n →
                           cell st.1 u v = Some (last_weight n pre u v))
              (λ e, accepted_arc n e) arcs (fresh_matrix n inf, fresh_neighbors n))
    as (st & -> & [Hsq _] & Hcell); [| |done|].
  - intros pre e st [Hst Hcell] He.
    destruct (weighted_register_accepted n st e Hst He) as (st' & -> & Hst' & Hcell').
    eexists. split; [done|]. split; [done|]. intros u v Hu Hv.
    rewrite Hcell', last_weight_snoc by done.
    destruct (designates n e u v); [done | by apply Hcell].
  - split; [apply fresh_stores|]. intros u v Hu Hv. cbn. rewrite fresh_cell.
    by rewrite decide_True.
  - cbn. eauto.
Qed.

(** X7.  The directed constructors (the weighted one of ex05 and proj02,
    the unweighted one of ex03, ex04 and proj01) return a graph exactly when
    every record has integer fields, its origin in [1, N] and its end in
    [1 - N, N]: an end below 1 passes, as a negative column index. *)
Theorem directed_init_iff (n : Z) (arcs : list (list pyval)) :
  ((∃ g, Weighted.init n arcs = Ok g) ↔ Forall (λ e, accepted_arc n e) arcs) ∧
  ((∃ g, Ex04.init n arcs = Ok g) ↔ Forall (λ e, accepted_edge n e) arcs).
Proof.
  split; split.
  - intros [g Hg]. by eapply weighted_init_accepts.
  - intros Hall. destruct (weighted_accepted_built n arcs Hall) as (g & Hg & _). eauto.
  - intros [g Hg]. unfold Ex04.init in Hg.
    destruct (for_each _ arcs _) as [st|] eqn:Hrun; [|done].
    destruct (for_each_Ok_inv (Ex04.register_arc n) (stores n) (λ e, accepted_edge n e)
                arcs (fresh_matrix n 0, fresh_neighbors n) st) as [Hall _];
      [|apply fresh_stores|done|done].
    intros st0 e st1 Hst0 Hstep. rewrite ex04_register_weighted in Hstep.
    pose proof (weighted_register_Ok n st0 _ st1 Hst0 Hstep) as He.
    rewrite accepted_edge_arc. split; [done|].
    destruct (weighted_register_accepted n st0 _ Hst0 He) as (st2 & Hst2 & ? & _). congruence.
  - intros Hall. unfold Ex04.init.
    destruct (for_each_invariant (Ex04.register_arc n) (stores n) (λ e, accepted_edge n e)
                arcs (fresh_matrix n 0, fresh_neighbors n)) as (st & -> & _);
      [|apply fresh_stores|done|cbn; eauto].
    intros st0 e Hst0 He. rewrite ex04_register_weighted. rewrite accepted_edge_arc in He.
    destruct (weighted_register_accepted n st0 _ Hst0 He) as (st2 & Hst2 & ? & _). eauto.
Qed.

Lemma last_weight_none n arcs u v :
  (∀ e, e ∈ arcs → ¬ designates n e u v) → last_weight n arcs u v = inf.
Proof.
  induction arcs as [|e arcs IH] using rev_ind; intros Hnone; [done|].
  unfold last_weight. rewrite foldl_app. cbn [foldl].
  fold (last_weight n arcs u v). rewrite IH by (intros; apply Hnone; set_solver).
  assert (¬ designates n e u v) as He by (apply Hnone; set_solver).
  destruct e as [|? [|? [|[w| |] [|]]]]; try done.
  destruct (designates _ _ _ _); [exfalso; apply He; exact I | done].
Qed.

Lemma last_weight_last n pre a b w post u v :
  designates n [PInt a; PInt b; PInt w] u v →
  Forall (λ e, ¬ designates n e u v) post →
  last_weight n (pre ++ [PInt a; PInt b; PInt w] :: post) u v = w.
Proof.
  intros He. induction post as [|e post IH] using rev_ind; intros Hpost.
  - unfold last_weight. rewrite foldl_app. cbn [foldl].
    by destruct (designates _ _ _ _).
  - apply Forall_app in Hpost as [Hpost He']. rewrite Forall_singleton in He'.
    rewrite app_comm_cons, app_assoc. unfold last_weight. rewrite foldl_app. cbn [foldl].
    fold (last_weight n (pre ++ [PInt a; PInt b; PInt w] :: post) u v). rewrite IH by done.
    destruct e as [|x [|y [|[w'| |] [|]]]]; try done.
    destruct (designates n [x; y; PInt w'] u v); [exfalso; apply He'; exact I | done].
Qed.

(** X8.  In the matrix the weighted constructor builds, a cell holds the
    weight of the last record that designates it, and [inf] when no record
    does: a later record for the same pair of nodes overwrites an earlier
    one. *)
Theorem weighted_last_record_wins (n : Z) (arcs : list (list pyval)) (g : Graph) (u v : Z) :
  Weighted.init n arcs = Ok g → 0 ≤ u < n → 0 ≤ v < n →
  cell (matrix g) u v = Some (last_weight n arcs u v) ∧
  (∀ pre a b w post, arcs = pre ++ [PInt a; PInt b; PInt w] :: post →
     designates n [PInt a; PInt b; PInt w] u v →
     Forall (λ e, ¬ designates n e u v) post → cell (matrix g) u v = Some w) ∧
  ((∀ e, e ∈ arcs → ¬ designates n e u v) → cell (matrix g) u v = Some inf).
Proof.
  intros Hg Hu Hv. pose proof (weighted_init_accepts n arcs g Hg) as Hall.
  destruct (weighted_accepted_built n arcs Hall) as (g' & Hg' & _ & _ & Hcell).
  assert (g' = g) as -> by congruence. rewrite Hcell by done.
  split; [done|]. split.
  - intros pre a b w post -> He Hpost. by rewrite last_weight_last.
  - intros Hnone. by rewrite last_weight_none.
Qed.

Lemma weighted_last_record_wins_witness :
  ∃ g, Weighted.init 2 [[PInt 1; PInt 2; PInt 5]; [PInt 1; PInt 2; PInt 3]] = Ok g ∧
       cell (matrix g) 0 1 = Some 3.
Proof.
  eexists. split; [vm_compute; reflexivity|].
  match goal with |- cell (matrix ?g) _ _ = _ =>
    destruct (weighted_last_record_wins 2
                [[PInt 1; PInt 2; PInt 5]; [PInt 1; PInt 2; PInt 3]] g 0 1)
      as (_ & Hlast & _); [vm_compute; reflexivity | lia | lia |]
  end.
  apply (Hlast [[PInt 1; PInt 2; PInt 5]] 1 2 3 []); [reflexivity | exact I | constructor].
Defined.

Lemma weighted_register_arcs n st a b w st' :
  stores n st → Weighted.register_arc n st [PInt a; PInt b; PInt w] = Ok st' →
  ∀ x y, arc st'.2 x y ↔ (x = a - 1 ∧ y = b - 1) ∨ arc st.2 x y.
Proof.
  intros [Hsq Hkeys]. unfold Weighted.register_arc. case_bool_decide; [done|].
  destruct (setitem2 st.1 (a - 1) (b - 1) w) as [M'|]; [|done]. cbn.
  destruct (dict_add st.2 (a - 1) (b - 1)) as [nb'|] eqn:Hnb; [|done]. intros [= <-].
  apply dict_add_Ok in Hnb as (s & Hs & ->). intros x y. cbn. by apply arc_insert.
Qed.

(** X9.  The unweighted directed constructor (ex03, ex04, proj01) sets to 1
    the cells its records designate, a negative column index counting from
    the last column, and leaves 0 elsewhere; the neighbour set of a node
    holds the ends of its records as they are written, minus one. *)
Theorem directed_stores (n : Z) (arcs : list (list pyval)) (g : Graph) :
  Ex04.init n arcs = Ok g →
  N g = n ∧
  (∀ u v, 0 ≤ u < n → 0 ≤ v < n →
     cell (matrix g) u v = Some (if existsb (λ e, designates n e u v) arcs then 1 else 0)) ∧
  (∀ u v, arc (neighbors g) u v ↔ recorded2 arcs u v).
Proof.
  intros Hg.
  assert (Forall (λ e, accepted_edge n e) arcs) as Hall by (apply directed_init_iff; eauto).
  revert Hg. unfold Ex04.init.
  destruct (for_each_prefix (Ex04.register_arc n)
              (λ pre st, stores n st ∧
                 (∀ u v, 0 ≤ u < n → 0 ≤ v < n →
                    cell st.1 u v
                    = Some (if existsb (λ e, designates n e u v) pre then 1 else 0)) ∧
                 (∀ u v, arc st.2 u v ↔ recorded2 pre u v))
              (λ e, accepted_edge n e) arcs (fresh_matrix n 0, fresh_neighbors n))
    as (st & -> & _ & Hcell & Harc); [| |done|].
  - intros pre e st (Hst & Hcell & Harc) He.
    rewrite ex04_register_weighted. pose proof He as He'. rewrite accepted_edge_arc in He'.
    destruct (weighted_register_accepted n st _ Hst He') as (st' & Hrun & Hst' & Hcell').
    exists st'. split; [done|]. split; [done|].
    destruct e as [|[a| |] [|[b| |] [|]]]; try done. split.
    + intros u v Hu Hv. rewrite Hcell', existsb_app. cbn [existsb app designates].
      rewrite orb_false_r.
      destruct (bool_decide (a - 1 = u ∧ wrap n (b - 1) = v)) eqn:Hd.
      * rewrite orb_true_r. unfold last_weight. cbn [foldl designates]. by rewrite Hd.
      * rewrite orb_false_r. by apply Hcell.
    + intros u v. rewrite (weighted_register_arcs n st a b 1 st' Hst Hrun), Harc.
      unfold recorded2. rewrite elem_of_app, list_elem_of_singleton. split.
      * intros [[-> ->]|?]; [right; repeat f_equal; lia | by left].
      * intros [?|[= ? ?]]; [by right | left; lia].
  - split; [apply fresh_stores|]. split.
    + intros u v Hu Hv. cbn. rewrite fresh_cell. by rewrite decide_True.
    + intros u v. cbn. split; [by intros ?%fresh_arc | by intros ?%elem_of_nil].
  - cbn. intros [= <-]. done.
Qed.

Lemma directed_stores_witness :
  ∃ g, Ex04.init 3 [[PInt 1; PInt 2]; [PInt 2; PInt 0]] = Ok g ∧ N g = 3 ∧
    (∀ u v, 0 ≤ u < 3 → 0 ≤ v < 3 →
       cell (matrix g) u v
       = Some (if existsb (λ e, designates 3 e u v) [[PInt 1; PInt 2]; [PInt 2; PInt 0]]
               then 1 else 0)) ∧
    (∀ u v, arc (neighbors g) u v ↔ recorded2 [[PInt 1; PInt 2]; [PInt 2; PInt 0]] u v).
Proof.
  eexists. split; [vm_compute; reflexivity|].
  apply (directed_stores 3 [[PInt 1; PInt 2]; [PInt 2; PInt 0]]). vm_compute. reflexivity.
Defined.

(** ** Dijkstra outside the claims' cases *)

Lemma weighted_nonneg_built n arcs g :
  Forall (λ e, valid_arc n e ∧ nonneg_arc e) arcs → Weighted.init n arcs = Ok g →
  N g = n ∧ wf_graph g ∧ square (N g) (matrix g) ∧
  (∀ u v, arc (neighbors g) u v → 0 ≤ weight g u v) ∧
  (∀ u v, arc (neighbors g) u v ↔ recorded3 arcs u v).
Proof.
  intros Hall Hg.
  destruct (weighted_built n arcs) as (g' & Hg' & HN & Hwf & Hsq & Harc & Hw).
  { eapply Forall_impl; [exact Hall|]. by intros e [? _]. }
  assert (g' = g) as -> by congruence. rewrite <- HN in Hsq.
  split; [done|]. split; [done|]. split; [done|]. split; [|done].
  intros u v Huv. apply Hw in Huv.
  assert (Forall (λ e, nonneg_arc e) arcs) as Hnn.
  { eapply Forall_impl; [exact Hall|]. by intros e [_ ?]. }
  pose proof (record_weight (λ w, bool_decide (0 ≤ w)) nonneg_arc arcs _ _ _
                ltac:(done) Hnn Huv) as Hpos.
  by apply bool_decide_unpack in Hpos.
Qed.

Section distances.
Context {order : SetIteration} (g : Graph).
Hypothesis Hwf : wf_graph g.
Hypothesis Hsq : square (N g) (matrix g).
Hypothesis Hnonneg : ∀ u v, arc (neighbors g) u v → 0 ≤ weight g u v.

Lemma path_cost_nonneg x p u : grown (arc (neighbors g)) x p u → 0 ≤ path_cost (weight g) p.
Proof.
  induction 1 as [|p u v Hp IH HE]; [done|].
  rewrite (path_cost_snoc _ _ u) by (by eapply grown_last). specialize (Hnonneg u v HE). lia.
Qed.

Lemma path_cost_app x p v q u :
  grown (arc (neighbors g)) x p v → grown (arc (neighbors g)) v q u →
  path_cost (weight g) (p ++ tail q) = path_cost (weight g) p + path_cost (weight g) q.
Proof.
  intros Hp. induction 1 as [|q u w Hq IH HE].
  - cbn. rewrite app_nil_r. lia.
  - assert (tail (q ++ [w]) = tail q ++ [w]) as ->.
    { apply grown_length in Hq. destruct q; [cbn in Hq; lia | done]. }
    rewrite app_assoc.
    rewrite (path_cost_snoc _ (p ++ tail q) u).
    + rewrite (path_cost_snoc _ q u) by (by eapply grown_last). lia.
    + eapply grown_last, grown_app; eauto.
Qed.

(** What [dijkstra] returns between two nodes, the equal ones included. *)
Lemma dijkstra_distance root target :
  0 ≤ root < N g →
  ∃ c, Ex05.dijkstra g root target = Some (Ok c) ∧
       ((c = inf ∧ ∀ w, ¬ grown (arc (neighbors g)) root w target) ∨
        (∃ p, grown (arc (neighbors g)) root p target ∧ path_cost (weight g) p = c ∧
              ∀ w, grown (arc (neighbors g)) root w target → c ≤ path_cost (weight g) w)).
Proof.
  intros Hr. destruct (decide (root = target)) as [<-|Hne].
  - exists 0. unfold Ex05.dijkstra. rewrite decide_True by done. split; [done|]. right.
    exists [root]. split; [constructor|]. split; [done|].
    intros w Hw. by eapply path_cost_nonneg.
  - destruct (dijkstra_least g root target Hwf Hsq Hnonneg Hr Hne) as (c & Hc & Hpost).
    exists c. split; [done|]. exact Hpost.
Qed.
End distances.

(** X10.  On a graph built by the weighted constructor from records with
    identifiers in [1, N] and non-negative weights, [dijkstra] from a root
    that is not a node of the graph to another node fails with the
    [KeyError] of the lookup of its neighbours; from a node of the graph to a
    target that is not a node it returns [inf]. *)
Theorem dijkstra_outside_graph {order : SetIteration} (n : Z) (arcs : list (list pyval))
    (g : Graph) (root target : Z) :
  Forall (λ e, valid_arc n e ∧ nonneg_arc e) arcs → Weighted.init n arcs = Ok g →
  (¬ 0 ≤ root < n → root ≠ target → Ex05.dijkstra g root target = Some (Raise KeyError)) ∧
  (0 ≤ root < n → ¬ 0 ≤ target < n → Ex05.dijkstra g root target = Some (Ok inf)).
Proof.
  intros Hall Hg.
  destruct (weighted_nonneg_built n arcs g Hall Hg) as (HN & Hwf & Hsq & Hnn & _). subst n.
  split.
  - intros Hr Hne. unfold Ex05.dijkstra, Ex05.dijkstra_fuel. rewrite decide_False by done.
    pose proof (budget_pos (Z.to_nat (N g))) as Hfuel.
    destruct (budget (Z.to_nat (N g))) as [|fuel]; [lia|].
    cbn [Ex05.dijkstra_loop heappop heap_min remove_first].
    rewrite (decide_True (P := (0, root) = (0, root))) by done.
    rewrite decide_False by done.
    unfold dict_get. destruct (neighbors g !! root) eqn:Hs; [|done].
    exfalso. apply Hr, (proj1 Hwf). eauto.
  - intros Hr Ht.
    destruct (dijkstra_distance g Hwf Hsq Hnn root target Hr) as (c & -> & [[-> _]|Hpath]);
      [done|].
    destruct Hpath as (p & Hp & _). exfalso. apply Ht. by eapply grown_in_range.
Qed.

Lemma dijkstra_outside_graph_witness :
  ∃ g, Weighted.init 2 [[PInt 1; PInt 2; PInt 4]] = Ok g ∧
       @Ex05.dijkstra elements_iteration g 5 0 = Some (Raise KeyError) ∧
       @Ex05.dijkstra elements_iteration g 0 5 = Some (Ok inf).
Proof.
  eexists. split; [vm_compute; reflexivity|].
  match goal with |- context [@Ex05.dijkstra _ ?g 5 0] =>
    pose proof (@dijkstra_outside_graph elements_iteration 2 [[PInt 1; PInt 2; PInt 4]] g 5 0
                  ltac:(check_records) ltac:(vm_compute; reflexivity)) as [Hkey _];
    pose proof (@dijkstra_outside_graph elements_iteration 2 [[PInt 1; PInt 2; PInt 4]] g 0 5
                  ltac:(check_records) ltac:(vm_compute; reflexivity)) as [_ Hinf]
  end.
  split; [apply Hkey | apply Hinf]; lia.
Defined.

(** X11.  On such a graph the costs [dijkstra] returns are non-negative
    and obey the triangle inequality: when [b] is reachable from [a] and [c]
    from [b], the cost from [a] to [c] is at most the sum of the costs from
    [a] to [b] and from [b] to [c]. *)
Theorem dijkstra_triangle {order : SetIteration} (n : Z) (arcs : list (list pyval))
    (g : Graph) (a b c : Z) :
  Forall (λ e, valid_arc n e ∧ nonneg_arc e) arcs → Weighted.init n arcs = Ok g →
  0 ≤ a < n → 0 ≤ b < n →
  (∃ w, is_path (arc (neighbors g)) a b w) → (∃ w, is_path (arc (neighbors g)) b c w) →
  ∃ x y z, Ex05.dijkstra g a b = Some (Ok x) ∧ Ex05.dijkstra g b c = Some (Ok y) ∧
           Ex05.dijkstra g a c = Some (Ok z) ∧ 0 ≤ x ∧ 0 ≤ y ∧ 0 ≤ z ∧ z ≤ x + y.
Proof.
  intros Hall Hg Ha Hb [w1 Hw1] [w2 Hw2].
  destruct (weighted_nonneg_built n arcs g Hall Hg) as (HN & Hwf & Hsq & Hnn & _). subst n.
  apply is_path_iff_grown in Hw1, Hw2.
  destruct (dijkstra_distance g Hwf Hsq Hnn a b Ha) as (x & Hx & [[_ Hnone]|Hab]);
    [by apply Hnone in Hw1|].
  destruct (dijkstra_distance g Hwf Hsq Hnn b c Hb) as (y & Hy & [[_ Hnone]|Hbc]);
    [by apply Hnone in Hw2|].
  destruct Hab as (p & Hp & Hpx & _). destruct Hbc as (q & Hq & Hqy & _).
  pose proof (grown_app _ _ _ _ _ _ Hp Hq) as Hpq.
  destruct (dijkstra_distance g Hwf Hsq Hnn a c Ha) as (z & Hz & [[_ Hnone]|Hac]);
    [by apply Hnone in Hpq|].
  destruct Hac as (r & Hr & Hrz & Hmin).
  exists x, y, z. split; [done|]. split; [done|]. split; [done|].
  pose proof (path_cost_nonneg g Hnn _ _ _ Hp). pose proof (path_cost_nonneg g Hnn _ _ _ Hq).
  pose proof (path_cost_nonneg g Hnn _ _ _ Hr).
  specialize (Hmin _ Hpq). rewrite (path_cost_app g _ _ _ _ _ Hp Hq) in Hmin. lia.
Qed.

Lemma dijkstra_triangle_witness :
  ∃ g, Weighted.init 3 [[PInt 1; PInt 2; PInt 5]; [PInt 2; PInt 3; PInt 7];
                        [PInt 1; PInt 3; PInt 20]] = Ok g ∧
    ∃ x y z, @Ex05.dijkstra elements_iteration g 0 1 = Some (Ok x) ∧
             @Ex05.dijkstra elements_iteration g 1 2 = Some (Ok y) ∧
             @Ex05.dijkstra elements_iteration g 0 2 = Some (Ok z) ∧
             0 ≤ x ∧ 0 ≤ y ∧ 0 ≤ z ∧ z ≤ x + y.
Proof.
  eexists. split; [vm_compute; reflexivity|].
  eapply (@dijkstra_triangle elements_iteration 3
            [[PInt 1; PInt 2; PInt 5]; [PInt 2; PInt 3; PInt 7]; [PInt 1; PInt 3; PInt 20]]);
    [check_records | vm_compute; reflexivity | lia | lia | |].
  - exists [0; 1]. apply is_path_iff_grown.
    apply (grown_snoc _ 0 [0] 0 1); [constructor|].
    exists {[1; 2]}. split; [vm_compute; reflexivity | set_solver].
  - exists [1; 2]. apply is_path_iff_grown.
    apply (grown_snoc _ 1 [1] 1 2); [constructor|].
    exists {[2]}. split; [vm_compute; reflexivity | set_solver].
Defined.

(** ** The distance matrix of ex05 *)

Lemma getitem_first_row n D :
  square n D → 0 < n → ∃ row, getitem D 0 = Ok row ∧ Z.of_nat (length row) = n.
Proof.
  intros [Hlen Hrows] Hn. unfold getitem. rewrite py_index_nonneg by lia.
  destruct (lookup_lt_is_Some_2 D (Z.to_nat 0)) as [row Hrow]; [lia|].
  rewrite Hrow. exists row. split; [done|].
  pose proof (proj1 (Forall_lookup _ _) Hrows _ _ Hrow). cbn in *. lia.
Qed.

Section cost_matrix.
Context {order : SetIteration} (g : Graph).
Hypothesis Hwf : wf_graph g.
Hypothesis Hsq : square (N g) (matrix g).
Hypothesis Hnonneg : ∀ u v, arc (neighbors g) u v → 0 ≤ weight g u v.

Lemma distancies_matrix_built :
  ∃ D, Ex05_main.distancies_matrix g = Some (Ok D) ∧ square (N g) D ∧
    ∀ i j, 0 ≤ i < N g → 0 ≤ j < N g →
      ∃ c, Ex05.dijkstra g i j = Some (Ok c) ∧ cell D i j = Some c.
Proof.
  unfold Ex05_main.distancies_matrix. cbn zeta.
  assert (Z.of_nat (length (fresh_matrix (N g) 0)) = Z.max 0 (N g)) as ->.
  { unfold fresh_matrix. rewrite length_replicate. lia. }
  destruct (decide (0 < N g)) as [Hn|Hn].
  - replace (Z.max 0 (N g)) with (N g) by lia. rewrite range_from_zero.
    set (upto := λ (i j : Z) (D : list (list Z)),
           square (N g) D ∧
           (∀ a b, 0 ≤ a < N g → 0 ≤ b < N g → a < i ∨ (a = i ∧ b < j) →
              ∃ c, Ex05.dijkstra g a b = Some (Ok c) ∧ cell D a b = Some c)).
    match goal with |- context [for_each_run ?body _ _] =>
      destruct (for_run_range body (λ i D, upto i 0 D) 0 (N g) (fresh_matrix (N g) 0))
        as (D & -> & Hsq' & Hcells); [lia| | |]
    end.
    + split; [apply fresh_square|]. intros a b Ha Hb [?|[? ?]]; lia.
    + intros i D Hi [HsqD Hcells]. cbn beta.
      destruct (getitem_first_row (N g) D HsqD Hn) as (row & -> & ->).
      rewrite range_from_zero.
      match goal with |- context [for_each_run ?body _ _] =>
        destruct (for_run_range body (λ j D, upto i j D) 0 (N g) D)
          as (D' & -> & Hsq' & Hcells'); [lia| | |]
      end.
      * done.
      * intros j D0 Hj [Hsq0 Hcells0]. cbn beta.
        destruct (dijkstra_distance g Hwf Hsq Hnonneg i j Hi) as (c & Hc & _). rewrite Hc.
        destruct (setitem2_cell D0 (N g) i j c Hsq0 Hi Hj) as (D1 & -> & Hsq1 & Hc1).
        eexists. split; [done|]. split; [done|]. intros a b Ha Hb Hpos.
        rewrite Hc1. case_decide as Hab.
        -- destruct Hab as [-> ->]. eauto.
        -- apply Hcells0; [done..|lia].
      * eexists. split; [done|]. split; [done|]. intros a b Ha Hb Hpos.
        apply Hcells'; [done..|lia].
    + exists D. split; [done|]. split; [done|]. intros i j Hi Hj. apply Hcells; [done..|lia].
  - replace (Z.max 0 (N g)) with 0 by lia. cbn. eexists. split; [done|].
    split; [apply fresh_square|]. intros i j Hi. lia.
Qed.
End cost_matrix.

(** X12.  The main program of ex05 fills its distance matrix without
    failing for every graph built from records with identifiers in [1, N] and
    non-negative weights: the entry [(i, j)] is what [dijkstra(i, j)]
    returns, zero on the diagonal and [inf] where no path leads from [i] to
    [j]. *)
Theorem ex05_distancies_matrix {order : SetIteration} (n : Z) (arcs : list (list pyval))
    (g : Graph) :
  Forall (λ e, valid_arc n e ∧ nonneg_arc e) arcs → Weighted.init n arcs = Ok g →
  ∃ D, Ex05_main.distancies_matrix g = Some (Ok D) ∧ square n D ∧
    ∀ i j, 0 ≤ i < n → 0 ≤ j < n →
      (∃ c, Ex05.dijkstra g i j = Some (Ok c) ∧ cell D i j = Some c) ∧
      (i = j → cell D i j = Some 0) ∧
      (i ≠ j → (∀ w, ¬ is_path (arc (neighbors g)) i j w) → cell D i j = Some inf).
Proof.
  intros Hall Hg.
  destruct (weighted_nonneg_built n arcs g Hall Hg) as (HN & Hwf & Hsq & Hnn & _). subst n.
  destruct (distancies_matrix_built g Hwf Hsq Hnn) as (D & HD & HsqD & Hcells).
  exists D. split; [done|]. split; [done|]. intros i j Hi Hj.
  destruct (Hcells i j Hi Hj) as (c & Hc & Hcell). split; [eauto|]. split.
  - intros <-. unfold Ex05.dijkstra in Hc. rewrite decide_True in Hc by done. congruence.
  - intros Hne Hnone.
    destruct (dijkstra_distance g Hwf Hsq Hnn i j Hi) as (c' & Hc' & [[-> _]|Hpath]).
    + congruence.
    + destruct Hpath as (p & Hp & _). exfalso. apply (Hnone p). by apply is_path_iff_grown.
Qed.

Lemma ex05_distancies_matrix_witness :
  ∃ g, Weighted.init 2 [[PInt 1; PInt 2; PInt 4]] = Ok g ∧
    ∃ D, @Ex05_main.distancies_matrix elements_iteration g = Some (Ok D) ∧ square 2 D ∧
      ∀ i j, 0 ≤ i < 2 → 0 ≤ j < 2 →
        (∃ c, @Ex05.dijkstra elements_iteration g i j = Some (Ok c) ∧ cell D i j = Some c) ∧
        (i = j → cell D i j = Some 0) ∧
        (i ≠ j → (∀ w, ¬ is_path (arc (neighbors g)) i j w) → cell D i j = Some inf).
Proof.
  eexists. split; [vm_compute; reflexivity|].
  apply (@ex05_distancies_matrix elements_iteration 2 [[PInt 1; PInt 2; PInt 4]]);
    [check_records | vm_compute; reflexivity].
Defined.

(** ** Undirected files *)

Lemma reversed_valid_edge n e : valid_edge n e → valid_edge n (reverse e).
Proof.
  destruct e as [|[a| |] [|[b| |] [|]]]; try done. cbn.
  intros [? ?]%andb_True. apply andb_True. done.
Qed.

Lemma mirror_reversed_valid n arcs :
  Forall (λ e, valid_edge n e) arcs →
  Forall (λ e, valid_edge n e) (Pajek.mirror_reversed true arcs).
Proof.
  intros Hall. apply Forall_app. split; [done|].
  apply Forall_fmap. eapply Forall_impl; [exact Hall|]. intros e. apply reversed_valid_edge.
Qed.

Lemma mirror_reversed_recorded arcs u v :
  recorded2 (Pajek.mirror_reversed true arcs) u v ↔ recorded2 arcs u v ∨ recorded2 arcs v u.
Proof.
  unfold recorded2, Pajek.mirror_reversed. rewrite elem_of_app, list_elem_of_fmap.
  split.
  - intros [?|(e & He & Hin)]; [by left|]. right.
    replace [PInt (v + 1); PInt (u + 1)] with (reverse (reverse e));
      [by rewrite reverse_involutive | by rewrite <- He].
  - intros [?|Hr]; [by left|]. right. by exists [PInt (v + 1); PInt (u + 1)].
Qed.

(** The graph the constructor of ex03 and ex04 builds from valid records. *)
Lemma directed_built n arcs :
  Forall (λ e, valid_edge n e) arcs →
  ∃ g, Ex04.init n arcs = Ok g ∧ N g = n ∧ wf_graph g ∧
       ∀ u v, arc (neighbors g) u v ↔ recorded2 arcs u v.
Proof.
  intros Hall. unfold Ex04.init.
  destruct (for_each_prefix (Ex04.register_arc n)
              (λ pre st, stores n st ∧ ∀ u v, arc st.2 u v ↔ recorded2 pre u v)
              (λ e, valid_edge n e) arcs (fresh_matrix n 0, fresh_neighbors n))
    as (st & -> & [_ Hkeys] & Harc); [| |done|].
  - intros pre e st [Hst Harc] He.
    destruct e as [|[a| |] [|[b| |] [|]]]; try done.
    assert (accepted_arc n [PInt a; PInt b; PInt 1]) as Hacc.
    { cbn in He. apply andb_True in He as [Ha Hb]. unfold node_id in Ha, Hb.
      apply bool_decide_unpack in Ha, Hb. apply bool_decide_pack. lia. }
    rewrite ex04_register_weighted.
    destruct (weighted_register_accepted n st _ Hst Hacc) as (st' & Hrun & Hst' & _).
    exists st'. split; [done|]. split; [done|]. intros u v.
    rewrite (weighted_register_arcs n st a b 1 st' Hst Hrun), Harc.
    unfold recorded2. rewrite elem_of_app, list_elem_of_singleton. split.
    + intros [[-> ->]|?]; [right; repeat f_equal; lia | by left].
    + intros [?|[= ? ?]]; [by right | left; lia].
  - split; [apply fresh_stores|]. intros u v. cbn.
    split; [by intros ?%fresh_arc | by intros ?%elem_of_nil].
  - cbn. eexists. split; [done|]. split; [done|]. split; [|done].
    split; [done|]. cbn. intros u v Huv. apply Harc in Huv.
    apply (proj1 (Forall_forall _ _) Hall) in Huv. cbn in Huv.
    apply andb_True in Huv as [Ha Hb]. unfold node_id in Ha, Hb.
    apply bool_decide_unpack in Ha, Hb. lia.
Qed.

(** X13.  For a file of undirected edges ex04 answers that the graph has a
    cycle as soon as the file lists one edge: [read_pajek] adds the reverse of
    every record, and an arc with its reverse is a closed walk for
    [has_cycle]. *)
Theorem undirected_always_cyclic {order : SetIteration} (n : Z) (arcs : list (list pyval)) :
  Forall (λ e, valid_edge n e) arcs → arcs ≠ [] →
  ∃ g, Ex04.init n (Pajek.mirror_reversed true arcs) = Ok g ∧
       Ex04.has_cycle g = Some (Ok true).
Proof.
  intros Hall Hne.
  destruct (directed_built n _ (mirror_reversed_valid n arcs Hall))
    as (g & Hg & HN & Hwf & Harc).
  exists g. split; [done|].
  destruct (has_cycle_correct g Hwf) as (b & -> & Hb). do 2 f_equal. apply Hb.
  destruct arcs as [|e arcs]; [done|].
  apply Forall_cons in Hall as [He _].
  destruct e as [|[a| |] [|[c| |] [|]]]; try done.
  assert (arc (neighbors g) (a - 1) (c - 1) ∧ arc (neighbors g) (c - 1) (a - 1)) as [H1 H2].
  { rewrite !Harc, !mirror_reversed_recorded. unfold recorded2.
    replace (a - 1 + 1) with a by lia. replace (c - 1 + 1) with c by lia.
    split; [left | right]; apply list_elem_of_here. }
  exists (a - 1), [a - 1; c - 1; a - 1]. split; [|cbn; lia].
  apply is_path_iff_grown.
  apply (grown_snoc _ _ [a - 1; c - 1] (c - 1)); [|done].
  apply (grown_snoc _ _ [a - 1] (a - 1)); [constructor | done].
Qed.

Lemma undirected_always_cyclic_witness :
  ∃ g, Ex04.init 2 (Pajek.mirror_reversed true [[PInt 1; PInt 2]]) = Ok g ∧
       @Ex04.has_cycle elements_iteration g = Some (Ok true).
Proof.
  apply (@undirected_always_cyclic elements_iteration 2 [[PInt 1; PInt 2]]);
    [check_records | done].
Defined.

Lemma mirror_reversed_weighted n arcs :
  Forall (λ e, valid_arc n e) arcs → Forall (λ e, weight_is_node n e) arcs →
  Forall (λ e, valid_arc n e) (Pajek.mirror_reversed true arcs).
Proof.
  intros Hall Hw. apply Forall_app. split; [done|]. apply Forall_fmap.
  apply Forall_forall. intros e He.
  apply (proj1 (Forall_forall _ _) Hall) in He as Hv.
  apply (proj1 (Forall_forall _ _) Hw) in He as Hn.
  destruct e as [|[a| |] [|[b| |] [|[w| |] [|]]]]; try done.
  cbn in *. apply andb_True in Hv as [_ Hb]. apply andb_True. done.
Qed.

(** X14.  For a file of undirected edges ex05 adds each record read
    backwards, weight first: [(a, b, w)] comes back as an arc from node [w] to
    node [b] of weight [a].  So the constructor returns a graph exactly when
    every weight is a node identifier, and the arcs of that graph are the
    records and, for each record, the arc from its weight to its end. *)
Theorem ex05_undirected_input (n : Z) (arcs : list (list pyval)) :
  Forall (λ e, valid_arc n e) arcs →
  ((∃ g, Weighted.init n (Pajek.mirror_reversed true arcs) = Ok g)
   ↔ Forall (λ e, weight_is_node n e) arcs) ∧
  (∀ g, Weighted.init n (Pajek.mirror_reversed true arcs) = Ok g →
     ∀ u v, arc (neighbors g) u v ↔
            recorded3 arcs u v ∨ ∃ a, [PInt a; PInt (v + 1); PInt (u + 1)] ∈ arcs).
Proof.
  intros Hall.
  assert (∀ g, Weighted.init n (Pajek.mirror_reversed true arcs) = Ok g →
               Forall (λ e, weight_is_node n e) arcs) as Hnodes.
  { intros g Hg. apply weighted_init_accepts in Hg.
    apply Forall_app in Hg as [_ Hg]. rewrite Forall_fmap in Hg.
    apply Forall_forall. intros e He.
    apply (proj1 (Forall_forall _ _) Hall) in He as Hv.
    apply (proj1 (Forall_forall _ _) Hg) in He as Hacc.
    destruct e as [|[a| |] [|[b| |] [|[w| |] [|]]]]; try done.
    cbn in Hacc. apply bool_decide_unpack in Hacc. apply bool_decide_pack. lia. }
  split; [split|].
  - intros [g Hg]. by eapply Hnodes.
  - intros Hw.
    destruct (weighted_built n _ (mirror_reversed_weighted n arcs Hall Hw)) as (g & Hg & _).
    eauto.
  - intros g Hg u v. pose proof (Hnodes g Hg) as Hw.
    destruct (weighted_built n _ (mirror_reversed_weighted n arcs Hall Hw))
      as (g' & Hg' & _ & _ & _ & Harc & _).
    assert (g' = g) as -> by congruence. rewrite Harc.
    unfold recorded3, Pajek.mirror_reversed. split.
    + intros [w Hin]. apply elem_of_app in Hin as [Hin|Hin]; [left; eauto|].
      apply list_elem_of_fmap in Hin as (e & He & Hin). right.
      apply (proj1 (Forall_forall _ _) Hall) in Hin as Hv.
      destruct e as [|[a| |] [|[b| |] [|[w'| |] [|]]]]; try done.
      injection He as Hu Hb Hw'. exists a. by rewrite Hu, Hb.
    + intros [[w Hin]|[a Hin]].
      * exists w. apply elem_of_app. by left.
      * exists a. apply elem_of_app. right. apply list_elem_of_fmap.
        by exists [PInt a; PInt (v + 1); PInt (u + 1)].
Qed.

Lemma ex05_undirected_input_witness :
  ((∃ g, Weighted.init 3 (Pajek.mirror_reversed true [[PInt 1; PInt 2; PInt 3]]) = Ok g)
   ↔ Forall (λ e, weight_is_node 3 e) [[PInt 1; PInt 2; PInt 3]]) ∧
  (∀ g, Weighted.init 3 (Pajek.mirror_reversed true [[PInt 1; PInt 2; PInt 3]]) = Ok g →
     ∀ u v, arc (neighbors g) u v ↔
            recorded3 [[PInt 1; PInt 2; PInt 3]] u v
            ∨ ∃ a, [PInt a; PInt (v + 1); PInt (u + 1)] ∈ [[PInt 1; PInt 2; PInt 3]]).
Proof. apply (ex05_undirected_input 3 [[PInt 1; PInt 2; PInt 3]]). check_records. Defined.

Lemma mirror_ends_valid n arcs :
  Forall (λ e, valid_arc n e) arcs →
  Forall (λ e, valid_arc n e) (Pajek.mirror_ends true arcs).
Proof.
  intros Hall. apply Forall_app. split; [done|]. apply Forall_fmap.
  eapply Forall_impl; [exact Hall|]. intros e He.
  destruct e as [|[a| |] [|[b| |] [|[w| |] [|]]]]; try done.
  cbn in *. apply andb_True in He as [? ?]. apply andb_True. done.
Qed.

Lemma mirror_ends_elem arcs a b w :
  [PInt a; PInt b; PInt w] ∈ Pajek.mirror_ends true arcs →
  [PInt a; PInt b; PInt w] ∈ arcs ∨ [PInt b; PInt a; PInt w] ∈ arcs.
Proof.
  intros Hin. apply elem_of_app in Hin as [Hin|Hin]; [by left|]. right.
  apply list_elem_of_fmap in Hin as (e & He & Hin).
  destruct e as [|x [|y [|z [|? ?]]]]; try done.
  cbn in He. by injection He as -> -> ->.
Qed.

Lemma mirror_ends_recorded arcs u v :
  recorded3 (Pajek.mirror_ends true arcs) u v ↔ recorded3 arcs u v ∨ recorded3 arcs v u.
Proof.
  unfold recorded3. split.
  - intros [w Hin]. apply mirror_ends_elem in Hin as [?|?]; eauto.
  - intros [[w Hin]|[w Hin]]; exists w; apply elem_of_app; [by left|]. right.
    apply list_elem_of_fmap. by exists [PInt (v + 1); PInt (u + 1); PInt w].
Qed.

(** The graph proj02 builds from a file of undirected edges. *)
Lemma mirror_ends_built n arcs :
  Forall (λ e, valid_arc n e) arcs →
  ∃ g, Weighted.init n (Pajek.mirror_ends true arcs) = Ok g ∧ N g = n ∧ wf_graph g ∧
       square n (matrix g) ∧
       (∀ u v, arc (neighbors g) u v ↔ recorded3 arcs u v ∨ recorded3 arcs v u) ∧
       (∀ u v, arc (neighbors g) u v →
          [PInt (u + 1); PInt (v + 1); PInt (weight g u v)] ∈ arcs ∨
          [PInt (v + 1); PInt (u + 1); PInt (weight g u v)] ∈ arcs).
Proof.
  intros Hall.
  destruct (weighted_built n _ (mirror_ends_valid n arcs Hall))
    as (g & Hg & HN & Hwf & Hsq & Harc & Hw).
  exists g. split; [done|]. split; [done|]. split; [done|]. split; [done|]. split.
  - intros u v. by rewrite Harc, mirror_ends_recorded.
  - intros u v Huv. by apply mirror_ends_elem, Hw.
Qed.

(** X15.  For a file of undirected edges proj02 and proj01 add each
    record with its two ends swapped.  The weighted constructor then returns a
    graph whose arcs are the records in both directions; the two directions
    of an edge carry the same weight when the file gives no pair of nodes two
    different weights. *)
Theorem proj02_undirected_input (n : Z) (arcs : list (list pyval)) :
  Forall (λ e, valid_arc n e) arcs →
  ∃ g, Weighted.init n (Pajek.mirror_ends true arcs) = Ok g ∧
    (∀ u v, arc (neighbors g) u v ↔ recorded3 arcs u v ∨ recorded3 arcs v u) ∧
    (∀ u v, arc (neighbors g) u v → arc (neighbors g) v u) ∧
    ((∀ a b w w', [PInt a; PInt b; PInt w] ∈ arcs →
        [PInt a; PInt b; PInt w'] ∈ arcs ∨ [PInt b; PInt a; PInt w'] ∈ arcs → w = w') →
     ∀ u v, arc (neighbors g) u v → weight g u v = weight g v u).
Proof.
  intros Hall. destruct (mirror_ends_built n arcs Hall) as (g & Hg & _ & _ & _ & Harc & Hw).
  exists g. split; [done|]. split; [done|]. split.
  - intros u v. rewrite !Harc. tauto.
  - intros Hone u v Huv.
    assert (arc (neighbors g) v u) as Hvu by (apply Harc; apply Harc in Huv; tauto).
    destruct (Hw u v Huv) as [H1|H1], (Hw v u Hvu) as [H2|H2]; eauto using eq_sym.
Qed.

Lemma proj02_undirected_input_witness :
  ∃ g, Weighted.init 2 (Pajek.mirror_ends true [[PInt 1; PInt 2; PInt 7]]) = Ok g ∧
    (∀ u v, arc (neighbors g) u v ↔
            recorded3 [[PInt 1; PInt 2; PInt 7]] u v ∨ recorded3 [[PInt 1; PInt 2; PInt 7]] v u) ∧
    (∀ u v, arc (neighbors g) u v → arc (neighbors g) v u) ∧
    ((∀ a b w w', [PInt a; PInt b; PInt w] ∈ [[PInt 1; PInt 2; PInt 7]] →
        [PInt a; PInt b; PInt w'] ∈ [[PInt 1; PInt 2; PInt 7]]
        ∨ [PInt b; PInt a; PInt w'] ∈ [[PInt 1; PInt 2; PInt 7]] → w = w') →
     ∀ u v, arc (neighbors g) u v → weight g u v = weight g v u).
Proof. apply (proj02_undirected_input 2 [[PInt 1; PInt 2; PInt 7]]). check_records. Defined.

(** ** Depth-first traversal *)

Lemma pop_last {A} (l : list A) (x : A) : Ex04.pop (l ++ [x]) = Ok (x, l).
Proof. unfold Ex04.pop. by rewrite last_snoc, removelast_last. Qed.

Section dft.
Context {order : SetIteration} (g : Graph).
Hypothesis Hwf : wf_graph g.

Lemma reaches_in_range u v : 0 ≤ u < N g → reaches g u v → 0 ≤ v < N g.
Proof. intros Hu [p Hp]. by eapply grown_in_range. Qed.

Lemma reaches_trans u v w : reaches g u v → reaches g v w → reaches g u w.
Proof. intros [p Hp] [q Hq]. eexists. by eapply grown_app. Qed.

Lemma reaches_arc u v w : reaches g u v → arc (neighbors g) v w → reaches g u w.
Proof. intros [p Hp] Hvw. exists (p ++ [w]). by eapply grown_snoc. Qed.

Lemma dft_done root H :
  dft_inv g root [] H → NoDup (iter H) ∧ ∀ v, v ∈ iter H ↔ reaches g root v.
Proof.
  intros Hinv. split; [apply iter_NoDup|]. intros v. rewrite iter_elem.
  split; [apply (dft_history _ _ _ _ Hinv)|]. intros [p Hp].
  assert (root ∈ H) as Hr by (destruct (dft_root _ _ _ _ Hinv) as [?|?%elem_of_nil]; done).
  induction Hp as [|p u w Hp IHp HE]; [done|].
  destruct (dft_closed _ _ _ _ Hinv u w IHp HE) as [?|?%elem_of_nil]; done.
Qed.

Lemma dft_loop_correct root fuel Q H :
  0 ≤ root < N g → dft_inv g root Q H →
  (length Q + pending g H (range (N g)) ≤ fuel)%nat →
  ∃ l, Ex03.dft_loop g fuel Q H = Some (Ok l) ∧ NoDup l ∧ ∀ v, v ∈ l ↔ reaches g root v.
Proof.
  intros Hroot. revert Q H. induction fuel as [|fuel IH]; intros Q H Hinv Hfuel.
  - destruct Q as [|x Q]; [|cbn in Hfuel; lia]. cbn. exists (iter H).
    split; [done|]. by apply dft_done.
  - destruct (decide (Q = [])) as [->|HQ].
    { cbn. exists (iter H). split; [done|]. by apply dft_done. }
    destruct (exists_last HQ) as (Q0 & x & ->). clear HQ.
    rewrite length_app in Hfuel. cbn in Hfuel.
    assert (Ex03.dft_loop g (S fuel) (Q0 ++ [x]) H =
            if decide (x ∈ H) then Ex03.dft_loop g fuel Q0 H
            else match dict_get (neighbors g) x with
                 | Raise e => Some (Raise e)
                 | Ok s => Ex03.dft_loop g fuel
                             (Q0 ++ filter (λ node, node ∉ {[x]} ∪ H) (iter s)) ({[x]} ∪ H)
                 end) as ->.
    { destruct (Q0 ++ [x]) as [|y Q'] eqn:HQ; [by destruct Q0|].
      cbn [Ex03.dft_loop]. by rewrite <- HQ, pop_last. }
    assert (reaches g root x) as Hx by (apply (dft_stack _ _ _ _ Hinv); set_solver).
    case_decide as Hvis.
    + apply IH; [|lia]. split.
      * intros v Hv. apply (dft_stack _ _ _ _ Hinv). set_solver.
      * apply (dft_history _ _ _ _ Hinv).
      * destruct (dft_root _ _ _ _ Hinv) as [?|Hr]; [by left|].
        apply elem_of_app in Hr as [?|Hr]; [by right|]. left. set_solver.
      * intros u v Hu Huv. destruct (dft_closed _ _ _ _ Hinv u v Hu Huv) as [?|Hv]; [by left|].
        apply elem_of_app in Hv as [?|Hv]; [by right|]. left. set_solver.
    + pose proof (reaches_in_range root x Hroot Hx) as Hxr.
      destruct (proj2 (proj1 Hwf x) Hxr) as [s Hs].
      unfold dict_get. rewrite Hs. apply IH.
      * split.
        -- intros v Hv. apply elem_of_app in Hv as [Hv|Hv].
           ++ apply (dft_stack _ _ _ _ Hinv). set_solver.
           ++ apply list_elem_of_filter in Hv as [_ Hv]. apply iter_elem in Hv.
              apply reaches_arc with x; [done|]. by exists s.
        -- intros v Hv. apply elem_of_union in Hv as [Hv|Hv].
           ++ apply elem_of_singleton in Hv as ->. done.
           ++ by apply (dft_history _ _ _ _ Hinv).
        -- destruct (dft_root _ _ _ _ Hinv) as [?|Hr]; [left; set_solver|].
           apply elem_of_app in Hr as [?|Hr]; [right; set_solver|]. left. set_solver.
        -- intros u v Hu Huv. destruct (decide (v ∈ {[x]} ∪ H)) as [?|Hv]; [by left|]. right.
           apply elem_of_union in Hu as [Hu|Hu].
           ++ apply elem_of_singleton in Hu as ->. destruct Huv as (s' & Hs' & Hv').
              assert (s' = s) as -> by congruence.
              apply elem_of_app. right. apply list_elem_of_filter. split; [done|].
              by apply iter_elem.
           ++ destruct (dft_closed _ _ _ _ Hinv u v Hu Huv) as [?|Hv']; [set_solver|].
              apply elem_of_app in Hv' as [?|Hv']; [set_solver|]. set_solver.
      * rewrite length_app.
        pose proof (length_filter (λ node, node ∉ {[x]} ∪ H) (iter s)) as Hlen.
        rewrite iter_length in Hlen.
        pose proof (pending_insert g H x s (range (N g)) Hvis) as Hp.
        rewrite range_elem in Hp. specialize (Hp Hxr Hs). lia.
Qed.

(** The traversal returns the nodes that can be reached from the root. *)
Lemma dft_reaches root :
  0 ≤ root < N g →
  ∃ l, Ex03.dft g root = Some (Ok l) ∧ NoDup l ∧ ∀ v, v ∈ l ↔ reaches g root v.
Proof.
  intros Hroot. apply dft_loop_correct; [done| |cbn; unfold Ex03.dft_fuel; lia].
  split.
  - intros v Hv. apply list_elem_of_singleton in Hv as ->. exists [root]. constructor.
  - set_solver.
  - right. set_solver.
  - set_solver.
Qed.
End dft.

(** X16.  On a graph built by the constructor of ex03 from records with
    identifiers in [1, N], [dft] from a node of the graph returns, each once,
    the nodes that a path of arcs joins to the root, the root among them. *)
Theorem dft_reachable {order : SetIteration} (n : Z) (arcs : list (list pyval))
    (g : Graph) (root : Z) :
  Forall (λ e, valid_edge n e) arcs → Ex03.init n arcs = Ok g → 0 ≤ root < n →
  ∃ l, Ex03.dft g root = Some (Ok l) ∧ NoDup l ∧ root ∈ l ∧
       ∀ v, v ∈ l ↔ ∃ p, is_path (arc (neighbors g)) root v p.
Proof.
  intros Hall Hg Hroot. destruct (directed_built n arcs Hall) as (g' & Hg' & HN & Hwf & _).
  assert (g' = g) as -> by (unfold Ex03.init in Hg; congruence). subst n.
  destruct (dft_reaches g Hwf root Hroot) as (l & Hl & Hnd & Hreach).
  exists l. split; [done|]. split; [done|]. split.
  - apply Hreach. exists [root]. constructor.
  - intros v. rewrite Hreach. unfold reaches.
    split; intros [p Hp]; exists p; by apply is_path_iff_grown.
Qed.

Lemma dft_reachable_witness :
  ∃ g, Ex03.init 3 [[PInt 1; PInt 2]; [PInt 3; PInt 1]] = Ok g ∧
    ∃ l, @Ex03.dft elements_iteration g 0 = Some (Ok l) ∧ NoDup l ∧ 0 ∈ l ∧
         ∀ v, v ∈ l ↔ ∃ p, is_path (arc (neighbors g)) 0 v p.
Proof.
  eexists. split; [vm_compute; reflexivity|].
  apply (@dft_reachable elements_iteration 3 [[PInt 1; PInt 2]; [PInt 3; PInt 1]]);
    [check_records | vm_compute; reflexivity | lia].
Defined.

(** ** Islands of an undirected graph *)

Section islands.
Context {order : SetIteration} (g : Graph).
Hypothesis Hwf : wf_graph g.
Hypothesis Hsym : ∀ u v, arc (neighbors g) u v → arc (neighbors g) v u.

Lemma reaches_sym u v : reaches g u v → reaches g v u.
Proof. intros [p Hp]. exists (reverse p). by apply grown_reverse. Qed.

Lemma islands_skip nodes V L :
  (∀ x, x ∈ nodes → x ∈ V) → Ex03.islands_loop g nodes V L = Some (Ok L).
Proof.
  induction nodes as [|x nodes IH]; intros Hall; [done|]. cbn.
  rewrite decide_True by (apply Hall; set_solver). apply IH. intros y Hy. apply Hall. set_solver.
Qed.

(** Counting the island of a node that is in no island counted so far. *)
Lemma islands_inv_step V L node l :
  islands_inv g V L → 0 ≤ node < N g → node ∉ V →
  NoDup l → (∀ v, v ∈ l ↔ reaches g node v) →
  islands_inv g (V ∪ list_to_set l) (L ++ [Z.of_nat (length l)]) ∧ node ∈ l.
Proof.
  intros Hinv Hnode Hnew Hnd Hl.
  assert (node ∈ l) as Hin by (apply Hl; exists [node]; constructor).
  split; [|done]. split.
  - rewrite foldr_app. cbn.
    assert (∀ (l' : list Z) a, foldr Z.add a l' = foldr Z.add 0 l' + a) as Hsum.
    { induction l' as [|y l' IH]; intros a; cbn; [lia|]. rewrite IH. lia. }
    rewrite Hsum, (isl_sum _ _ _ Hinv), size_union.
    + rewrite size_list_to_set by done. lia.
    + intros v Hv Hv'. apply elem_of_list_to_set, Hl in Hv'.
      apply Hnew. apply (isl_closed _ _ _ Hinv v); [done|]. by apply reaches_sym.
  - intros v Hv. apply elem_of_union in Hv as [Hv|Hv]; [by apply (isl_range _ _ _ Hinv)|].
    apply elem_of_list_to_set, Hl in Hv. by eapply reaches_in_range.
  - intros u v Hu Huv. apply elem_of_union in Hu as [Hu|Hu].
    + apply elem_of_union. left. by apply (isl_closed _ _ _ Hinv u).
    + apply elem_of_union. right. apply elem_of_list_to_set, Hl.
      apply elem_of_list_to_set, Hl in Hu. by eapply reaches_trans.
  - apply Forall_app. split; [apply (isl_sizes _ _ _ Hinv)|]. apply Forall_singleton.
    destruct l; [by apply elem_of_nil in Hin | cbn; lia].
Qed.

Lemma islands_loop_correct nodes V L :
  (∀ x, x ∈ nodes → 0 ≤ x < N g) → islands_inv g V L →
  ∃ L' V', Ex03.islands_loop g nodes V L = Some (Ok L') ∧ islands_inv g V' L' ∧
           V ⊆ V' ∧ ∀ x, x ∈ nodes → x ∈ V'.
Proof.
  revert V L. induction nodes as [|node nodes IH]; intros V L Hnodes Hinv;
    cbn [Ex03.islands_loop].
  - exists L, V. split; [done|]. split; [done|]. split; [done|]. by intros x ?%elem_of_nil.
  - assert (∀ x, x ∈ nodes → 0 ≤ x < N g) as Hrest by (intros; apply Hnodes; set_solver).
    case_decide as Hvis.
    + destruct (IH V L Hrest Hinv) as (L' & V' & -> & Hinv' & Hsub & Hcov).
      exists L', V'. split; [done|]. split; [done|]. split; [done|].
      intros x Hx. apply elem_of_cons in Hx as [->|Hx]; [set_solver | by apply Hcov].
    + assert (0 ≤ node < N g) as Hnode by (apply Hnodes; set_solver).
      destruct (dft_reaches g Hwf node Hnode) as (l & -> & Hnd & Hl).
      destruct (islands_inv_step V L node l Hinv Hnode Hvis Hnd Hl) as [Hinv1 Hin].
      destruct (IH _ _ Hrest Hinv1) as (L' & V' & -> & Hinv' & Hsub & Hcov).
      exists L', V'. split; [done|]. split; [done|]. split; [set_solver|].
      intros x Hx. apply elem_of_cons in Hx as [->|Hx]; [|by apply Hcov].
      apply Hsub. apply elem_of_union. right. by apply elem_of_list_to_set.
Qed.

Lemma islands_counted :
  ∃ L, Ex03.islands g (N g) = Some (Ok L) ∧ foldr Z.add 0 L = Z.max 0 (N g) ∧
       Forall (λ x, 1 ≤ x) L ∧
       ((∀ v, 0 ≤ v < N g → reaches g 0 v) → 0 < N g → L = [N g]).
Proof.
  unfold Ex03.islands.
  assert (islands_inv g ∅ []) as Hinit.
  { split; [done | set_solver | set_solver | constructor]. }
  destruct (islands_loop_correct (range (N g)) ∅ [])
    as (L & V & HL & Hinv & _ & Hcov); [by intros x ?%range_elem | done |].
  exists L. split; [done|]. split; [|split; [apply (isl_sizes _ _ _ Hinv)|]].
  - rewrite (isl_sum _ _ _ Hinv).
    assert (V = list_to_set (range (N g))) as ->.
    { apply set_eq. intros v. rewrite elem_of_list_to_set. split; [|apply Hcov].
      intros Hv. by apply range_elem, (isl_range _ _ _ Hinv). }
    unfold range. rewrite size_list_to_set by apply NoDup_seqZ. rewrite length_seqZ. lia.
  - intros Hconn Hpos. revert HL.
    rewrite range_from_zero, range_from_cons by lia. cbn [Ex03.islands_loop].
    rewrite decide_False by set_solver.
    destruct (dft_reaches g Hwf 0 ltac:(lia)) as (l & -> & Hnd & Hl).
    assert (length l = Z.to_nat (N g)) as Hlen.
    { rewrite <- (length_seqZ 0 (N g)). apply Permutation_length.
      apply NoDup_Permutation; [done | apply NoDup_seqZ|].
      intros v. rewrite Hl, elem_of_seqZ. split.
      - intros Hv. apply (reaches_in_range g Hwf 0 v) in Hv; lia.
      - intros Hv. apply Hconn. lia. }
    rewrite islands_skip.
    + intros [= <-]. cbn. f_equal. lia.
    + intros x Hx. apply elem_of_union. right. apply elem_of_list_to_set, Hl, Hconn.
      unfold range_from in Hx. apply elem_of_seqZ in Hx. lia.
Qed.
End islands.

(** X17.  For a file of undirected edges with identifiers in [1, N] the
    main program of ex03 counts islands whose sizes are at least 1 and add up
    to the number of nodes; when every node can be reached from node 0 there
    is one island, of size [N]. *)
Theorem islands_partition {order : SetIteration} (n : Z) (arcs : list (list pyval))
    (g : Graph) :
  Forall (λ e, valid_edge n e) arcs →
  Ex03.init n (Pajek.mirror_reversed true arcs) = Ok g →
  ∃ L, Ex03.islands g n = Some (Ok L) ∧ foldr Z.add 0 L = Z.max 0 n ∧
       Forall (λ x, 1 ≤ x) L ∧
       ((∀ v, 0 ≤ v < n → ∃ p, is_path (arc (neighbors g)) 0 v p) → 0 < n → L = [n]).
Proof.
  intros Hall Hg.
  destruct (directed_built n _ (mirror_reversed_valid n arcs Hall))
    as (g' & Hg' & HN & Hwf & Harc).
  assert (g' = g) as -> by (unfold Ex03.init in Hg; congruence). subst n.
  destruct (islands_counted g Hwf) as (L & HL & Hsum & Hpos & Hone).
  { intros u v. rewrite !Harc, !mirror_reversed_recorded. tauto. }
  exists L. split; [done|]. split; [done|]. split; [done|].
  intros Hconn. apply Hone. intros v Hv. destruct (Hconn v Hv) as [p Hp].
  exists p. by apply is_path_iff_grown.
Qed.

Lemma islands_partition_witness :
  ∃ g, Ex03.init 3 (Pajek.mirror_reversed true [[PInt 1; PInt 2]]) = Ok g ∧
    ∃ L, @Ex03.islands elements_iteration g 3 = Some (Ok L) ∧
         foldr Z.add 0 L = Z.max 0 3 ∧ Forall (λ x, 1 ≤ x) L ∧
         ((∀ v, 0 ≤ v < 3 → ∃ p, is_path (arc (neighbors g)) 0 v p) → 0 < 3 → L = [3]).
Proof.
  eexists. split; [vm_compute; reflexivity|].
  apply (@islands_partition elements_iteration 3 [[PInt 1; PInt 2]]);
    [check_records | vm_compute; reflexivity].
Defined.

(** ** The random builder, draw by draw *)

Lemma draw_rank_eq (k : nat) (i j : Z) :
  2 * Z.of_nat k = i * (i - 1) + 2 * j → k = draw_rank i j.
Proof.
  intros Hk. unfold draw_rank.
  assert (i * (i - 1) = (Z.of_nat k - j) * 2) as -> by lia.
  rewrite Z.div_mul by done. lia.
Qed.

Lemma erdos_renyi_cells n p random :
  ∃ M, erdos_renyi n p random = Ok M ∧ square n M ∧
    ∀ i j, 0 ≤ j → j ≤ i → i < n →
      cell M j i = cell M i j ∧
      cell M i j = Some (if decide (i = j) then 0 else coin p random (draw_rank i j)).
Proof.
  unfold erdos_renyi. destruct (decide (0 ≤ n)) as [Hn|Hn].
  - set (visited := λ (i j : Z) (st : list (list Z) * nat),
           square n st.1 ∧
           2 * Z.of_nat st.2 = i * (i - 1) + 2 * Z.min j i ∧
           (∀ a, 0 ≤ a < n → cell st.1 a a = Some 0) ∧
           (∀ a b, 0 ≤ b < a → a < n → a < i ∨ (a = i ∧ b < j) →
                   cell st.1 a b = Some (coin p random (draw_rank a b)) ∧
                   cell st.1 b a = Some (coin p random (draw_rank a b)))).
    destruct (for_range
                (λ st i, for_each (λ st j, draw_cell p random i j st) (range n) st)
                (λ i st, visited i 0 st) n (fresh_matrix n 0, 0%nat) Hn)
      as (st & -> & Hsq & _ & Hdiag & Hlow).
    + split; [apply fresh_square|]. split; [cbn; lia|]. split.
      * intros a Ha. cbn. rewrite fresh_cell. by rewrite decide_True by lia.
      * intros a b Hb Ha [?|[? ?]]; lia.
    + intros i st Hi Hst.
      destruct (for_range (λ st j, draw_cell p random i j st)
                  (λ j st, visited i j st) n st Hn Hst)
        as (st' & Hrun & Hsq & Hcount & Hdiag & Hlow).
      * intros j st' Hj (Hsq & Hcount & Hdiag & Hlow).
        destruct (draw_cell_spec n p random i j st' Hsq Hi Hj)
          as (v & M' & -> & Hsq' & Hv & Hcell).
        eexists. split; [done|]. split; [done|]. cbn [fst snd]. split; [|split].
        -- case_bool_decide; lia.
        -- intros a Ha. rewrite Hcell.
           destruct (decide (a = j ∧ a = i)) as [[Hj' Hi']|H1];
             [|destruct (decide (a = i ∧ a = j)) as [[Hi' Hj']|H2]].
           ++ subst j i. rewrite bool_decide_eq_false_2 in Hv by lia.
              rewrite <- Hv. by apply Hdiag.
           ++ subst j i. rewrite bool_decide_eq_false_2 in Hv by lia.
              rewrite <- Hv. by apply Hdiag.
           ++ by apply Hdiag.
        -- intros a b Hb Ha Hpos.
           destruct (decide (a = i ∧ b = j)) as [[-> ->]|Hne].
           ++ rewrite bool_decide_eq_true_2 in Hv by lia.
              assert (st'.2 = draw_rank i j) as Hrank by (apply draw_rank_eq; lia).
              rewrite Hrank in Hv. fold (coin p random (draw_rank i j)) in Hv. subst v.
              rewrite !Hcell. split.
              ** rewrite decide_False by lia. by rewrite decide_True.
              ** by rewrite decide_True.
           ++ rewrite !Hcell.
              rewrite (decide_False (P := a = j ∧ b = i)) by lia.
              rewrite (decide_False (P := a = i ∧ b = j)) by done.
              rewrite (decide_False (P := b = j ∧ a = i)) by lia.
              rewrite (decide_False (P := b = i ∧ a = j)) by lia.
              apply Hlow; [done | done | lia].
      * exists st'. split; [done|]. split; [done|]. split; [lia|]. split; [done|].
        intros a b Hb Ha Hpos. apply Hlow; [done | done | lia].
    + eexists. split; [done|]. split; [done|].
      intros i j Hj Hji Hi. case_decide as Hij.
      * subst j. split; [done|]. apply Hdiag. lia.
      * destruct (Hlow i j ltac:(lia) Hi ltac:(lia)) as [H1 H2]. by rewrite H1, H2.
  - rewrite range_nonpos by lia. cbn. eexists. split; [done|]. split; [apply fresh_square|].
    intros i j Hj Hji Hi. lia.
Qed.

(** X18.  Whatever [p] and the draws, the matrix of the random builders
    (ex01 and ex2021) is [N] by [N] and symmetric with a zero diagonal, and
    the cell [(i, j)] below the diagonal is 1 exactly when the draw of rank
    [i (i - 1) / 2 + j] exceeds [p]: one draw per unordered pair of nodes,
    taken row by row. *)
Theorem random_builder_cells (n : Z) (q : Q) (random : nat → Q) (M0 : option (list (list Z)))
    (g1 : Ex01.Graph) (g2 : Ex2021.Graph) :
  Ex01.init n (PFloat q) random = Ok g1 →
  Ex2021.init n (PFloat q) M0 random = Ok g2 →
  Ex2021.matrix g2 = Ex01.matrix g1 ∧ square n (Ex01.matrix g1) ∧
  ∀ i j, 0 ≤ j → j ≤ i → i < n →
    cell (Ex01.matrix g1) j i = cell (Ex01.matrix g1) i j ∧
    cell (Ex01.matrix g1) i j
    = Some (if decide (i = j) then 0 else coin q random (draw_rank i j)).
Proof.
  unfold Ex01.init, Ex2021.init. destruct (negb (in_unit_interval q)); [done|].
  destruct (erdos_renyi_cells n q random) as (M & -> & Hsq & Hcells). cbn.
  intros [= <-] [= <-]. done.
Qed.

Lemma random_builder_cells_witness :
  ∃ g1 g2,
    Ex01.init 2 (PFloat 0.5) (λ k, 0.75%Q) = Ok g1 ∧
    Ex2021.init 2 (PFloat 0.5) None (λ k, 0.75%Q) = Ok g2 ∧
    Ex2021.matrix g2 = Ex01.matrix g1 ∧ square 2 (Ex01.matrix g1) ∧
    ∀ i j, 0 ≤ j → j ≤ i → i < 2 →
      cell (Ex01.matrix g1) j i = cell (Ex01.matrix g1) i j ∧
      cell (Ex01.matrix g1) i j
      = Some (if decide (i = j) then 0 else coin 0.5 (λ k, 0.75%Q) (draw_rank i j)).
Proof.
  eexists _, _. split; [vm_compute; reflexivity|]. split; [vm_compute; reflexivity|].
  apply (random_builder_cells 2 0.5 (λ k, 0.75%Q) None); vm_compute; reflexivity.
Defined.

(** ** The queries of ex2021 *)

Lemma marked_cons first x row :
  Ex2021_queries.marked first (x :: row)
  = (if bool_decide (x ≠ 0) then Some first else None)
      :: Ex2021_queries.marked (first + 1) row.
Proof.
  unfold Ex2021_queries.marked. rewrite imap_cons. f_equal.
  apply imap_ext. intros k y _. cbn. case_bool_decide; [|done]. f_equal. lia.
Qed.

Lemma marked_elem first row j :
  j ∈ omap id (Ex2021_queries.marked first row)
  ↔ ∃ k x, row !! k = Some x ∧ x ≠ 0 ∧ j = Z.of_nat k + first.
Proof.
  revert first. induction row as [|y row IH]; intros first.
  - cbn. split; [by intros ?%elem_of_nil | by intros (k & x & ? & _)].
  - rewrite marked_cons. cbn [omap]. split.
    + intros Hj.
      assert (j = first ∧ y ≠ 0 ∨ j ∈ omap id (Ex2021_queries.marked (first + 1) row))
        as [[-> Hy]|Hin].
      { case_bool_decide; cbn in Hj; [|by right].
        apply elem_of_cons in Hj as [->|Hj]; [by left | by right]. }
      * exists 0%nat, y. split; [done|]. split; [done|]. lia.
      * apply IH in Hin as (k & x & Hk & Hx & ->). exists (S k), x. split; [done|].
        split; [done|]. lia.
    + intros (k & x & Hk & Hx & ->). destruct k as [|k].
      * injection Hk as ->. rewrite bool_decide_eq_true_2 by done. cbn.
        replace (Z.of_nat 0 + first) with first by lia. apply list_elem_of_here.
      * assert (Z.of_nat (S k) + first ∈ omap id (Ex2021_queries.marked (first + 1) row)).
        { apply IH. exists k, x. split; [done|]. split; [done|]. lia. }
        case_bool_decide; cbn; [by apply list_elem_of_further | done].
Qed.

Lemma marked_sorted first row :
  StronglySorted Z.lt (omap id (Ex2021_queries.marked first row)).
Proof.
  revert first. induction row as [|y row IH]; intros first; [constructor|].
  rewrite marked_cons. cbn [omap]. case_bool_decide; cbn; [|apply IH].
  constructor; [apply IH|]. apply Forall_forall. intros j Hj.
  apply marked_elem in Hj as (k & x & _ & _ & ->). lia.
Qed.

Lemma marked_length first row :
  Forall (λ x, x = 0 ∨ x = 1) row →
  ∀ acc, foldl (λ acc cur, acc + cur) acc row
         = acc + Z.of_nat (length (omap id (Ex2021_queries.marked first row))).
Proof.
  revert first. induction row as [|y row IH]; intros first Hbin acc; [cbn; lia|].
  apply Forall_cons in Hbin as [Hy Hbin]. rewrite marked_cons. cbn [foldl].
  rewrite (IH (first + 1) Hbin).
  assert (∀ (o : option Z) l,
            length (omap id (o :: l)) = ((if o then 1 else 0) + length (omap id l))%nat)
    as -> by (by intros [?|] ?).
  destruct Hy as [->| ->]; [rewrite bool_decide_eq_false_2 by (intros ?; done)
                           | rewrite bool_decide_eq_true_2 by done]; lia.
Qed.

Lemma getitem_row n M i :
  square n M → 0 ≤ i < n →
  ∃ row, getitem M i = Ok row ∧ length row = Z.to_nat n ∧
         ∀ j, 0 ≤ j → cell M i j = row !! Z.to_nat j.
Proof.
  intros [Hlen Hrows] Hi. unfold getitem. rewrite py_index_nonneg by lia.
  destruct (lookup_lt_is_Some_2 M (Z.to_nat i)) as [row Hrow]; [lia|].
  rewrite Hrow. exists row. split; [done|]. split.
  - eapply (proj1 (Forall_lookup _ _) Hrows); eauto.
  - intros j Hj. unfold cell. rewrite bool_decide_eq_true_2 by lia. by rewrite Hrow.
Qed.

Lemma areAdjacent_present n g i j :
  Ex2021.N g = n → square n (Ex2021.matrix g) → 1 ≤ i ≤ n → 1 ≤ j ≤ n →
  ∃ b, Ex2021.areAdjacent g i j = Ok (Some b) ∧
       (b = true ↔ present 0 (Ex2021.matrix g) (i - 1) (j - 1)
                   ∨ present 0 (Ex2021.matrix g) (j - 1) (i - 1)).
Proof.
  intros HN Hsq Hi Hj.
  destruct (getitem2_cell _ n (i - 1) (j - 1) Hsq) as (a & Ha & Hca); [lia..|].
  destruct (getitem2_cell _ n (j - 1) (i - 1) Hsq) as (b & Hb & Hcb); [lia..|].
  unfold Ex2021.areAdjacent. rewrite HN.
  rewrite !bool_decide_eq_true_2 by lia. rewrite Ha, Hb. cbn.
  unfold present. rewrite Hca, Hcb.
  destruct (decide (a = 0)) as [->|Hna]; destruct (decide (b = 0)) as [->|Hnb].
  - exists false. rewrite !bool_decide_eq_false_2 by (intros ?; done).
    split; [done|]. split; [done|]. intros [(x & [= <-] & ?)|(x & [= <-] & ?)]; done.
  - exists true. rewrite (bool_decide_eq_false_2 (0 ≠ 0)) by (intros ?; done).
    rewrite !bool_decide_eq_true_2 by done.
    split; [done|]. split; [|done]. intros _. right. eauto.
  - exists true. rewrite !bool_decide_eq_true_2 by done.
    split; [done|]. split; [|done]. intros _. left. eauto.
  - exists true. rewrite !bool_decide_eq_true_2 by done.
    split; [done|]. split; [|done]. intros _. left. eauto.
Qed.

(** The matrix of a graph the random branch builds: symmetric, entries 0
    and 1. *)
Lemma ex2021_random_matrix n q M0 random g :
  Ex2021.init n (PFloat q) M0 random = Ok g →
  ∀ i j, 0 ≤ i < n → 0 ≤ j < n →
    cell (Ex2021.matrix g) i j = cell (Ex2021.matrix g) j i ∧
    (cell (Ex2021.matrix g) i j = Some 0 ∨ cell (Ex2021.matrix g) i j = Some 1).
Proof.
  unfold Ex2021.init. destruct (negb (in_unit_interval q)); [done|].
  destruct (erdos_renyi_cells n q random) as (M & -> & Hsq & Hcells). cbn.
  intros [= <-]. cbn. intros i j Hi Hj.
  assert (∀ a b, 0 ≤ b → b ≤ a → a < n → cell M a b = Some 0 ∨ cell M a b = Some 1) as Hbin.
  { intros a b H0 Hba Ha. destruct (Hcells a b H0 Hba Ha) as [_ ->].
    case_decide; [by left|]. unfold coin. destruct (Qgt_bool _ _); eauto. }
  destruct (decide (j ≤ i)).
  - destruct (Hcells i j ltac:(lia) ltac:(lia) ltac:(lia)) as [Hs _].
    split; [done|]. apply Hbin; lia.
  - destruct (Hcells j i ltac:(lia) ltac:(lia) ltac:(lia)) as [Hs _].
    split; [done|]. rewrite Hs. apply Hbin; lia.
Qed.

Lemma hasEdge_cell g :
  Ex2021_queries.hasEdge g = true
  ↔ ∃ i j x, cell (Ex2021.matrix g) i j = Some x ∧ 0 < x.
Proof.
  unfold Ex2021_queries.hasEdge. rewrite existsb_exists. split.
  - intros (row & Hrow & Hany). apply existsb_exists in Hany as (x & Hx & Hpos).
    apply bool_decide_eq_true in Hpos.
    apply list_elem_of_In, list_elem_of_lookup in Hrow as [i Hi].
    apply list_elem_of_In, list_elem_of_lookup in Hx as [j Hj].
    exists (Z.of_nat i), (Z.of_nat j), x. split; [|done].
    unfold cell. rewrite bool_decide_eq_true_2 by lia. rewrite !Nat2Z.id, Hi. done.
  - intros (i & j & x & Hc & Hpos). unfold cell in Hc. case_bool_decide; [|done].
    destruct (Ex2021.matrix g !! Z.to_nat i) as [row|] eqn:Hrow; [|done]. cbn in Hc.
    exists row. split; [by eapply list_elem_of_In, list_elem_of_lookup_2|].
    apply existsb_exists. exists x. split; [by eapply list_elem_of_In, list_elem_of_lookup_2|].
    by apply bool_decide_eq_true.
Qed.

(** X19.  [hasEdge] answers true exactly when some entry of the matrix is
    above zero; on a graph of the random branch this is exactly when
    [areAdjacent] is true for some pair of positions. *)
Theorem hasEdge_positive_entry (n : Z) (p : pyval) (M0 : option (list (list Z)))
    (random : nat → Q) (g : Ex2021.Graph) :
  Ex2021.init n p M0 random = Ok g →
  (Ex2021_queries.hasEdge g = true
   ↔ ∃ i j x, cell (Ex2021.matrix g) i j = Some x ∧ 0 < x) ∧
  (∀ q, p = PFloat q →
     (Ex2021_queries.hasEdge g = true
      ↔ ∃ i j, 1 ≤ i ≤ n ∧ 1 ≤ j ≤ n ∧ Ex2021.areAdjacent g i j = Ok (Some true))).
Proof.
  intros Hg. split; [apply hasEdge_cell|]. intros q ->.
  pose proof (ex2021_random_matrix n q M0 random g Hg) as Hbin.
  apply ex2021_init_square in Hg as [HN Hsq]. rewrite hasEdge_cell. split.
  - intros (i & j & x & Hc & Hpos).
    destruct (present_in_range 0 n _ i j Hsq) as [Hi Hj]; [exists x; split; [done|lia]|].
    exists (i + 1), (j + 1). split; [lia|]. split; [lia|].
    destruct (areAdjacent_present n g (i + 1) (j + 1) HN Hsq) as (b & -> & Hb); [lia..|].
    do 2 f_equal. apply Hb. left. replace (i + 1 - 1) with i by lia.
    replace (j + 1 - 1) with j by lia. exists x. split; [done|lia].
  - intros (i & j & Hi & Hj & Hadj).
    destruct (areAdjacent_present n g i j HN Hsq Hi Hj) as (b & Hb & Hiff).
    assert (b = true) as -> by congruence.
    destruct (proj1 Hiff eq_refl) as [(x & Hx & Hne)|(x & Hx & Hne)].
    + exists (i - 1), (j - 1), x. split; [done|].
      destruct (Hbin (i - 1) (j - 1)) as [_ [H0|H1]]; [lia..|congruence|].
      rewrite Hx in H1. injection H1 as ->. lia.
    + exists (j - 1), (i - 1), x. split; [done|].
      destruct (Hbin (j - 1) (i - 1)) as [_ [H0|H1]]; [lia..|congruence|].
      rewrite Hx in H1. injection H1 as ->. lia.
Qed.

Lemma hasEdge_positive_entry_witness :
  ∃ g, Ex2021.init 2 (PFloat 0.5) None (λ _, 0.75%Q) = Ok g ∧
    (Ex2021_queries.hasEdge g = true
     ↔ ∃ i j x, cell (Ex2021.matrix g) i j = Some x ∧ 0 < x) ∧
    (∀ q, PFloat 0.5 = PFloat q →
       (Ex2021_queries.hasEdge g = true
        ↔ ∃ i j, 1 ≤ i ≤ 2 ∧ 1 ≤ j ≤ 2 ∧ Ex2021.areAdjacent g i j = Ok (Some true))).
Proof.
  eexists. split; [vm_compute; reflexivity|].
  apply (hasEdge_positive_entry 2 (PFloat 0.5) None (λ _, 0.75%Q)).
  vm_compute. reflexivity.
Defined.

Lemma adjacent_row n g i :
  Ex2021.N g = n → square n (Ex2021.matrix g) → 1 ≤ i ≤ n →
  ∃ row, getitem (Ex2021.matrix g) (i - 1) = Ok row ∧ length row = Z.to_nat n ∧
    Ex2021_queries.getAdjacentVertices g i
      = Ok (Some (omap id (Ex2021_queries.marked 1 row))) ∧
    Ex2021_queries.getVertexDegree g i = Ok (Some (foldl (λ acc cur, acc + cur) 0 row)) ∧
    (∀ j, j ∈ omap id (Ex2021_queries.marked 1 row)
          ↔ 1 ≤ j ≤ n ∧ present 0 (Ex2021.matrix g) (i - 1) (j - 1)) ∧
    (∀ j, 0 ≤ j → cell (Ex2021.matrix g) (i - 1) j = row !! Z.to_nat j).
Proof.
  intros HN Hsq Hi.
  destruct (getitem_row n _ (i - 1) Hsq ltac:(lia)) as (row & Hrow & Hlen & Hcell).
  exists row. split; [done|]. split; [done|].
  unfold Ex2021_queries.getAdjacentVertices, Ex2021_queries.getVertexDegree.
  rewrite HN, !bool_decide_eq_true_2 by lia. rewrite Hrow. cbn.
  split; [done|]. split; [done|]. split; [|done].
  intros j. rewrite marked_elem. unfold present. split.
  - intros (k & x & Hk & Hx & ->). apply lookup_lt_Some in Hk as Hlt.
    split; [lia|]. exists x. split; [|done].
    rewrite Hcell by lia. by replace (Z.to_nat (Z.of_nat k + 1 - 1)) with k by lia.
  - intros (Hj & x & Hx & Hne). exists (Z.to_nat (j - 1)), x.
    rewrite Hcell in Hx by lia. split; [done|]. split; [done|]. lia.
Qed.

(** X20.  [getAdjacentVertices] answers [None] outside [1, N]; for a
    position of the graph it lists in ascending order the positions whose
    entry in the row is not zero, which on a graph of the random branch are
    the positions [areAdjacent] answers true for. *)
Theorem getAdjacentVertices_spec (n : Z) (p : pyval) (M0 : option (list (list Z)))
    (random : nat → Q) (g : Ex2021.Graph) (i : Z) :
  Ex2021.init n p M0 random = Ok g →
  (¬ 1 ≤ i ≤ n → Ex2021_queries.getAdjacentVertices g i = Ok None) ∧
  (1 ≤ i ≤ n →
     ∃ l, Ex2021_queries.getAdjacentVertices g i = Ok (Some l) ∧ StronglySorted Z.lt l ∧
       (∀ j, j ∈ l ↔ 1 ≤ j ≤ n ∧ present 0 (Ex2021.matrix g) (i - 1) (j - 1)) ∧
       (∀ q, p = PFloat q → ∀ j, 1 ≤ j ≤ n →
          (j ∈ l ↔ Ex2021.areAdjacent g i j = Ok (Some true)))).
Proof.
  intros Hg. pose proof Hg as Hg0. apply ex2021_init_square in Hg as [HN Hsq]. split.
  - intros Hi. unfold Ex2021_queries.getAdjacentVertices.
    by rewrite HN, bool_decide_eq_false_2.
  - intros Hi.
    destruct (adjacent_row n g i HN Hsq Hi) as (row & _ & _ & Hadj & _ & Helem & _).
    eexists. split; [done|]. split; [apply marked_sorted|]. split; [done|].
    intros q -> j Hj. rewrite Helem.
    pose proof (ex2021_random_matrix n q M0 random g Hg0 (i - 1) (j - 1)
                  ltac:(lia) ltac:(lia)) as [Hs _].
    destruct (areAdjacent_present n g i j HN Hsq Hi Hj) as (b & -> & Hb). split.
    + intros [_ Hp]. do 2 f_equal. apply Hb. by left.
    + intros [= ->]. split; [done|].
      destruct (proj1 Hb eq_refl) as [?|(x & Hx & Hne)]; [done|].
      exists x. by rewrite Hs.
Qed.

Lemma getAdjacentVertices_spec_witness :
  ∃ g, Ex2021.init 2 (PFloat 0.5) None (λ _, 0.75%Q) = Ok g ∧
    (¬ 1 ≤ 1 ≤ 2 → Ex2021_queries.getAdjacentVertices g 1 = Ok None) ∧
    (1 ≤ 1 ≤ 2 →
       ∃ l, Ex2021_queries.getAdjacentVertices g 1 = Ok (Some l) ∧ StronglySorted Z.lt l ∧
         (∀ j, j ∈ l ↔ 1 ≤ j ≤ 2 ∧ present 0 (Ex2021.matrix g) (1 - 1) (j - 1)) ∧
         (∀ q, PFloat 0.5 = PFloat q → ∀ j, 1 ≤ j ≤ 2 →
            (j ∈ l ↔ Ex2021.areAdjacent g 1 j = Ok (Some true)))).
Proof.
  eexists. split; [vm_compute; reflexivity|].
  apply (getAdjacentVertices_spec 2 (PFloat 0.5) None (λ _, 0.75%Q)).
  vm_compute. reflexivity.
Defined.

(** X21.  On a graph of the random branch [getVertexDegree] of a position
    of the graph is the number of positions [getAdjacentVertices] lists for
    it; outside [1, N] it answers [None]. *)
Theorem getVertexDegree_counts (n : Z) (q : Q) (M0 : option (list (list Z)))
    (random : nat → Q) (g : Ex2021.Graph) (i : Z) :
  Ex2021.init n (PFloat q) M0 random = Ok g →
  (¬ 1 ≤ i ≤ n → Ex2021_queries.getVertexDegree g i = Ok None) ∧
  (1 ≤ i ≤ n →
     ∃ l, Ex2021_queries.getAdjacentVertices g i = Ok (Some l) ∧
          Ex2021_queries.getVertexDegree g i = Ok (Some (Z.of_nat (length l)))).
Proof.
  intros Hg. pose proof Hg as Hg0. apply ex2021_init_square in Hg as [HN Hsq]. split.
  - intros Hi. unfold Ex2021_queries.getVertexDegree.
    by rewrite HN, bool_decide_eq_false_2.
  - intros Hi.
    destruct (adjacent_row n g i HN Hsq Hi) as (row & _ & Hlen & Hadj & Hdeg & _ & Hcell).
    eexists. split; [done|]. rewrite Hdeg. do 2 f_equal.
    rewrite (marked_length 1); [lia|].
    apply Forall_lookup. intros k x Hk. apply lookup_lt_Some in Hk as Hlt.
    destruct (ex2021_random_matrix n q M0 random g Hg0 (i - 1) (Z.of_nat k))
      as [_ Hbin]; [lia..|].
    rewrite Hcell, Nat2Z.id, Hk in Hbin by lia. destruct Hbin as [[= ->]|[= ->]]; eauto.
Qed.

Lemma getVertexDegree_counts_witness :
  ∃ g, Ex2021.init 2 (PFloat 0.5) None (λ _, 0.75%Q) = Ok g ∧
    (¬ 1 ≤ 1 ≤ 2 → Ex2021_queries.getVertexDegree g 1 = Ok None) ∧
    (1 ≤ 1 ≤ 2 →
       ∃ l, Ex2021_queries.getAdjacentVertices g 1 = Ok (Some l) ∧
            Ex2021_queries.getVertexDegree g 1 = Ok (Some (Z.of_nat (length l)))).
Proof.
  eexists. split; [vm_compute; reflexivity|].
  apply (getVertexDegree_counts 2 0.5 None (λ _, 0.75%Q)). vm_compute. reflexivity.
Defined.

(** ** The main program of proj01 *)

Lemma two_elements (l : list Z) :
  NoDup l → (1 < Z.of_nat (length l) ↔ ∃ u v, u ≠ v ∧ u ∈ l ∧ v ∈ l).
Proof.
  intros Hnd. split.
  - destruct l as [|u [|v l]]; cbn; [lia..|]. intros _. exists u, v.
    apply NoDup_cons in Hnd as [Hu _]. split; [|split; set_solver].
    intros ->. apply Hu. set_solver.
  - intros (u & v & Hne & Hu & Hv). destruct l as [|a [|b l]]; cbn; [|exfalso|lia].
    + by apply elem_of_nil in Hu.
    + apply list_elem_of_singleton in Hu, Hv. congruence.
Qed.

Section proj01.
Context {order : SetIteration} (g : Graph).
Hypothesis Hwf : wf_graph g.

Lemma crowded_filter target s :
  neighbors g !! (target - 1) = Some s →
  1 < Z.of_nat (length (filter (λ n, n + 1 ∈ Proj01.targets) (iter s)))
  ↔ Proj01.crowded g target.
Proof.
  intros Hs. rewrite two_elements by (apply NoDup_filter, iter_NoDup).
  unfold Proj01.crowded, arc. split.
  - intros (u & v & Hne & Hu & Hv).
    apply list_elem_of_filter in Hu as [Hut Hu]. apply list_elem_of_filter in Hv as [Hvt Hv].
    apply iter_elem in Hu, Hv. exists u, v. eauto 10.
  - intros (u & v & Hne & (s1 & Hs1 & Hu) & (s2 & Hs2 & Hv) & Hut & Hvt).
    assert (s1 = s) as -> by congruence. assert (s2 = s) as -> by congruence.
    exists u, v. split; [done|].
    split; apply list_elem_of_filter; (split; [done | by apply iter_elem]).
Qed.

Lemma search_correct ts :
  (∀ t, t ∈ ts → 1 ≤ t ≤ N g) →
  ∃ r, Proj01.search g ts = Ok r ∧
       match r with
       | Some t => t ∈ ts ∧ Proj01.crowded g t
       | None => ∀ t, t ∈ ts → ¬ Proj01.crowded g t
       end.
Proof.
  induction ts as [|t ts IH]; intros Hts; cbn [Proj01.search].
  - exists None. split; [done|]. by intros t ?%elem_of_nil.
  - destruct (proj2 (proj1 Hwf (t - 1))) as [s Hs]; [specialize (Hts t); set_solver by lia|].
    unfold dict_get. rewrite Hs. cbn.
    pose proof (crowded_filter t s Hs) as Hcrowd. case_bool_decide as Hlen.
    + exists (Some t). split; [done|]. split; [set_solver | by apply Hcrowd].
    + destruct IH as (r & -> & Hr); [intros; apply Hts; set_solver|].
      exists r. split; [done|]. destruct r as [t'|].
      * split; [set_solver | tauto].
      * intros t' Ht'. apply elem_of_cons in Ht' as [->|Ht']; [tauto | by apply Hr].
Qed.
End proj01.

(** X22.  On a graph with at least ten nodes built by the constructor of
    proj01 from records with identifiers in [1, N], the main program prints a
    node of [targets] that has two different neighbours in [targets], and
    prints nothing exactly when no node of [targets] has. *)
Theorem proj01_main_finds {order : SetIteration} (n : Z) (arcs : list (list pyval))
    (g : Graph) :
  Forall (λ e, valid_edge n e) arcs → Proj01.init n arcs = Ok g → 10 ≤ n →
  ∃ r, Proj01.main g = Ok r ∧
       match r with
       | Some t => t ∈ Proj01.targets ∧ Proj01.crowded g t
       | None => ∀ t, t ∈ Proj01.targets → ¬ Proj01.crowded g t
       end.
Proof.
  intros Hall Hg Hn. destruct (directed_built n arcs Hall) as (g' & Hg' & HN & Hwf & _).
  assert (g' = g) as -> by (unfold Proj01.init in Hg; congruence). subst n.
  destruct (search_correct g Hwf (iter Proj01.targets)) as (r & Hr & Hpost).
  - intros t Ht. apply iter_elem in Ht. unfold Proj01.targets in Ht. set_solver by lia.
  - exists r. split; [done|]. destruct r as [t|].
    + by rewrite <- (iter_elem Proj01.targets t).
    + intros t Ht. apply Hpost. by apply iter_elem.
Qed.

Lemma proj01_main_finds_witness :
  ∃ g, Proj01.init 10 [[PInt 3; PInt 4]; [PInt 3; PInt 5]] = Ok g ∧
    ∃ r, @Proj01.main elements_iteration g = Ok r ∧
         match r with
         | Some t => t ∈ Proj01.targets ∧ Proj01.crowded g t
         | None => ∀ t, t ∈ Proj01.targets → ¬ Proj01.crowded g t
         end.
Proof.
  eexists. split; [vm_compute; reflexivity|].
  apply (@proj01_main_finds elements_iteration 10 [[PInt 3; PInt 4]; [PInt 3; PInt 5]]);
    [check_records | vm_compute; reflexivity | lia].
Defined.

(** ** Prim's loop is greedy *)

Section prim_greedy.
Context {order : SetIteration} (g : Graph).
Hypothesis Hwf : wf_graph g.
Hypothesis Hsq : square (N g) (matrix g).
Hypothesis Hnodes : 0 < N g.

(** One iteration, with the popped item a least one of the queue. *)
Lemma prim_loop_step_least fuel h H acc :
  h ≠ [] → nodes_in_range g h → Z.of_nat (size H) < N g →
  ∃ m s h',
    m ∈ h ∧ (∀ y, y ∈ h → m.1 ≤ y.1) ∧ neighbors g !! m.2 = Some s ∧
    (∀ x, x ∈ h' ↔ x ∈ remove_first m h ∨
          ∃ v, v ∈ s ∧ (v ∉ {[m.2]} ∪ H) ∧ x = (weight g m.2 v, v)) ∧
    Proj02.prim_loop g (S fuel) h H acc =
      if decide (m.2 ∈ H) then Proj02.prim_loop g fuel (remove_first m h) H acc
      else Proj02.prim_loop g fuel h' ({[m.2]} ∪ H) (acc + m.1).
Proof.
  intros Hne Hrange Hsize. destruct (heappop_spec h Hne) as (m & Hpop & Hin & Hleast).
  pose proof (Hrange m Hin) as Hm.
  destruct (proj2 (proj1 Hwf m.2) Hm) as [s Hs].
  destruct (push_neighbors_spec g m.2 (λ w, w) ({[m.2]} ∪ H) (iter s) (remove_first m h) Hsq Hm)
    as (h' & Hpush & Helem & Hperm).
  { intros v Hv. apply iter_elem in Hv. apply (proj2 Hwf m.2). by exists s. }
  exists m, s, h'. split; [done|]. split; [done|]. split; [done|]. split.
  - intros x. rewrite Helem. split.
    + intros [Hx|(v & Hv & Hn & ->)]; [by left|].
      right. exists v. rewrite <- iter_elem. done.
    + intros [Hx|(v & Hv & Hn & ->)]; [by left|].
      right. exists v. rewrite iter_elem. done.
  - cbn [Proj02.prim_loop]. rewrite bool_decide_eq_true_2 by done. rewrite Hpop.
    destruct m as [cost curr]. cbn [fst snd] in *.
    case_decide; [done|]. unfold dict_get. rewrite Hs. by rewrite Hpush.
Qed.

Lemma prim_exit h H acc fins :
  prim_inv g h H acc fins → ¬ Z.of_nat (size H) < N g →
  ∀ v, v ∈ fins.*2 ↔ 0 ≤ v < N g.
Proof.
  intros Hinv Hsize. pose proof (prim_hist _ _ _ _ _ Hinv) as HH.
  assert (H = list_to_set (range (N g))) as Hall.
  { apply set_subseteq_size_eq.
    - intros v Hv. apply elem_of_list_to_set, range_elem.
      by eapply prim_history_in_range.
    - unfold range. rewrite size_list_to_set by apply NoDup_seqZ.
      rewrite length_seqZ. lia. }
  intros v. rewrite <- range_elem, <- (elem_of_list_to_set (C := gset Z) v (range _)).
  rewrite <- Hall, HH. by rewrite elem_of_list_to_set.
Qed.

Lemma exact_frontier_skip h H m :
  exact_frontier g h H → m.2 ∈ H → exact_frontier g (remove_first m h) H.
Proof.
  intros Hfr Hm u v Hu HE. destruct (Hfr u v Hu HE) as [?|Hin]; [by left|].
  destruct (decide (v ∈ H)) as [?|Hv]; [by left|]. right.
  destruct (remove_first_other m _ h Hin) as [<-|?]; [done | done].
Qed.

Lemma exact_frontier_finalize h H m s h' :
  exact_frontier g h H → neighbors g !! m.2 = Some s →
  (∀ x, x ∈ h' ↔ x ∈ remove_first m h ∨
        ∃ v, v ∈ s ∧ (v ∉ {[m.2]} ∪ H) ∧ x = (weight g m.2 v, v)) →
  exact_frontier g h' ({[m.2]} ∪ H).
Proof.
  intros Hfr Hs Helem u v Hu HE.
  destruct (decide (v ∈ {[m.2]} ∪ H)) as [?|Hv]; [by left|]. right. apply Helem.
  apply elem_of_union in Hu as [Hu|Hu].
  - apply elem_of_singleton in Hu as ->. right. exists v. split; [|done].
    destruct HE as (s' & Hs' & Hv'). congruence.
  - left. destruct (Hfr u v Hu HE) as [?|Hin]; [set_solver|].
    destruct (remove_first_other m _ h Hin) as [<-|?]; [|done].
    exfalso. apply Hv. cbn. set_solver.
Qed.

Lemma greedy_snoc fins m h H acc :
  prim_inv g h H acc fins → exact_frontier g h H → greedy g fins →
  (∀ y, y ∈ h → m.1 ≤ y.1) → greedy g (fins ++ [m]).
Proof.
  intros Hinv Hfr Hgr Hleast k c v Hk u' v' Hu' Hv' HE.
  destruct (decide (k < length fins)%nat) as [Hlt|Hge].
  - rewrite lookup_app_l in Hk by done. rewrite take_app_le in Hu', Hv' by lia.
    by eapply Hgr.
  - apply lookup_lt_Some in Hk as Hbound. rewrite length_app in Hbound. cbn in Hbound.
    assert (k = length fins) as -> by lia.
    rewrite list_lookup_middle in Hk by done. injection Hk as ->.
    rewrite take_app_length in Hu', Hv'.
    pose proof (prim_hist _ _ _ _ _ Hinv) as HH.
    destruct (Hfr u' v') as [Hin|Hin]; [by rewrite HH, elem_of_list_to_set | done | |].
    + rewrite HH, elem_of_list_to_set in Hin. done.
    + apply Hleast in Hin. done.
Qed.

Lemma prim_loop_greedy fuel h H acc fins c :
  prim_inv g h H acc fins → exact_frontier g h H → greedy g fins →
  Proj02.prim_loop g fuel h H acc = Some (Ok c) →
  ∃ fins', c = Proj02.total_cost fins' ∧ Proj02.attaches g fins' ∧ NoDup fins'.*2 ∧
           (∀ v, v ∈ fins'.*2 ↔ 0 ≤ v < N g) ∧ greedy g fins'.
Proof.
  revert h H acc fins. induction fuel as [|fuel IH]; intros h H acc fins Hinv Hfr Hgr Hrun.
  - cbn in Hrun. case_bool_decide as Hsize; [done|]. injection Hrun as <-.
    exists fins. split; [apply Hinv|]. split; [apply Hinv|]. split; [apply Hinv|].
    split; [by eapply prim_exit | done].
  - destruct (decide (Z.of_nat (size H) < N g)) as [Hsize|Hsize].
    + destruct (decide (h = [])) as [->|Hne].
      { cbn in Hrun. by rewrite bool_decide_eq_true_2 in Hrun by done. }
      destruct (prim_loop_step_least fuel h H acc Hne (prim_range _ _ _ _ _ Hinv) Hsize)
        as (m & s & h' & Hin & Hleast & Hs & Helem & Hstep).
      rewrite Hstep in Hrun. case_decide as Hvis.
      * eapply IH, Hrun; [by apply prim_inv_skip | by apply exact_frontier_skip | done].
      * eapply IH, Hrun; [by eapply prim_inv_finalize | by eapply exact_frontier_finalize|].
        by eapply greedy_snoc.
    + assert (Proj02.prim_loop g (S fuel) h H acc = Some (Ok acc)) as Hexit.
      { cbn. by rewrite bool_decide_eq_false_2. }
      rewrite Hexit in Hrun. injection Hrun as <-.
      exists fins. split; [apply Hinv|]. split; [apply Hinv|]. split; [apply Hinv|].
      split; [by eapply prim_exit | done].
Qed.

(** The run of [prim] on a graph whose nodes can all be reached from
    node 0. *)
Lemma prim_greedy_run :
  (∀ v, 0 ≤ v < N g → ∃ p, grown (arc (neighbors g)) 0 p v) →
  ∃ fins, Proj02.prim g = Some (Ok (Proj02.total_cost fins)) ∧ Proj02.attaches g fins ∧
          NoDup fins.*2 ∧ (∀ v, v ∈ fins.*2 ↔ 0 ≤ v < N g) ∧ greedy g fins.
Proof.
  intros Hconn. destruct (prim_total g Hwf Hsq Hnodes) as (r & Hr & Hpost).
  destruct Hpost as [(fins0 & -> & _)|[_ (v & Hv & Hnone)]].
  - unfold Proj02.prim in Hr.
    destruct (prim_loop_greedy _ _ _ _ [] _ (prim_inv_init g Hwf Hsq Hnodes)
                ltac:(by intros ? ? ?%elem_of_empty) ltac:(by intros k ? ?) Hr)
      as (fins & Hc & Hrest).
    exists fins. split; [|done]. unfold Proj02.prim. by rewrite Hr, Hc.
  - destruct (Hconn v Hv) as [p Hp]. by apply Hnone in Hp.
Qed.
End prim_greedy.

(** ** Walks across a cut *)

Section cuts.
Context (E : Z → Z → Prop).

(** Between two nodes joined by a walk there is one that repeats no node. *)
Lemma simple_walk x p u : grown E x p u → ∃ q, grown E x q u ∧ NoDup q.
Proof.
  remember (length p) as len eqn:Hlen. revert p Hlen.
  induction len as [len IH] using lt_wf_ind. intros p -> Hp.
  destruct (decide (NoDup p)) as [|Hdup]; [eauto|].
  apply repeated_node in Hdup as (l1 & y & l2 & l3 & ->).
  pose proof (grown_prefix _ _ _ _ _ _ Hp) as Hpre.
  replace (l1 ++ y :: l2 ++ y :: l3) with ((l1 ++ y :: l2) ++ y :: l3) in Hp
    by (by rewrite <- app_assoc).
  apply grown_suffix in Hp as Hsuf.
  pose proof (grown_app E _ _ _ _ _ Hpre Hsuf) as Hshort.
  eapply IH; [|done|exact Hshort].
  cbn. rewrite !length_app. cbn. rewrite !length_app. cbn. lia.
Qed.

(** A walk from inside a set of nodes to outside has a step that leaves
    the set. *)
Lemma crossing (X : list Z) x p u :
  grown E x p u → x ∈ X → u ∉ X →
  ∃ p1 a b p2, p = p1 ++ a :: b :: p2 ∧ a ∈ X ∧ b ∉ X ∧ E a b.
Proof.
  induction 1 as [|p u v Hp IH HE]; intros Hx Hu; [done|].
  destruct (decide (u ∈ X)) as [HuX|HuX].
  - apply grown_last in Hp. apply last_Some in Hp as [p0 ->].
    exists p0, u, v, []. split; [by rewrite <- app_assoc | done].
  - destruct (IH Hx HuX) as (p1 & a & b & p2 & -> & Ha & Hb & Hab).
    exists p1, a, b, (p2 ++ [v]). split; [by rewrite <- app_assoc | done].
Qed.

Lemma grown_mono_on (E' : Z → Z → Prop) x p u :
  grown E x p u → (∀ c d, c ∈ p → d ∈ p → E c d → E' c d) → grown E' x p u.
Proof.
  induction 1 as [|p u v Hp IH HE]; intros Hsub; [constructor|].
  apply grown_snoc with u.
  - apply IH. intros c d Hc Hd. apply Hsub; set_solver.
  - apply Hsub; [|set_solver|done]. apply elem_of_app. left. by eapply grown_elem_last.
Qed.

(** Replacing every step by a walk gives a walk. *)
Lemma grown_subst (E' : Z → Z → Prop) x p u :
  (∀ a b, E a b → ∃ q, grown E' a q b) → grown E x p u → ∃ q, grown E' x q u.
Proof.
  intros Hstep. induction 1 as [|p u v Hp [q Hq] HE].
  - exists [x]. constructor.
  - destruct (Hstep u v HE) as [q' Hq']. eexists. by eapply grown_app.
Qed.
End cuts.

Lemma joins_sym T a b : joins T a b → joins T b a.
Proof. unfold joins. tauto. Qed.

Lemma tree_weight_app g A B : tree_weight g (A ++ B) = tree_weight g A + tree_weight g B.
Proof. unfold tree_weight. induction A as [|e A IH]; cbn; [lia|]. rewrite IH. lia. Qed.

Lemma NoDup_lookup_take {A} (l : list A) i x : NoDup l → l !! i = Some x → x ∉ take i l.
Proof.
  intros Hnd Hi Hin. apply list_elem_of_lookup in Hin as [j Hj].
  apply lookup_take_Some in Hj as [Hj Hlt].
  pose proof (NoDup_lookup l i j x Hnd Hi Hj). lia.
Qed.

(** ** The tree of a run and the exchange of edges *)

Section spanning.
Context (g : Graph).
Hypothesis Hwf : wf_graph g.
Hypothesis Hsym : ∀ u v, arc (neighbors g) u v → arc (neighbors g) v u.
Hypothesis Hwsym : ∀ u v, arc (neighbors g) u v → weight g u v = weight g v u.

Lemma attaches_prefix fins x : Proj02.attaches g (fins ++ [x]) → Proj02.attaches g fins.
Proof.
  intros Hatt k c v Hk. apply lookup_lt_Some in Hk as Hlt.
  destruct (Hatt k c v) as [?|(k' & c' & u & Hk' & Hu & Hrest)];
    [by rewrite lookup_app_l | by left|].
  right. exists k', c', u. split; [done|]. split; [|done].
  by rewrite lookup_app_l in Hu by lia.
Qed.

(** The attaching edges of a run: their weights add up to the cost of the
    run, and they connect every finalized node to node 0. *)
Lemma greedy_tree fins :
  Proj02.attaches g fins → fins ≠ [] →
  ∃ G, attaching g fins G ∧ tree_weight g G = Proj02.total_cost fins ∧
       ∀ v, v ∈ fins.*2 → ∃ p, grown (joins G) 0 p v.
Proof.
  induction fins as [|[c v] fins IH] using rev_ind; intros Hatt Hne; [done|].
  destruct (decide (fins = [])) as [->|Hne'].
  - exists []. destruct (Hatt 0%nat c v eq_refl) as [(_ & -> & ->)|(k' & _ & _ & ? & _)];
      [|lia].
    split; [split; [done | by intros k u w ?]|]. split; [done|].
    intros w Hw. apply list_elem_of_singleton in Hw as ->. exists [0]. constructor.
  - destruct (IH (attaches_prefix _ _ Hatt) Hne') as (G & [Hlen HG] & Hw & Hconn).
    destruct (Hatt (length fins) c v) as [(Hk & _)|(k' & c' & u & Hk' & Hu & HE & Hc)].
    { by rewrite list_lookup_middle. }
    { destruct fins; [done | cbn in Hk; lia]. }
    rewrite lookup_app_l in Hu by done.
    assert (u ∈ fins.*2) as HuH.
    { apply list_elem_of_fmap. exists (c', u). split; [done|]. by eapply list_elem_of_lookup_2. }
    exists (G ++ [(u, v)]). split; [split|split].
    + rewrite !length_app. cbn. lia.
    + intros k a b Hk. destruct (decide (k < length G)%nat) as [Hlt|Hge].
      * rewrite lookup_app_l in Hk by done.
        destruct (HG k a b Hk) as (Hfin & Ha & Hab).
        rewrite lookup_app_l by lia. rewrite take_app_le by lia. done.
      * apply lookup_lt_Some in Hk as Hbound. rewrite length_app in Hbound. cbn in Hbound.
        assert (k = length G) as -> by lia.
        rewrite list_lookup_middle in Hk by done. injection Hk as <- <-.
        rewrite Hlen, list_lookup_middle by done. rewrite take_app_length.
        subst c. done.
    + rewrite tree_weight_app, total_cost_snoc, Hw. unfold tree_weight. cbn. lia.
    + assert (∀ a b, joins G a b → joins (G ++ [(u, v)]) a b) as Hsub.
      { unfold joins. intros a b. rewrite !elem_of_app. tauto. }
      intros w Hw'. rewrite fmap_app in Hw'. apply elem_of_app in Hw' as [Hw'|Hw'].
      * destruct (Hconn w Hw') as [p Hp]. exists p. by eapply grown_mono.
      * apply list_elem_of_singleton in Hw' as ->. cbn.
        destruct (Hconn u HuH) as [p Hp]. exists (p ++ [v]).
        apply grown_snoc with u; [by eapply grown_mono|].
        left. apply elem_of_app. right. by apply list_elem_of_singleton.
Qed.

(** Both ends of the first [k] attaching edges are among the first
    [k + 1] finalized nodes. *)
Lemma attaching_ends fins G k a b :
  attaching g fins G → (a, b) ∈ take k G →
  a ∈ (take (S k) fins).*2 ∧ b ∈ (take (S k) fins).*2.
Proof.
  intros [Hlen HG] Hin. apply list_elem_of_lookup in Hin as [j Hj].
  apply lookup_take_Some in Hj as [Hj Hlt].
  destruct (HG j a b Hj) as (Hfin & Ha & _). split.
  - apply list_elem_of_fmap in Ha as (y & -> & Hy). apply list_elem_of_fmap. exists y.
    split; [done|]. apply list_elem_of_lookup in Hy as [i Hi].
    apply lookup_take_Some in Hi as [Hi Hlt']. apply list_elem_of_lookup.
    exists i. apply lookup_take_Some. split; [done | lia].
  - apply list_elem_of_fmap. exists (weight g a b, b). split; [done|].
    apply list_elem_of_lookup. exists (S j). apply lookup_take_Some. split; [done | lia].
Qed.

(** One exchange: a connecting edge list that holds the first [k]
    attaching edges gives one no heavier that holds the first [k + 1]. *)
Lemma exchange_step fins G k R :
  attaching g fins G → greedy g fins → NoDup fins.*2 → (k < length G)%nat →
  connects g (take k G ++ R) →
  ∃ R', length R = S (length R') ∧ connects g (take (S k) G ++ R') ∧
        tree_weight g (take (S k) G ++ R') ≤ tree_weight g (take k G ++ R).
Proof.
  intros Hatt Hgr Hnd Hk [Harcs Hconn]. pose proof Hatt as [Hlen HG].
  destruct (lookup_lt_is_Some_2 G k Hk) as [[u v] Huv].
  destruct (HG k u v Huv) as (Hfin & HuX & HE).
  set (X := (take (S k) fins).*2) in *.
  assert (v ∉ X) as HvX.
  { unfold X. rewrite fmap_take. apply NoDup_lookup_take; [done|].
    by rewrite list_lookup_fmap, Hfin. }
  assert (0 ≤ u < N g ∧ 0 ≤ v < N g) as [Hu Hv].
  { split; [|by eapply (proj2 Hwf)]. apply (proj1 Hwf). destruct HE as (s & Hs & _). eauto. }
  set (T := take k G ++ R) in *.
  destruct (Hconn u Hu) as [pu Hpu]. destruct (Hconn v Hv) as [pv Hpv].
  apply (grown_reverse _ _ _ _ (joins_sym T)) in Hpu.
  destruct (simple_walk _ _ _ _ (grown_app _ _ _ _ _ _ Hpu Hpv)) as (P & HP & HPnd).
  destruct (crossing _ X _ _ _ HP HuX HvX) as (p1 & x & y & p2 & -> & Hx & Hy & Hxy).
  assert (∃ f, f ∈ R ∧ (f = (x, y) ∨ f = (y, x))) as (f & Hf & Hfxy).
  { assert (∀ f, f ∈ T → f = (x, y) ∨ f = (y, x) → f ∈ R) as Hin.
    { intros [a b] Hab Heq. apply elem_of_app in Hab as [Hab|Hab]; [|done].
      destruct (attaching_ends fins G k a b Hatt Hab) as [Ha Hb].
      exfalso. destruct Heq as [[= -> ->]|[= -> ->]]; by apply Hy. }
    destruct Hxy as [Hxy|Hxy]; [exists (x, y) | exists (y, x)];
      (split; [apply Hin; [done | tauto] | tauto]). }
  apply list_elem_of_split in Hf as (R1 & R2 & ->).
  exists (R1 ++ R2).
  assert (take (S k) G = take k G ++ [(u, v)]) as HGk by (by apply take_S_r).
  assert (arc (neighbors g) x y) as Hxyarc.
  { destruct Hfxy as [->| ->].
    - apply Harcs. unfold T. set_solver.
    - apply Hsym, Harcs. unfold T. set_solver. }
  split; [rewrite !length_app; cbn; lia|]. split; [split|].
  - intros a b Hab. rewrite HGk in Hab.
    apply elem_of_app in Hab as [Hab|Hab].
    + apply elem_of_app in Hab as [Hab|Hab].
      * apply Harcs. unfold T. set_solver.
      * apply list_elem_of_singleton in Hab. by injection Hab as -> ->.
    + apply Harcs. unfold T. set_solver.
  - set (T' := take (S k) G ++ R1 ++ R2).
    assert (∀ a b, (a, b) ∈ T → (a, b) ≠ f → (a, b) ∈ T') as Hkeep.
    { intros a b Hab Hne. unfold T, T' in *. rewrite HGk. set_solver. }
    assert (∀ a b, joins T a b → a ≠ y ∨ b ≠ x → a ≠ x ∨ b ≠ y → joins T' a b) as Hother.
    { intros a b [Hab|Hab] H1 H2; [left|right]; apply Hkeep; try done;
        intros Heq; rewrite <- Heq in Hfxy; destruct Hfxy as [[= ? ?]|[= ? ?]]; lia. }
    assert (joins T' u v) as Huv'.
    { left. unfold T'. rewrite HGk. set_solver. }
    replace (p1 ++ x :: y :: p2) with ((p1 ++ [x]) ++ y :: p2) in HP, HPnd
      by (by rewrite <- app_assoc).
    apply NoDup_app in HPnd as (Hnd1 & Hdisj & Hnd2).
    assert (grown (joins T') u (p1 ++ [x]) x) as Hpre.
    { apply grown_mono_on with (joins T).
      - replace ((p1 ++ [x]) ++ y :: p2) with (p1 ++ x :: y :: p2) in HP
          by (by rewrite <- app_assoc).
        by eapply grown_prefix.
      - intros c d Hc Hd Hcd. apply Hother; [done| |].
        + left. intros ->. apply (Hdisj y); set_solver.
        + right. intros ->. apply (Hdisj y); set_solver. }
    assert (grown (joins T') y (y :: p2) v) as Hsuf.
    { apply grown_mono_on with (joins T).
      - by eapply grown_suffix.
      - intros c d Hc Hd Hcd. apply Hother; [done| |].
        + right. intros ->. apply (Hdisj x); set_solver.
        + left. intros ->. apply (Hdisj x); set_solver. }
    assert (∃ q, grown (joins T') x q y) as [qxy Hqxy].
    { apply (grown_reverse _ _ _ _ (joins_sym T')) in Hpre.
      pose proof (grown_snoc _ _ _ _ v Hpre Huv') as Hxv.
      apply (grown_reverse _ _ _ _ (joins_sym T')) in Hsuf.
      eexists. by eapply grown_app. }
    intros w Hw. destruct (Hconn w Hw) as [p Hp].
    apply (grown_subst (joins T) (joins T') 0 p w); [|done].
    intros a b Hab.
    destruct (decide (a = x ∧ b = y)) as [[-> ->]|H1]; [eauto|].
    destruct (decide (a = y ∧ b = x)) as [[-> ->]|H2].
    { exists (reverse qxy). by apply (grown_reverse _ _ _ _ (joins_sym T')). }
    exists [a; b]. apply (grown_snoc _ a [a] a b); [constructor|].
    apply Hother; [done | |];
      [destruct (decide (a = y)); [right; intros ->; tauto | by left]
      |destruct (decide (a = x)); [right; intros ->; tauto | by left]].
  - unfold T. rewrite HGk, !tree_weight_app.
    change (tree_weight g (f :: R2)) with (weight g f.1 f.2 + tree_weight g R2).
    change (tree_weight g [(u, v)]) with (weight g u v + 0).
    assert (weight g u v ≤ weight g f.1 f.2); [|lia].
    assert (weight g f.1 f.2 = weight g x y) as ->.
    { destruct Hfxy as [->| ->]; cbn; [done|]. symmetry. by apply Hwsym. }
    apply (Hgr (S k) (weight g u v) v Hfin x y); done.
Qed.

(** The attaching edges of a greedy run weigh no more than any connecting
    list of as many edges. *)
Lemma exchange_all fins G T :
  attaching g fins G → greedy g fins → NoDup fins.*2 →
  connects g T → length T = length G → tree_weight g G ≤ tree_weight g T.
Proof.
  intros Hatt Hgr Hnd HT Hlen.
  assert (∀ k, (k ≤ length G)%nat →
            ∃ R, (length R + k = length G)%nat ∧ connects g (take k G ++ R) ∧
                 tree_weight g (take k G ++ R) ≤ tree_weight g T) as Hstep.
  { induction k as [|k IH]; intros Hk.
    - exists T. rewrite take_0. cbn [app]. split; [lia|]. split; [done|]. lia.
    - destruct (IH ltac:(lia)) as (R & HlenR & HR & HwR).
      destruct (exchange_step fins G k R Hatt Hgr Hnd ltac:(lia) HR) as (R' & HlenR' & HR' & Hw').
      exists R'. split; [lia|]. split; [done|]. lia. }
  destruct (Hstep (length G) ltac:(lia)) as (R & HlenR & _ & HwR).
  assert (R = []) as -> by (destruct R; [done | cbn in HlenR; lia]).
  by rewrite firstn_all, app_nil_r in HwR.
Qed.
End spanning.

(** ** Prim returns the weight of a minimum spanning tree *)

Lemma prim_minimum {order : SetIteration} (g : Graph) :
  wf_graph g → square (N g) (matrix g) → 0 < N g →
  (∀ u v, arc (neighbors g) u v → arc (neighbors g) v u) →
  (∀ u v, arc (neighbors g) u v → weight g u v = weight g v u) →
  (∀ v, 0 ≤ v < N g → ∃ p, grown (arc (neighbors g)) 0 p v) →
  ∃ c T0, Proj02.prim g = Some (Ok c) ∧ spanning_tree g T0 ∧ tree_weight g T0 = c ∧
          ∀ T, spanning_tree g T → c ≤ tree_weight g T.
Proof.
  intros Hwf Hsq Hnodes Hsym Hwsym Hconn.
  destruct (prim_greedy_run g Hwf Hsq Hnodes Hconn) as (fins & Hrun & Hatt & Hnd & Hcov & Hgr).
  assert (fins ≠ []) as Hne.
  { intros ->. specialize (proj2 (Hcov 0) ltac:(lia)). by intros ?%elem_of_nil. }
  destruct (greedy_tree g fins Hatt Hne) as (G & HG & Hw & Hpaths).
  assert (length fins = Z.to_nat (N g)) as Hlen.
  { rewrite <- (length_fmap snd fins).
    rewrite <- (size_list_to_set (C := gset Z) _ Hnd).
    assert (list_to_set fins.*2 = (list_to_set (range (N g)) : gset Z)) as ->.
    { apply set_eq. intros v. rewrite !elem_of_list_to_set, range_elem. apply Hcov. }
    unfold range. rewrite size_list_to_set by apply NoDup_seqZ. apply length_seqZ. }
  exists (Proj02.total_cost fins), G. split; [done|]. split; [|split; [done|]].
  - split; [destruct HG as [HlenG _]; lia|]. split.
    + intros u v Huv. apply list_elem_of_lookup in Huv as [k Hk].
      by destruct (proj2 HG k u v Hk) as (_ & _ & ?).
    + intros v Hv. by apply Hpaths, Hcov.
  - intros T [HlenT HT]. rewrite <- Hw.
    apply (exchange_all g Hwf Hsym Hwsym fins G T HG Hgr Hnd HT).
    destruct HG as [HlenG _]. lia.
Qed.

(** X23.  For a connected undirected graph read by proj02 (every record
    with identifiers in [1, N], no pair of nodes given two different weights,
    every node joined to node 0) [prim] returns the weight of a minimum
    spanning tree: some [N - 1] arcs that connect all the nodes have that
    total weight, and no [N - 1] arcs that connect all the nodes weigh
    less. *)
Theorem prim_minimum_spanning_tree {order : SetIteration} (n : Z)
    (arcs : list (list pyval)) (g : Graph) :
  Forall (λ e, valid_arc n e) arcs →
  (∀ a b w w', [PInt a; PInt b; PInt w] ∈ arcs →
     [PInt a; PInt b; PInt w'] ∈ arcs ∨ [PInt b; PInt a; PInt w'] ∈ arcs → w = w') →
  Weighted.init n (Pajek.mirror_ends true arcs) = Ok g → 0 < n →
  (∀ v, 0 ≤ v < n → ∃ p, is_path (arc (neighbors g)) 0 v p) →
  ∃ c T0, Proj02.prim g = Some (Ok c) ∧ spanning_tree g T0 ∧ tree_weight g T0 = c ∧
          ∀ T, spanning_tree g T → c ≤ tree_weight g T.
Proof.
  intros Hall Hone Hg Hn Hconn.
  destruct (mirror_ends_built n arcs Hall) as (g' & Hg' & HN & Hwf & Hsq & Harc & Hw).
  assert (g' = g) as -> by congruence. subst n.
  assert (∀ u v, arc (neighbors g) u v → arc (neighbors g) v u) as Hsym.
  { intros u v. rewrite !Harc. tauto. }
  apply prim_minimum; [done..| |].
  - intros u v Huv. pose proof (Hsym u v Huv) as Hvu.
    destruct (Hw u v Huv) as [H1|H1], (Hw v u Hvu) as [H2|H2]; eauto using eq_sym.
  - intros v Hv. destruct (Hconn v Hv) as [p Hp]. exists p. by apply is_path_iff_grown.
Qed.

Lemma prim_minimum_spanning_tree_witness :
  ∃ g, Weighted.init 2 (Pajek.mirror_ends true [[PInt 1; PInt 2; PInt 7]]) = Ok g ∧
    ∃ c T0, @Proj02.prim elements_iteration g = Some (Ok c) ∧ spanning_tree g T0 ∧
            tree_weight g T0 = c ∧ ∀ T, spanning_tree g T → c ≤ tree_weight g T.
Proof.
  eexists. split; [vm_compute; reflexivity|].
  apply (@prim_minimum_spanning_tree elements_iteration 2 [[PInt 1; PInt 2; PInt 7]]).
  - check_records.
  - intros a b w w' Hin Hin'. apply list_elem_of_singleton in Hin. injection Hin as -> -> ->.
    destruct Hin' as [Hin'|Hin']; apply list_elem_of_singleton in Hin'; congruence.
  - vm_compute. reflexivity.
  - lia.
  - intros v Hv. assert (v = 0 ∨ v = 1) as [-> | ->] by lia.
    + exists [0]. apply is_path_iff_grown. constructor.
    + exists [0; 1]. apply is_path_iff_grown.
      apply (grown_snoc _ 0 [0] 0 1); [constructor|].
      exists {[1]}. split; [vm_compute; reflexivity | set_solver].
Defined.
